(** * Progressivis core: dataflow graph, module step protocol, scheduler

    A shallow embedding of [progressivis/core/module.py],
    [progressivis/core/dataflow.py] and [progressivis/core/scheduler_base.py].

    Conventions of the embedding:
    - a Python [dict] is a [gmap], a Python [set] is a [gset], names are
      [string]s;
    - Python integers are [Z]; Python floats (quanta, timestamps of the
      wall clock) are exact rationals [Qc]: each operation of the code is
      one operation of the model, without its rounding, so the statements
      about them keep the operations in the order of the code or compare
      their results, and none rests on an identity that rounding breaks;
    - a method that mutates [self] takes the object and returns the new one;
      a method that can raise returns a [result], which keeps the state
      reached at the point of the raise (Python does not roll back);
    - object references between modules are module names resolved in a
      heap [gmap string Mod.t]. *)

From stdpp Require Import gmap strings list fin_maps fin_sets numbers pretty.
From Stdlib Require Import ZArith QArith Qcanon.

Local Open Scope Z_scope.

(** ** Exceptions and the state-and-exception monad *)

Inductive exn : Type :=
| ValueError
| KeyError
| AssertionError
| AttributeError
| TypeError
| ZeroDivisionError
| IndexError
| ProgressiveError.

#[global] Instance exn_eq_dec : EqDecision exn.
Proof. solve_decision. Defined.

(** The outcome of a call on a mutable receiver of type [S]: a value and
    the new state, or an exception and the state as it was left. *)
Inductive result (S A : Type) : Type :=
| Ok (a : A) (s : S)
| Raise (e : exn) (s : S).
Arguments Ok {S A} a s.
Arguments Raise {S A} e s.

Definition M (S A : Type) : Type := S → result S A.

Definition ret {S A} (a : A) : M S A := fun s => Ok a s.
Definition raise {S A} (e : exn) : M S A := fun s => Raise e s.
Definition bind {S A B} (m : M S A) (k : A → M S B) : M S B :=
  fun s => match m s with
           | Ok a s' => k a s'
           | Raise e s' => Raise e s'
           end.
Definition get {S} : M S S := fun s => Ok s s.
Definition put {S} (s : S) : M S unit := fun _ => Ok tt s.
Definition modify {S} (f : S → S) : M S unit := fun s => Ok tt (f s).
(** [d[k]] on a dict: [KeyError] when the key is absent. *)
Definition getitem {S A} (o : option A) : M S A :=
  match o with Some a => ret a | None => raise KeyError end.
(** [l[i]] on a list: [IndexError] when [i] is out of range. *)
Definition getindex {S A} (o : option A) : M S A :=
  match o with Some a => ret a | None => raise IndexError end.
(** A call of a function that returns or raises. *)
Definition lift_exn {S A} (r : exn + A) : M S A :=
  match r with inr a => ret a | inl e => raise e end.
(** [try: m except e: h]; the handler runs on the state left by [m]. *)
Definition try_except {S A} (m : M S A) (e : exn) (h : M S A) : M S A :=
  fun s => match m s with
           | Ok a s' => Ok a s'
           | Raise e' s' => if decide (e' = e) then h s' else Raise e' s'
           end.
(** [assert b]. *)
Definition assert {S} (b : bool) : M S unit :=
  if b then ret tt else raise AssertionError.

#[global] Instance M_ret {S} : MRet (M S) := fun A a => ret a.
#[global] Instance M_bind {S} : MBind (M S) := fun A B k m => bind m k.
#[global] Instance M_fmap {S} : FMap (M S) :=
  fun A B f m => bind m (fun a => ret (f a)).

(** A computation that reads no state returns or raises: [exn + A]. *)
#[global] Instance exn_ret : MRet (sum exn) := fun A a => inr a.
#[global] Instance exn_bind : MBind (sum exn) :=
  fun A B k r => match r with inr a => k a | inl e => inl e end.
(** [d[k]] in such a computation. *)
Definition lookup_or_KeyError {A} (o : option A) : exn + A :=
  match o with Some a => inr a | None => inl KeyError end.

(** [for x in xs: body x] *)
Fixpoint for_each {S A} (xs : list A) (body : A → M S unit) : M S unit :=
  match xs with
  | [] => ret tt
  | x :: rest => body x;; for_each rest body
  end.

Definition result_state {S A} (r : result S A) : S :=
  match r with Ok _ s => s | Raise _ s => s end.
Definition returned {S A} (r : result S A) : option A :=
  match r with Ok a _ => Some a | Raise _ _ => None end.
Definition raised {S A} (r : result S A) : option exn :=
  match r with Ok _ _ => None | Raise e _ => Some e end.

(** A computation keeps the relation [P] between the state it starts from
    and the state it leaves, whether it returns or raises. *)
Definition preserves {S A} (P : S → S → Prop) (m : M S A) : Prop :=
  ∀ s, P s (result_state (m s)).

(** ** Slots as the core sees them

    [progressivis/core/slot.py] is outside the sources at hand; the core
    only reads the attributes and the two queries below. *)
Module Slot.
(** Modelled from the spec: class [Slot] of core/slot.py, "an ordered pair
    (producer_module, output_name) → (consumer_module, input_name)" with the
    operations [last_update()] and [has_buffered()]; the producer is
    referred to by name. *)
Record t : Type := mk {
  output_module : string;
  output_name : string;
  input_module : string;
  input_name : string;
  last_update : Z;
  has_buffered : bool
}.

#[global] Instance eq_dec : EqDecision t.
Proof. solve_decision. Defined.
End Slot.

(** Modelled from the spec: [SlotDescriptor] of core/slot.py, an "expected
    payload type, required flag" pair; only the flag is read by the core. *)
Record SlotDescriptor : Type := { required : bool }.

(** ** module.py: class Module *)
Module Mod.
Definition state_created : Z := 0.
Definition state_ready : Z := 1.
Definition state_running : Z := 2.
Definition state_blocked : Z := 3.
Definition state_zombie : Z := 4.
Definition state_terminated : Z := 5.
Definition state_invalid : Z := 6.

Record t : Type := mk {
  name : string;
  _state : Z;
  _last_update : Z;
  _input_slots : gmap string (option Slot.t);
  input_descriptors : gmap string SlotDescriptor;
  steps_acc : Z;
  order : option Z;
  (* the overridable predicates of the class of the object *)
  is_input : bool;
  is_data_input : bool;
  is_visualization : bool
}.

Definition with_state (s : Z) (m : t) : t :=
  mk (name m) s (_last_update m) (_input_slots m) (input_descriptors m)
     (steps_acc m) (order m) (is_input m) (is_data_input m)
     (is_visualization m).
Definition with_steps_acc (n : Z) (m : t) : t :=
  mk (name m) (_state m) (_last_update m) (_input_slots m)
     (input_descriptors m) n (order m) (is_input m) (is_data_input m)
     (is_visualization m).
Definition with_order (i : Z) (m : t) : t :=
  mk (name m) (_state m) (_last_update m) (_input_slots m)
     (input_descriptors m) (steps_acc m) (Some i) (is_input m)
     (is_data_input m) (is_visualization m).

(** [set_state]: the assertion on the range of [s] guards the store. *)
Definition set_state (s : Z) : M t unit :=
  assert ((state_created <=? s) && (s <=? state_invalid));;
  modify (with_state s).

Definition state (m : t) : Z := _state m.
Definition last_update (m : t) : Z := _last_update m.
Definition is_created (m : t) : bool := _state m =? state_created.
Definition is_running (m : t) : bool := _state m =? state_running.
Definition is_zombie (m : t) : bool := _state m =? state_zombie.
Definition is_terminated (m : t) : bool := _state m =? state_terminated.
Definition is_valid (m : t) : bool := negb (_state m =? state_invalid).

(** [terminate]: "Set the state to terminated" actually stores zombie. *)
Definition terminate : M t unit := set_state state_zombie.

Definition input_slot_values (m : t) : list (option Slot.t) :=
  (map_to_list (_input_slots m)).*2.

(** [any(self._input_slots.values())]: a slot object is truthy, [None]
    is not. *)
Definition has_any_input (m : t) : bool :=
  existsb (fun o => match o with Some _ => true | None => false end)
          (input_slot_values m).

(** [input_descriptors[name].required] *)
Definition input_slot_required (m : t) (iname : string) : exn + bool :=
  d ← lookup_or_KeyError (input_descriptors m !! iname); mret (required d).

(** [validate_inputs]: every required input is bound. *)
Fixpoint validate_inputs_loop (sds : list (string * SlotDescriptor))
         (valid : bool) : M t bool :=
  match sds with
  | [] => mret valid
  | (sd_name, sd) :: rest =>
      self ← get;
      slot ← getitem (_input_slots self !! sd_name);
      if required sd && bool_decide (slot = None)
      then validate_inputs_loop rest false
      else validate_inputs_loop rest valid
  end.

Definition validate_inputs : M t bool :=
  self ← get;
  validate_inputs_loop (map_to_list (input_descriptors self)) true.

Section WithOutputs.
(** [validate_outputs] checks the types carried by the output slots,
    which core/slot.py decides. *)
Variable validate_outputs : t → bool.

(** [self.validate_inputs() and self.validate_outputs()] *)
Definition validate_inouts : M t bool :=
  validate_inputs ≫= fun b : bool =>
  if b then validate_outputs <$> (get : M t t) else mret false.

Definition validate : M t bool :=
  validate_inouts ≫= fun b : bool =>
  if b then (set_state state_blocked;; mret true : M t bool)
  else (set_state state_invalid;; mret false).
End WithOutputs.

(** *** The step protocol *)

Record StepResult : Type := {
  next_state : Z;
  steps_run : Z;
  reads : Z;
  updates : Z;
  creates : Z
}.

Definition _return_run_step (next_state steps_run reads updates creates : Z)
  : M t StepResult :=
  assert ((state_ready <=? next_state) && (next_state <=? state_zombie));;
  modify (fun self => with_steps_acc (steps_acc self + steps_run) self);;
  updates ←
    (if negb (creates =? 0) && (updates =? 0) then mret creates
     else if updates <? creates then raise ProgressiveError
     else mret updates);
  mret {| next_state := next_state; steps_run := steps_run;
          reads := reads; updates := updates; creates := creates |}.

(** *** Readiness *)

(** The three counters of the scan over the input slots. *)
Record counts : Type := { in_count : Z; term_count : Z; ready_count : Z }.

(** The body of [for slot in slots] in [is_ready]; [heap] resolves the
    reference [slot.output_module].  [None] stands for a reference to no
    object, which Python cannot express. *)
Fixpoint scan_slots (heap : gmap string t) (slots : list (option Slot.t))
         (c : counts) : option counts :=
  match slots with
  | [] => Some c
  | None :: rest => scan_slots heap rest c
  | Some slot :: rest =>
      in_module ← heap !! Slot.output_module slot;
      let in_count := in_count c + 1 in
      let in_ts := last_update in_module in
      let ts := Slot.last_update slot in
      if Slot.has_buffered slot || (ts <? in_ts) then
        scan_slots heap rest
          {| in_count := in_count; term_count := term_count c;
             ready_count := ready_count c + 1 |}
      else if is_terminated in_module
              || (state in_module =? state_invalid) then
        scan_slots heap rest
          {| in_count := in_count; term_count := term_count c + 1;
             ready_count := ready_count c |}
      else
        scan_slots heap rest
          {| in_count := in_count; term_count := term_count c;
             ready_count := ready_count c |}
  end.

(** [is_ready] on the module named [self] of the heap: the answer and the
    heap after the call.  The two stores into [self.state] pass the
    assertion of [set_state], their constants being states. *)
Definition is_ready (heap : gmap string t) (self : string)
  : option (bool * gmap string t) :=
  m ← heap !! self;
  if state m =? state_zombie then
    Some (false, <[self := with_state state_terminated m]> heap)
  else if state m =? state_terminated then Some (false, heap)
  else if state m =? state_invalid then Some (false, heap)
  else if negb (has_any_input m) then Some (true, heap)
  else if state m =? state_ready then Some (true, heap)
  else if state m =? state_blocked then
    c ← scan_slots heap (input_slot_values m)
           {| in_count := 0; term_count := 0; ready_count := 0 |};
    if negb (is_input m) && negb (in_count c =? 0)
       && (term_count c =? in_count c) then
      Some (false, <[self := with_state state_zombie m]> heap)
    else
      Some ((in_count c =? 0) || negb (ready_count c =? 0), heap)
  else Some (false, heap).
End Mod.

(** ** Readiness in the words of the specification *)
Module Readiness.
Import Mod.

(** The bound input slots: the values of [_input_slots] that are not [None]. *)
Definition bound_slots (m : t) : list Slot.t := omap id (input_slot_values m).

(** "slot has buffered deltas or producer.last_update > slot.last_update" *)
Definition slot_ready (heap : gmap string t) (slot : Slot.t) : bool :=
  match heap !! Slot.output_module slot with
  | Some producer =>
      Slot.has_buffered slot
      || (Slot.last_update slot <? last_update producer)
  | None => false
  end.

(** "producer is Terminated or Invalid" *)
Definition producer_gone (heap : gmap string t) (slot : Slot.t) : bool :=
  match heap !! Slot.output_module slot with
  | Some producer =>
      is_terminated producer || (state producer =? state_invalid)
  | None => false
  end.

(** What the scan of [is_ready] counts in [term_count]: the slot has nothing
    to deliver and its producer is Terminated or Invalid. *)
Definition slot_dead (heap : gmap string t) (slot : Slot.t) : bool :=
  negb (slot_ready heap slot) && producer_gone heap slot.

(** The default [is_ready] algorithm as the specification words it, steps 1
    to 5, with [term_count] the number of bound inputs whose producer is
    Terminated or Invalid.  A Created or Running module with bound inputs is
    outside the five steps; it is given the answer of the code. *)
Definition is_ready_spec (heap : gmap string t) (self : string)
  : option (bool * gmap string t) :=
  m ← heap !! self;
  let bound := bound_slots m in
  let in_count := length bound in
  let ready_count := length (List.filter (slot_ready heap) bound) in
  let term_count := length (List.filter (producer_gone heap) bound) in
  if state m =? state_zombie then
    Some (false, <[self := with_state state_terminated m]> heap)
  else if (state m =? state_terminated) || (state m =? state_invalid) then
    Some (false, heap)
  else if bool_decide (bound = []) then Some (true, heap)
  else if state m =? state_ready then Some (true, heap)
  else if state m =? state_blocked then
    if negb (is_input m) && bool_decide (in_count = term_count)
       && bool_decide (0 < term_count)%nat
    then Some (false, <[self := with_state state_zombie m]> heap)
    else Some (bool_decide (0 < ready_count)%nat, heap)
  else Some (false, heap).
End Readiness.

(** ** module.py: classes Every and Print *)

(** Keyword arguments are a dict from names to Python values. *)
Inductive pyval : Type :=
| PyNone
| PyBool (b : bool)
| PyInt (n : Z)
| PyFloat (q : Qc)
| PyStr (s : string)
| PyFun (f : string)
| PySlots (names : list string).

(** Truth value testing, as [if x:] does it. *)
Definition truthy (v : pyval) : bool :=
  match v with
  | PyNone => false
  | PyBool b => b
  | PyInt n => negb (n =? 0)
  | PyFloat q => negb (bool_decide (q = 0%Qc))
  | PyStr s => negb (bool_decide (s = ""%string))
  | PyFun _ => true
  | PySlots names => negb (bool_decide (names = []))
  end.

Module Every.
Record t : Type := mk {
  base : Mod.t;
  _proc : pyval;
  _constant_time : pyval
}.

Section WithModule.
(** [Module.__init__] registers the object with its scheduler, storage
    and tracer, and [Module.predict_step_size] asks the time predictor:
    both belong to collaborators of the core and are left open. *)
Variable Module_init : gmap string pyval → exn + Mod.t.
Variable Module_predict_step_size : Mod.t → Qc → Z.

(** [Module._add_slots(kwds, kwd, slots)]: the slot descriptors, named by
    their slot, are appended to the list under [kwd]. *)
Definition _add_slots (kwds : gmap string pyval) (kwd : string)
           (slots : list string) : exn + gmap string pyval :=
  match kwds !! kwd with
  | Some (PySlots l) => inr (<[kwd := PySlots (l ++ slots)]> kwds)
  | Some _ => inl TypeError
  | None => inr (<[kwd := PySlots slots]> kwds)
  end.

(** [Every.__init__(self, proc=_print_len, constant_time=True, **kwds)],
    called with the keyword arguments [kw]. *)
Definition init (kw : gmap string pyval) : exn + t :=
  let proc := default (PyFun "_print_len") (kw !! "proc"%string) in
  let constant_time :=
    default (PyBool true) (kw !! "constant_time"%string) in
  let kwds := delete "proc"%string (delete "constant_time"%string kw) in
  kwds ← _add_slots kwds "input_descriptors" ["df"%string];
  m ← Module_init kwds;
  mret {| base := m; _proc := proc; _constant_time := constant_time |}.

Definition predict_step_size (self : t) (duration : Qc) : Z :=
  if truthy (_constant_time self) then 1
  else Module_predict_step_size (base self) duration.

(** [Print.__init__(self, **kwds)]: the call
    [super().__init__(quantum=0.1, constant_time=True, **kwds)] is a
    [TypeError] when [kwds] repeats one of the two keywords. *)
Definition Print_init (kwds : gmap string pyval) : exn + t :=
  let kwds :=
    match kwds !! "proc"%string with
    | None => <["proc"%string := PyFun "_prt"]> kwds
    | Some _ => kwds
    end in
  if bool_decide (is_Some (kwds !! "quantum"%string))
     || bool_decide (is_Some (kwds !! "constant_time"%string))
  then inl TypeError
  else init (<["quantum"%string := PyFloat (Q2Qc (1 # 10))]>
               (<["constant_time"%string := PyBool true]> kwds)).
End WithModule.
End Every.

(** ** scipy.sparse.csgraph.shortest_path, unweighted and directed *)
Module Csgraph.
(** A sparse matrix with all data 1: the list of its (row, col) entries. *)
Definition csr_matrix : Type := list (nat * nat).

Definition successors (mat : csr_matrix) (w : gset nat) : gset nat :=
  list_to_set ((filter (fun e : nat * nat => e.1 ∈ w) mat).*2).

(** The vertices at distance at most [n] from [i]. *)
Fixpoint within (mat : csr_matrix) (n : nat) (i : nat) : gset nat :=
  match n with
  | O => {[i]}
  | S n => within mat n i ∪ successors mat (within mat n i)
  end.

(** Modelled from the spec: the library call
    [shortest_path(mat, directed=True, unweighted=True)], "directed,
    unweighted, via shortest-path-to-reachable": [dist[i, j]] is the number
    of edges of a shortest path from [i] to [j] in a graph of [size]
    vertices, [None] standing for [np.inf]. *)
Definition shortest_path (size : nat) (mat : csr_matrix) (i j : nat)
  : option nat :=
  List.find (fun n => bool_decide (j ∈ within mat n i)) (seq 0 size).
End Csgraph.

(** ** Topological sort

    [progressivis/core/toposort.py] is outside the sources at hand.  The
    operations that call it take it as a parameter; [Toposort.toposort] is a
    reference implementation for running them on concrete graphs. *)
Module Toposort.
(** One round: the items without dependencies are emitted and removed
    from the dependencies of the others. *)
Fixpoint rounds (fuel : nat) (data : gmap string (gset string))
         (acc : list string) : exn + list string :=
  if decide (data = ∅) then inr acc
  else match fuel with
       | O => inl ValueError
       | S fuel =>
           let ordered : gset string :=
             dom (filter (fun kv => kv.2 = ∅) data) in
           if decide (ordered = ∅) then inl ValueError
           else rounds fuel
                  ((fun dep => dep ∖ ordered) <$>
                     filter (fun kv => kv.1 ∉ ordered) data)
                  (acc ++ elements ordered)
       end.

(** Modelled from the spec: [toposort] of core/toposort.py, "runs
    topological sort on dependencies", a cycle being an error
    ([ValueError] is what the scheduler catches); producers come before
    their consumers. *)
Definition toposort (data : gmap string (gset string)) : exn + list string :=
  rounds (size data) data [].
End Toposort.

(** ** dataflow.py: class Dataflow *)
Module Dataflow.
(** [Slot = namedtuple('Slot', ['module', 'name'])] *)
Record Slot : Type := mkSlot { module : string; name : string }.

#[global] Instance Slot_eq_dec : EqDecision Slot.
Proof. solve_decision. Defined.

Record t : Type := mk {
  _modules : gmap string Mod.t;
  _inputs : gmap string (gmap string Slot);
  _outputs : gmap string (gmap string (list Slot))
}.

Definition with_modules (f : gmap string Mod.t → gmap string Mod.t)
           (d : t) : t :=
  mk (f (_modules d)) (_inputs d) (_outputs d).
Definition with_inputs
           (f : gmap string (gmap string Slot) → gmap string (gmap string Slot))
           (d : t) : t :=
  mk (_modules d) (f (_inputs d)) (_outputs d).
Definition with_outputs
           (f : gmap string (gmap string (list Slot))
                → gmap string (gmap string (list Slot)))
           (d : t) : t :=
  mk (_modules d) (_inputs d) (f (_outputs d)).

(** [Dataflow.__init__] *)
Definition empty : t := mk ∅ ∅ ∅.

(** [del d[k]] *)
Definition delitem {V} (k : string) (d : gmap string V)
  : M t (gmap string V) :=
  getitem (d !! k);; mret (delete k d).

(** A method call on a module object held by the caller: the object after
    the call is handed back. *)
Definition on_module {A} (c : M Mod.t A) (m : Mod.t) : M t (A * Mod.t) :=
  match c m with
  | Ok a m' => mret (a, m')
  | Raise e _ => raise e
  end.

Definition add_module (module : Mod.t) : M t unit :=
  assert (Mod.is_created module);;
  self ← get;
  assert (bool_decide (_inputs self !! Mod.name module = None));;
  modify (with_modules <[Mod.name module := module]>);;
  modify (with_inputs <[Mod.name module := ∅]>);;
  modify (with_outputs <[Mod.name module := ∅]>).

Definition add_connection (output_module : Mod.t) (output_name : string)
           (input_module : Mod.t) (input_name : string) : M t unit :=
  self ← get;
  ins ← getitem (_inputs self !! Mod.name input_module);
  assert (bool_decide (ins !! input_name = None));;
  modify (with_inputs
            <[Mod.name input_module :=
                <[input_name := mkSlot (Mod.name output_module) output_name]>
                  ins]>);;
  let oslot := mkSlot (Mod.name input_module) input_name in
  self ← get;
  match _outputs self !! Mod.name output_module with
  | None =>
      modify (with_outputs
                <[Mod.name output_module := {[output_name := [oslot]]}]>)
  | Some outs =>
      match outs !! output_name with
      | None =>
          modify (with_outputs
                    <[Mod.name output_module :=
                        <[output_name := [oslot]]> outs]>)
      | Some _ =>
          (* [self._outputs[output_module.name].append(oslot)]: the
             receiver of [append] is the dict of the producer *)
          raise AttributeError
      end
  end.

(** [[s for s in slots if s.module != name]] *)
Definition not_of (name : string) (slots : list Slot) : list Slot :=
  filter (fun s => module s ≠ name) slots.

Definition _remove_module_inputs (name : string) : M t unit :=
  self ← get;
  module_slots ← getitem (_inputs self !! name);
  for_each (map_to_list module_slots).*2 (fun slot =>
    self ← get;
    outs ← getitem (_outputs self !! module slot);
    slots ← getitem (outs !! Dataflow.name slot);
    let nslots := not_of name slots in
    if bool_decide (nslots ≠ []) then
      modify (with_outputs
                <[module slot := <[Dataflow.name slot := nslots]> outs]>)
    else
      modify (with_outputs
                <[module slot := delete (Dataflow.name slot) outs]>));;
  self ← get;
  ins ← delitem name (_inputs self);
  modify (with_inputs (fun _ => ins)).

Definition _remove_module_outputs (name : string) : M t unit :=
  self ← get;
  module_slots ← getitem (_outputs self !! name);
  for_each (map_to_list module_slots).*1 (fun sname =>
    self ← get;
    module_slots ← getitem (_outputs self !! name);
    slots ← getitem (module_slots !! sname);
    let nslots := not_of name slots in
    assert (bool_decide (nslots ≠ slots));;
    if bool_decide (nslots ≠ []) then
      modify (with_outputs <[name := <[sname := nslots]> module_slots]>)
    else
      modify (with_outputs <[name := delete sname module_slots]>));;
  self ← get;
  outs ← delitem name (_outputs self);
  modify (with_outputs (fun _ => outs)).

(** [remove_module(module)]: [module] is a name or a module object; the
    module object after the call is returned with the dataflow. *)
Definition remove_module (module : string + Mod.t) : M t Mod.t :=
  module ← match module with
            | inl mid => self ← get; getitem (_modules self !! mid)
            | inr m => mret m
            end;
  '(_, module) ← on_module Mod.terminate module;
  self ← get;
  mods ← delitem (Mod.name module) (_modules self);
  modify (with_modules (fun _ => mods));;
  _remove_module_inputs (Mod.name module);;
  _remove_module_outputs (Mod.name module);;
  mret module.

Definition collect_dependencies (self : t) : gmap string (gset string) :=
  (fun slots : gmap string Slot =>
     list_to_set (module <$> (map_to_list slots).*2)) <$> _inputs self.

(** The input maps of the modules other than [name] are the same in [d]
    and [d']. *)
Definition same_inputs_but (name : string) (d d' : t) : Prop :=
  ∀ other, other ≠ name → _inputs d' !! other = _inputs d !! other.

Section WithToposort.
Variable toposort : gmap string (gset string) → exn + list string.

Definition order_modules (self : t) : exn + list string :=
  let dependencies := collect_dependencies self in
  let runorder := toposort dependencies in
  runorder.
End WithToposort.
End Dataflow.

(** ** scheduler_base.py: class BaseScheduler *)
Module BaseScheduler.
Record _InteractionOpts : Type := {
  starving_mods : option (list Mod.t);
  max_time : option Qc;
  max_iter : option Z
}.

Record t : Type := mk {
  _modules : gmap string Mod.t;
  _runorder : option (list string);
  _valid : bool;
  _start : option Qc;
  _run_number : Z;
  _new_modules_ids : list string;
  _slots_updated : bool;
  (* the run list holds module objects: their names, resolved in [_modules] *)
  _run_list : list string;
  _module_selection : option (gset string);
  _selection_target_time : Qc;
  interaction_latency : Qc;
  _reachability : gmap string (gset string);
  _start_inter : Qc;
  _inter_cycles_cnt : Z;
  _interaction_opts : option _InteractionOpts
}.

Definition with_modules (v : gmap string Mod.t) (s : t) : t :=
  mk v (_runorder s) (_valid s) (_start s) (_run_number s)
     (_new_modules_ids s) (_slots_updated s) (_run_list s)
     (_module_selection s) (_selection_target_time s)
     (interaction_latency s) (_reachability s) (_start_inter s)
     (_inter_cycles_cnt s) (_interaction_opts s).
Definition with_runorder (v : option (list string)) (s : t) : t :=
  mk (_modules s) v (_valid s) (_start s) (_run_number s)
     (_new_modules_ids s) (_slots_updated s) (_run_list s)
     (_module_selection s) (_selection_target_time s)
     (interaction_latency s) (_reachability s) (_start_inter s)
     (_inter_cycles_cnt s) (_interaction_opts s).
Definition with_valid (v : bool) (s : t) : t :=
  mk (_modules s) (_runorder s) v (_start s) (_run_number s)
     (_new_modules_ids s) (_slots_updated s) (_run_list s)
     (_module_selection s) (_selection_target_time s)
     (interaction_latency s) (_reachability s) (_start_inter s)
     (_inter_cycles_cnt s) (_interaction_opts s).
Definition with_start (v : option Qc) (s : t) : t :=
  mk (_modules s) (_runorder s) (_valid s) v (_run_number s)
     (_new_modules_ids s) (_slots_updated s) (_run_list s)
     (_module_selection s) (_selection_target_time s)
     (interaction_latency s) (_reachability s) (_start_inter s)
     (_inter_cycles_cnt s) (_interaction_opts s).
Definition with_new_modules_ids (v : list string) (s : t) : t :=
  mk (_modules s) (_runorder s) (_valid s) (_start s) (_run_number s)
     v (_slots_updated s) (_run_list s)
     (_module_selection s) (_selection_target_time s)
     (interaction_latency s) (_reachability s) (_start_inter s)
     (_inter_cycles_cnt s) (_interaction_opts s).
Definition with_slots_updated (v : bool) (s : t) : t :=
  mk (_modules s) (_runorder s) (_valid s) (_start s) (_run_number s)
     (_new_modules_ids s) v (_run_list s)
     (_module_selection s) (_selection_target_time s)
     (interaction_latency s) (_reachability s) (_start_inter s)
     (_inter_cycles_cnt s) (_interaction_opts s).
Definition with_run_list (v : list string) (s : t) : t :=
  mk (_modules s) (_runorder s) (_valid s) (_start s) (_run_number s)
     (_new_modules_ids s) (_slots_updated s) v
     (_module_selection s) (_selection_target_time s)
     (interaction_latency s) (_reachability s) (_start_inter s)
     (_inter_cycles_cnt s) (_interaction_opts s).
Definition with_module_selection (v : option (gset string)) (s : t) : t :=
  mk (_modules s) (_runorder s) (_valid s) (_start s) (_run_number s)
     (_new_modules_ids s) (_slots_updated s) (_run_list s)
     v (_selection_target_time s)
     (interaction_latency s) (_reachability s) (_start_inter s)
     (_inter_cycles_cnt s) (_interaction_opts s).
Definition with_selection_target_time (v : Qc) (s : t) : t :=
  mk (_modules s) (_runorder s) (_valid s) (_start s) (_run_number s)
     (_new_modules_ids s) (_slots_updated s) (_run_list s)
     (_module_selection s) v
     (interaction_latency s) (_reachability s) (_start_inter s)
     (_inter_cycles_cnt s) (_interaction_opts s).
Definition with_reachability (v : gmap string (gset string)) (s : t) : t :=
  mk (_modules s) (_runorder s) (_valid s) (_start s) (_run_number s)
     (_new_modules_ids s) (_slots_updated s) (_run_list s)
     (_module_selection s) (_selection_target_time s)
     (interaction_latency s) v (_start_inter s)
     (_inter_cycles_cnt s) (_interaction_opts s).
Definition with_inter_cycles_cnt (v : Z) (s : t) : t :=
  mk (_modules s) (_runorder s) (_valid s) (_start s) (_run_number s)
     (_new_modules_ids s) (_slots_updated s) (_run_list s)
     (_module_selection s) (_selection_target_time s)
     (interaction_latency s) (_reachability s) (_start_inter s)
     v (_interaction_opts s).

Definition with_interaction_opts (v : option _InteractionOpts) (s : t) : t :=
  mk (_modules s) (_runorder s) (_valid s) (_start s) (_run_number s)
     (_new_modules_ids s) (_slots_updated s) (_run_list s)
     (_module_selection s) (_selection_target_time s)
     (interaction_latency s) (_reachability s) (_start_inter s)
     (_inter_cycles_cnt s) v.

(** *** Interaction mode *)

(** [set_interaction_opts]; the [isinstance] checks are those of the types. *)
Definition set_interaction_opts (starving_mods : option (list Mod.t))
           (max_time : option Qc) (max_iter : option Z) : M t unit :=
  match max_time with
  | Some mt =>
      if negb (bool_decide (mt = 0%Qc)) && bool_decide (mt ≤ 0)%Qc
      then raise ValueError else mret tt
  | None => mret tt
  end;;
  match max_iter with
  | Some mi =>
      if negb (mi =? 0) && (mi <=? 0) then raise ValueError else mret tt
  | None => mret tt
  end;;
  modify (with_interaction_opts
            (Some {| starving_mods := starving_mods; max_time := max_time;
                     max_iter := max_iter |})).

(** [timer()]; [clock] is the reading of [default_timer()]. *)
Definition timer (clock : Qc) : M t Qc :=
  self ← get;
  match _start self with
  | None => modify (with_start (Some clock));; mret 0%Qc
  | Some start => mret (clock - start)%Qc
  end.

Definition has_input : M t bool :=
  self ← get;
  match _module_selection self with
  | None => mret false
  | Some sel =>
      if bool_decide (sel = ∅) then
        (* empty, cleanup *)
        modify (with_module_selection None);;
        modify (with_selection_target_time (-1)%Qc);;
        mret false
      else mret true
  end.

(** [module.name in self._module_selection] *)
Definition in_selection (name : string) : M t bool :=
  self ← get;
  match _module_selection self with
  | None => raise TypeError
  | Some sel => mret (bool_decide (name ∈ sel))
  end.

Definition _consider_module (module : Mod.t) : M t bool :=
  has_input ≫= fun b : bool =>
  if negb b then mret true
  else in_selection (Mod.name module).

Definition time_left (clock : Qc) : M t Qc :=
  self ← get;
  (* [self._selection_target_time <= 0 and not self.has_input()] *)
  (if bool_decide (_selection_target_time self ≤ 0)%Qc
   then negb <$> has_input else mret false) ≫= fun no_target : bool =>
  if no_target then mret 0%Qc
  else
    self ← get;
    now ← timer clock;
    let left := (_selection_target_time self - now)%Qc in
    (* [max(0, left)] *)
    mret (if bool_decide (0 < left)%Qc then left else 0%Qc).

(** [len(self._module_selection)] *)
Definition selection_len : M t Z :=
  self ← get;
  match _module_selection self with
  | None => raise TypeError
  | Some sel => mret (Z.of_nat (size sel))
  end.

(** [a / n], a [ZeroDivisionError] when [n] is 0. *)
Definition truediv (a : Qc) (n : Z) : M t Qc :=
  if n =? 0 then raise ZeroDivisionError
  else mret (a / Q2Qc (inject_Z n))%Qc.

Definition fix_quantum (clock : Qc) (module : Mod.t) (quantum : Qc)
  : M t Qc :=
  (* [self.has_input() and module.name in self._module_selection] *)
  (has_input ≫= fun b : bool =>
   if b then in_selection (Mod.name module) else mret false)
  ≫= fun selected : bool =>
  quantum ← (if selected then
               left ← time_left clock;
               n ← selection_len;
               truediv left n
             else mret quantum);
  if bool_decide (quantum = 0%Qc) then mret (Q2Qc (1 # 10))
  else mret quantum.

(** The three statements that leave the interaction mode in
    [_proc_interaction_opts]. *)
Definition exit_interaction : M t unit :=
  modify (with_module_selection None);;
  modify (with_inter_cycles_cnt 0).

(** Truth values of the three options, as [if opts.x:] tests them. *)
Definition starving_set (o : _InteractionOpts) : option (list Mod.t) :=
  match starving_mods o with
  | Some (m :: ms) => Some (m :: ms)
  | _ => None
  end.
Definition max_time_set (o : _InteractionOpts) : option Qc :=
  match max_time o with
  | Some q => if bool_decide (q = 0%Qc) then None else Some q
  | None => None
  end.
Definition max_iter_set (o : _InteractionOpts) : option Z :=
  match max_iter o with
  | Some n => if n =? 0 then None else Some n
  | None => None
  end.

(** [sum([mod.steps_acc for mod in mods])] *)
Definition sum_steps_acc (mods : list Mod.t) : Z :=
  foldr Z.add 0 (Mod.steps_acc <$> mods).

(** The [starving_mods] exit condition. *)
Definition starving_fires (o : _InteractionOpts) : bool :=
  match starving_set o with
  | Some mods => sum_steps_acc mods =? 0
  | None => false
  end.

(** The [max_time] exit condition at the clock reading [clock]. *)
Definition max_time_fires (clock : Qc) (self : t) (o : _InteractionOpts)
  : bool :=
  match max_time_set o with
  | Some mt =>
      let duration := (clock - _start_inter self)%Qc in
      bool_decide (mt ≤ duration)%Qc
  | None => false
  end.

Definition _proc_interaction_opts (clock : Qc) : M t unit :=
  has_input ≫= fun b : bool =>
  if negb b then mret tt
  else
    self ← get;
    match _interaction_opts self with
    | None => exit_interaction
    | Some opts =>
        if starving_fires opts then exit_interaction
        else if max_time_fires clock self opts then exit_interaction
        else match max_iter_set opts with
             | Some mi =>
                 if mi <=? _inter_cycles_cnt self then exit_interaction
                 else modify (with_inter_cycles_cnt
                                (_inter_cycles_cnt self + 1))
             | None => mret tt
             end
    end.

(** *** Dependencies and reachability *)

Definition get_visualizations (self : t) : list string :=
  Mod.name <$> filter (fun m => Mod.is_visualization m = true)
                      (map_to_list (_modules self)).*2.

(** The list built for one module in [_collect_dependencies]:
    [[m.output_module.name for m in module.input_slot_values()
      if m and (not only_required
                or module.input_slot_required(m.input_name))]] *)
Fixpoint slot_outs (only_required : bool) (module : Mod.t)
         (slots : list (option Slot.t)) : exn + list string :=
  match slots with
  | [] => mret []
  | None :: rest => slot_outs only_required module rest
  | Some m :: rest =>
      (if negb only_required then mret true
       else Mod.input_slot_required module (Slot.input_name m))
      ≫= fun keep : bool =>
      outs ← slot_outs only_required module rest;
      mret (if keep then Slot.output_module m :: outs else outs)
  end.

(** [for (mid, module) in six.iteritems(self._modules)] *)
Fixpoint collect_loop (only_required : bool) (mods : list (string * Mod.t))
         (dependencies : gmap string (gset string))
  : exn + gmap string (gset string) :=
  match mods with
  | [] => mret dependencies
  | (mid, module) :: rest =>
      if negb (Mod.is_valid module) then
        collect_loop only_required rest dependencies
      else
        outs ← slot_outs only_required module
                 (Mod.input_slot_values module);
        collect_loop only_required rest
                     (<[mid := list_to_set outs]> dependencies)
  end.

Definition _collect_dependencies (only_required : bool)
  : M t (gmap string (gset string)) :=
  self ← get;
  lift_exn (collect_loop only_required (map_to_list (_modules self)) ∅).

(** [index = dict(zip(k, range(size)))] *)
Definition index_of (k : list string) : gmap string nat :=
  list_to_map (zip k (seq 0 (length k))).

(** The inner loop that fills [row] and [col] for one vertex. *)
Fixpoint vertex_entries (index : gmap string nat) (vertex1 : string)
         (vertices : list string) : M t Csgraph.csr_matrix :=
  match vertices with
  | [] => mret []
  | vertex2 :: rest =>
      c ← getitem (index !! vertex1);
      r ← getitem (index !! vertex2);
      es ← vertex_entries index vertex1 rest;
      mret ((r, c) :: es)
  end.

Fixpoint matrix_entries (index : gmap string nat)
         (items : list (string * gset string)) : M t Csgraph.csr_matrix :=
  match items with
  | [] => mret []
  | (vertex1, vertices) :: rest =>
      es ← vertex_entries index vertex1 (elements vertices);
      es' ← matrix_entries index rest;
      mret (es ++ es')
  end.

(** [dst != 0 and dst != np.inf] *)
Definition reached (dst : option nat) : bool :=
  match dst with
  | Some O => false
  | Some (S _) => true
  | None => false
  end.

(** The set [s] built for the row [index1] of the distance matrix. *)
Definition row_set (k : list string) (dist : nat → nat → option nat)
           (index1 : nat) (vertex1 : string) : gset string :=
  foldl (fun (s : gset string) index2 =>
           match k !! index2 with
           | Some vertex2 =>
               if reached (dist index1 index2) then s ∪ {[vertex2]} else s
           | None => s
           end)
        {[vertex1]} (seq 0 (length k)).

(** [for index1 in range(size)]; [reach_no_vis] is the local set. *)
Fixpoint reach_rows (k : list string) (dist : nat → nat → option nat)
         (all_vis : gset string) (rows : list nat)
         (reach_no_vis : gset string) : M t (gset string) :=
  match rows with
  | [] => mret reach_no_vis
  | index1 :: rest =>
      vertex1 ← getindex (k !! index1);
      let s := row_set k dist index1 vertex1 in
      modify (fun self =>
                with_reachability (<[vertex1 := s]> (_reachability self))
                                  self);;
      if bool_decide (all_vis ∩ s = ∅) then
        self ← get;
        m ← getitem (_modules self !! vertex1);
        let reach_no_vis := reach_no_vis ∪ s in
        reach_rows k dist all_vis rest
          (if negb (Mod.is_visualization m)
           then reach_no_vis ∪ {[vertex1]} else reach_no_vis)
      else reach_rows k dist all_vis rest reach_no_vis
  end.

Definition _compute_reachability (dependencies : gmap string (gset string))
  : M t unit :=
  let k := (map_to_list dependencies).*1 in
  let size := length k in
  let index := index_of k in
  mat ← matrix_entries index (map_to_list dependencies);
  let dist := Csgraph.shortest_path size mat in
  modify (with_reachability ∅);;
  self ← get;
  let all_vis : gset string := list_to_set (get_visualizations self) in
  reach_no_vis ← reach_rows k dist all_vis (seq 0 size) ∅;
  (* filter out module that reach no vis *)
  modify (fun self =>
            with_reachability
              ((fun v => v ∖ reach_no_vis) <$> _reachability self) self).

Section WithCollaborators.
Variable toposort : gmap string (gset string) → exn + list string.
Variable validate_outputs : Mod.t → bool.

Definition order_modules : M t (list string) :=
  try_except
    (dependencies ← _collect_dependencies false;
     runorder ← lift_exn (toposort dependencies);
     _compute_reachability dependencies;;
     mret runorder)
    ValueError
    (* cycle, try to break it then *)
    (dependencies ← _collect_dependencies true;
     runorder ← lift_exn (toposort dependencies);
     _compute_reachability dependencies;;
     mret runorder).

(** A method call on the module object [mid] of [self._modules]. *)
Definition on_module {A} (mid : string) (c : M Mod.t A) : M t A :=
  self ← get;
  m ← getitem (_modules self !! mid);
  match c m with
  | Ok a m' => modify (with_modules (<[mid := m']> (_modules self)));;
               mret a
  | Raise e m' => modify (with_modules (<[mid := m']> (_modules self)));;
                  raise e
  end.

Fixpoint validate_loop (mids : list string) (valid : bool) : M t bool :=
  match mids with
  | [] => mret valid
  | mid :: rest =>
      on_module mid (Mod.validate validate_outputs) ≫= fun ok : bool =>
      validate_loop rest (if ok then valid else false)
  end.

Definition validate : M t bool :=
  self ← get;
  (if negb (_valid self) then
     valid ← validate_loop (map_to_list (_modules self)).*1 true;
     modify (with_valid valid)
   else mret tt);;
  _valid <$> get.

(** [for i, mid in enumerate(self._runorder)] *)
Fixpoint fill_run_list (i : Z) (runorder : list string) : M t unit :=
  match runorder with
  | [] => mret tt
  | mid :: rest =>
      on_module mid (mret tt);;
      modify (fun self => with_run_list (_run_list self ++ [mid]) self);;
      on_module mid (modify (Mod.with_order i));;
      fill_run_list (i + 1) rest
  end.

Definition _update_modules : M t unit :=
  self ← get;
  if bool_decide (_new_modules_ids self ≠ []) then
    let prev_run_list := _run_list self in
    (* [self._modules[mid].starting()], which does nothing *)
    for_each (_new_modules_ids self) (fun mid => on_module mid (mret tt));;
    modify (with_new_modules_ids []);;
    modify (with_slots_updated false);;
    modify (with_run_list []);;
    runorder ← order_modules;
    modify (with_runorder (Some runorder));;
    fill_run_list 0 runorder;;
    validate ≫= fun ok : bool =>
    if negb ok then modify (with_run_list prev_run_list) else mret tt
  else mret tt.
End WithCollaborators.
End BaseScheduler.

(** ** Reachability in the words of the specification *)
Module Descendants.
(** An edge of the dataflow: [u] is among the producers of [v]. *)
Definition edge (dependencies : gmap string (gset string)) (u v : string)
  : Prop :=
  ∃ producers, dependencies !! v = Some producers ∧ u ∈ producers.

(** "{u} ∪ {v : path u→…→v exists}": [v] is [u] or a descendant of [u]. *)
Definition descendant (dependencies : gmap string (gset string))
  : string → string → Prop :=
  rtc (edge dependencies).
End Descendants.

(** * Further operations of the core *)

(** ** dataflow.py: naming, validation, dependencies *)
Module DataflowOps.
Import Dataflow.

(** ['%s_%d' % (prefix, i)] *)
Definition name_of (prefix : string) (i : nat) : string :=
  prefix +:+ "_" +:+ pretty i.

(** The loop of [generate_name]: the first candidate that is not a key of
    [modules]. *)
Fixpoint first_free {V} (modules : gmap string V) (prefix : string)
         (candidates : list nat) : option string :=
  match candidates with
  | [] => None
  | i :: rest =>
      let mid := name_of prefix i in
      if bool_decide (modules !! mid = None) then Some mid
      else first_free modules prefix rest
  end.

(** [generate_name(prefix)], the same in [Dataflow] and in [BaseScheduler];
    [uuid] is the string of [uuid4()]. *)
Definition generate_name_in {V} (modules : gmap string V) (uuid : string)
           (prefix : string) : string :=
  match first_free modules prefix (seq 1 9) with
  | Some mid => mid
  | None => prefix +:+ "_" +:+ uuid
  end.

Definition generate_name (uuid : string) (prefix : string) (self : t)
  : string :=
  generate_name_in (_modules self) uuid prefix.

(** [self[name]], [name in self] and [len(self)] *)
Definition __getitem__ (name : string) (self : t) : exn + Mod.t :=
  lookup_or_KeyError (_modules self !! name).
Definition __contains__ (name : string) (self : t) : bool :=
  bool_decide (is_Some (_modules self !! name)).
Definition __len__ (self : t) : nat := size (_modules self).

(** The loop of [validate_module], which stops at the first required input
    without a slot. *)
Fixpoint required_bound (inputs : gmap string Slot)
         (sds : list (string * SlotDescriptor)) : bool :=
  match sds with
  | [] => true
  | (sd_name, sd) :: rest =>
      if required sd && bool_decide (inputs !! sd_name = None) then false
      else required_bound inputs rest
  end.

Definition validate_module (module : Mod.t) (self : t) : exn + bool :=
  inputs ← lookup_or_KeyError (_inputs self !! Mod.name module);
  mret (required_bound inputs (map_to_list (Mod.input_descriptors module))).

(** [for module in self._modules.values()] of [validate]. *)
Fixpoint validate_loop (modules : list Mod.t) (self : t)
  : exn + list Mod.t :=
  match modules with
  | [] => mret []
  | module :: rest =>
      validate_module module self ≫= fun valid : bool =>
      invalid ← validate_loop rest self;
      mret (if valid then invalid else module :: invalid)
  end.

Definition validate (self : t) : exn + list Mod.t :=
  validate_loop (map_to_list (_modules self)).*2 self.

(** The two directions of the wiring agree: an input bound to [p.o] is in
    the fan-out list of [p.o], and conversely. *)
Definition linked (d : t) : Prop :=
  (∀ c i p o ins,
     _inputs d !! c = Some ins → ins !! i = Some (mkSlot p o) →
     ∃ outs fan, _outputs d !! p = Some outs ∧ outs !! o = Some fan
                 ∧ mkSlot c i ∈ fan)
  ∧ (∀ p o c i outs fan,
       _outputs d !! p = Some outs → outs !! o = Some fan →
       mkSlot c i ∈ fan →
       ∃ ins, _inputs d !! c = Some ins ∧ ins !! i = Some (mkSlot p o)).
End DataflowOps.

(** ** Further operations of a module *)
Module ModOps.
Import Mod.

Definition with_input_slots (v : gmap string (option Slot.t)) (m : t) : t :=
  mk (name m) (_state m) (_last_update m) v (input_descriptors m)
     (steps_acc m) (order m) (is_input m) (is_data_input m)
     (is_visualization m).

(** [_validate_descriptors(descriptor_list)]; a descriptor is listed with
    its name. *)
Fixpoint _validate_descriptors_loop
         (descriptor_list : list (string * SlotDescriptor))
         (slots : gmap string (option Slot.t))
  : exn + gmap string (option Slot.t) :=
  match descriptor_list with
  | [] => mret slots
  | (desc_name, _) :: rest =>
      if bool_decide (is_Some (slots !! desc_name))
      then inl ProgressiveError
      else _validate_descriptors_loop rest (<[desc_name := None]> slots)
  end.

Definition _validate_descriptors
           (descriptor_list : list (string * SlotDescriptor))
  : exn + gmap string (option Slot.t) :=
  _validate_descriptors_loop descriptor_list ∅.

(** [{d.name: d for d in descriptor_list}]: a later descriptor replaces an
    earlier one of the same name. *)
Definition descriptors_dict (descriptor_list : list (string * SlotDescriptor))
  : gmap string SlotDescriptor :=
  foldl (fun d p => <[p.1 := p.2]> d) ∅ descriptor_list.

(** [get_input_slot(name)] *)
Definition get_input_slot (iname : string) : M t (option Slot.t) :=
  self ← get; getitem (_input_slots self !! iname).

(** [_connect_input(slot)] *)
Definition _connect_input (slot : Slot.t) : M t (option Slot.t) :=
  ret ← get_input_slot (Slot.input_name slot);
  modify (fun self =>
            with_input_slots
              (<[Slot.input_name slot := Some slot]> (_input_slots self))
              self);;
  mret ret.

(** [cleanup_run(run_number)] *)
Definition cleanup_run (run_number : Z) : M t Z :=
  self ← get;
  (if is_zombie self then set_state state_terminated else mret tt);;
  mret run_number.

(** Every input descriptor of [m] names a declared input slot. *)
Definition declared (m : t) : Prop :=
  ∀ n, is_Some (input_descriptors m !! n) → is_Some (_input_slots m !! n).

(** The module as [validate] leaves it when its answer is [ok]. *)
Definition settled (ok : bool) (m : t) : t :=
  with_state (if ok then state_blocked else state_invalid) m.
End ModOps.

(** ** Further operations of the scheduler *)
Module SchedulerOps.
Import BaseScheduler.

(** [exists(moduleid)], [self[mid]] and [len(self)] *)
Definition exists_ (moduleid : string) (self : t) : bool :=
  bool_decide (is_Some (_modules self !! moduleid)).
Definition __getitem__ (mid : string) (self : t) : option Mod.t :=
  _modules self !! mid.
Definition __len__ (self : t) : nat := size (_modules self).

Definition generate_name (uuid : string) (prefix : string) (self : t)
  : string :=
  DataflowOps.generate_name_in (_modules self) uuid prefix.

(** [run_number()] *)
Definition run_number (self : t) : Z := _run_number self.

(** [self._new_modules_ids or self._slots_updated], as a truth value *)
Definition _new_module_available (self : t) : bool :=
  negb (bool_decide (_new_modules_ids self = [])) || _slots_updated self.

Definition _add_module (module : Mod.t) : M t unit :=
  modify (fun self =>
            with_new_modules_ids
              (_new_modules_ids self ++ [Mod.name module]) self);;
  modify (fun self =>
            with_modules (<[Mod.name module := module]> (_modules self))
                         self).

(** [add_module(module)]; a module object has a name, so the branch that
    names an anonymous module is never taken. *)
Definition add_module (module : Mod.t) : M t unit :=
  if negb (Mod.is_created module) then raise ProgressiveError
  else _add_module module.

Definition _remove_module (module : Mod.t) : M t unit :=
  self ← get;
  getitem (_modules self !! Mod.name module);;
  modify (with_modules (delete (Mod.name module) (_modules self))).

(** [remove_module(module)]: [module] is a name or a module object; the
    module object after the call is returned with the scheduler. *)
Definition remove_module (module : string + Mod.t) : M t Mod.t :=
  module ← match module with
            | inl mid => self ← get; getitem (_modules self !! mid)
            | inr m => mret m
            end;
  match Mod.terminate module with
  | Ok _ module => _remove_module module;; mret module
  | Raise e _ => raise e
  end.

(** [for i in inputs: reachable.update(self._reachability[i])] *)
Fixpoint reachable_loop (self : t) (inputs : list string)
         (reachable : gset string) : exn + gset string :=
  match inputs with
  | [] => mret reachable
  | i :: rest =>
      r ← lookup_or_KeyError (_reachability self !! i);
      reachable_loop self rest (reachable ∪ r)
  end.

(** [reachable_from_inputs(inputs)]; the result [None] is [None]. *)
Definition reachable_from_inputs (inputs : list string) (self : t)
  : exn + option (gset string) :=
  match inputs with
  | [] => mret (Some ∅)
  | _ =>
      reachable ← reachable_loop self inputs ∅;
      let all_vis : gset string := list_to_set (get_visualizations self) in
      if bool_decide (reachable ∩ all_vis ≠ ∅) then mret (Some reachable)
      else mret None
  end.

(** The branch of [for_input] that starts the input management. *)
Definition start_selection (clock : Qc) (sel : gset string) : M t unit :=
  modify (with_module_selection (Some sel));;
  now ← timer clock;
  self ← get;
  modify (with_selection_target_time (now + interaction_latency self)%Qc).

(** [for_input(module)]; waking up a run loop that hibernates is not part
    of the state described here. *)
Definition for_input (clock : Qc) (module : Mod.t) : M t Z :=
  self ← get;
  sel ← getitem (_reachability self !! Mod.name module);
  (if bool_decide (sel ≠ ∅) then
     match _module_selection self with
     | Some cur =>
         if bool_decide (cur ≠ ∅)
         then modify (with_module_selection (Some (cur ∪ sel)))
         else start_selection clock sel
     | None => start_selection clock sel
     end
   else mret tt);;
  self ← get;
  mret (run_number self + 1).

(** [_module_order(x, y)] on the JSON dicts of two modules, of which it
    reads the entry [order] only. *)
Definition _module_order (x y : gmap string Z) : Z :=
  match x !! "order"%string, y !! "order"%string with
  | Some ox, Some oy => ox - oy
  | Some _, None => 1
  | None, Some _ => -1
  | None, None => 0
  end.
End SchedulerOps.

(** ** What an operation of the scheduler keeps *)
Module SchedulerFrame.
Import BaseScheduler.

(** [s] and [s'] agree on what [f] reads. *)
Definition agree {A} (f : t → A) (s s' : t) : Prop := f s' = f s.

(** The fields that the steps of [_update_modules] hand on to each other. *)
Definition bookkeeping (s : t)
  : option (list string) * list string * bool :=
  (_runorder s, _new_modules_ids s, _slots_updated s).

(** The states and the input slots of the modules. *)
Definition module_states (s : t)
  : gmap string (Z * gmap string (option Slot.t)) :=
  (fun m => (Mod._state m, Mod._input_slots m)) <$> _modules s.
End SchedulerFrame.

(** ** Fan-out lists of the dataflow *)
Module DataflowFan.
Import Dataflow.

(** [outputs[p][o]], when both keys are there. *)
Definition fan_out (outputs : gmap string (gmap string (list Slot)))
           (p o : string) : option (list Slot) :=
  outputs !! p ≫= fun outs => outs !! o.

(** What [_remove_module_inputs] leaves of a fan-out list: the slots of the
    other modules, or no entry when there is none. *)
Definition unplugged (name : string) (fan : list Slot)
  : option (list Slot) :=
  if bool_decide (not_of name fan ≠ []) then Some (not_of name fan)
  else None.
End DataflowFan.

(** * Concrete graphs and schedulers

    The objects on which the properties below are exercised. *)
Module Examples.
(** A module object in state [st] with the input slots [slots], each with
    its required flag. *)
Definition module_with (n : string) (st : Z) (vis : bool)
           (slots : list (string * (option Slot.t * bool))) : Mod.t :=
  Mod.mk n st 0 (list_to_map ((fun p => (p.1, p.2.1)) <$> slots))
         (list_to_map ((fun p => (p.1, {| required := p.2.2 |})) <$> slots))
         0 None false false vis.

(** The same when every input is required and the module shows nothing. *)
Definition module_in (n : string) (st : Z)
           (slots : list (string * option Slot.t)) : Mod.t :=
  module_with n st false ((fun p => (p.1, (p.2, true))) <$> slots).

(** The slot [producer.oname → consumer.iname], empty and never updated. *)
Definition slot_of (producer oname consumer iname : string) : Slot.t :=
  {| Slot.output_module := producer; Slot.output_name := oname;
     Slot.input_module := consumer; Slot.input_name := iname;
     Slot.last_update := 0; Slot.has_buffered := false |}.

(** A scheduler as [BaseScheduler.__init__] leaves it, holding [mods]. *)
Definition scheduler_of (mods : list Mod.t) : BaseScheduler.t :=
  BaseScheduler.mk (list_to_map ((fun m => (Mod.name m, m)) <$> mods))
                   None false None 0 [] false [] None (-1)%Qc 1%Qc ∅ 0%Qc 0
                   None.

(** *** Modules *)

Definition mod_a : Mod.t := module_in "a" Mod.state_blocked [].
Definition mod_b : Mod.t := module_in "b" Mod.state_blocked [].

(** Module objects fresh from their constructor. *)
Definition new_p : Mod.t := module_in "p" Mod.state_created [].
Definition new_c : Mod.t :=
  module_in "c" Mod.state_created [("i"%string, None)].
Definition new_c2 : Mod.t :=
  module_in "c2" Mod.state_created [("i"%string, None)].

(** A stand-in for [Module.__init__]: the module is named by the keyword
    [name], "every_1" by default, and has the input slot [df] unbound. *)
Definition module_init (kwds : gmap string pyval) : exn + Mod.t :=
  let n := match kwds !! "name"%string with
           | Some (PyStr n) => n
           | _ => "every_1"%string
           end in
  inr (module_in n Mod.state_created [("df"%string, None)]).

(** A stand-in for the time predictor: 100 items whatever the duration. *)
Definition module_predict_step_size (m : Mod.t) (duration : Qc) : Z := 100.

(** *** Readiness *)

(** A terminated producer p and its blocked consumer c, whose slot [df] still
    holds buffered deltas. *)
Definition slot_p_c : Slot.t :=
  {| Slot.output_module := "p"; Slot.output_name := "table";
     Slot.input_module := "c"; Slot.input_name := "df";
     Slot.last_update := 0; Slot.has_buffered := true |}.
Definition drained_heap : gmap string Mod.t :=
  {[ "p"%string := module_in "p" Mod.state_terminated [];
     "c"%string := module_in "c" Mod.state_blocked
                             [("df"%string, Some slot_p_c)] ]}.

(** *** Interaction mode *)

(** A scheduler in interaction mode on the selection {a}, started at clock 0
    and with its target time at 10. *)
Definition interacting : BaseScheduler.t :=
  BaseScheduler.with_start (Some 0%Qc)
    (BaseScheduler.with_selection_target_time (Q2Qc 10)
       (BaseScheduler.with_module_selection (Some {["a"%string]})
          (scheduler_of []))).

(** The same scheduler after [set_interaction_opts(max_iter=2)] and two
    cycles of the run list. *)
Definition interacting_twice : BaseScheduler.t :=
  BaseScheduler.with_inter_cycles_cnt 2
    (result_state
       (BaseScheduler.set_interaction_opts None None (Some 2) interacting)).

(** *** Dataflows *)

(** The dataflow of a producer p and two consumers, not yet connected. *)
Definition unwired : Dataflow.t :=
  result_state
    ((Dataflow.add_module new_p;; Dataflow.add_module new_c;;
      Dataflow.add_module new_c2) Dataflow.empty).

(** The same after [add_connection(p, "o", c, "i")]. *)
Definition wired : Dataflow.t :=
  result_state (Dataflow.add_connection new_p "o" new_c "i" unwired).

(** A dataflow in which c was connected to p before p was added. *)
Definition wired_early : Dataflow.t :=
  result_state
    ((Dataflow.add_module new_c;;
      Dataflow.add_connection new_p "o" new_c "i";;
      Dataflow.add_module new_p) Dataflow.empty).

(** *** Graphs of the scheduler *)

(** The chain a → b → c → d, where c is the one visualization module. *)
Definition chain : BaseScheduler.t :=
  scheduler_of [mod_a; mod_b; module_with "c" Mod.state_blocked true [];
                module_in "d" Mod.state_blocked []].
Definition chain_dependencies : gmap string (gset string) :=
  {[ "a"%string := ∅; "b"%string := {["a"%string]};
     "c"%string := {["b"%string]}; "d"%string := {["c"%string]} ]}.

(** The module a alone, which shows nothing. *)
Definition lonely : BaseScheduler.t := scheduler_of [mod_a].

(** Two modules that feed each other: a runs already, b was just added.
    [back_required] says whether the input of a that b feeds is required. *)
Definition loop (back_required : bool) : BaseScheduler.t :=
  BaseScheduler.with_new_modules_ids ["b"%string]
    (BaseScheduler.with_run_list ["a"%string]
       (scheduler_of
          [module_with "a" Mod.state_blocked false
             [("x"%string, (Some (slot_of "b" "o" "a" "x"), back_required))];
           module_with "b" Mod.state_created false
             [("y"%string, (Some (slot_of "a" "o" "b" "y"), true))]])).

(** The same two modules in a dataflow. *)
Definition loop_dataflow : Dataflow.t :=
  let a := module_with "a" Mod.state_created false
             [("x"%string, (None, false))] in
  let b := module_with "b" Mod.state_created false
             [("y"%string, (None, true))] in
  result_state
    ((Dataflow.add_module a;; Dataflow.add_module b;;
      Dataflow.add_connection b "o" a "x";;
      Dataflow.add_connection a "o" b "y") Dataflow.empty).
End Examples.

(** Further objects, for the operations of the second part. *)
Module MoreExamples.
(** A terminated producer p and its blocked consumer c, whose slot [df] has
    been drained. *)
Definition slot_drained : Slot.t :=
  {| Slot.output_module := "p"; Slot.output_name := "table";
     Slot.input_module := "c"; Slot.input_name := "df";
     Slot.last_update := 0; Slot.has_buffered := false |}.
Definition dead_heap : gmap string Mod.t :=
  {[ "p"%string := Examples.module_in "p" Mod.state_terminated [];
     "c"%string := Examples.module_in "c" Mod.state_blocked
                     [("df"%string, Some slot_drained)] ]}.

(** The descriptors of a module with one required and one optional input. *)
Definition two_descriptors : list (string * SlotDescriptor) :=
  [("df"%string, {| required := true |});
   ("_params"%string, {| required := false |})].

(** A scheduler holding the module a, from which a itself is reached. *)
Definition reaching : BaseScheduler.t :=
  BaseScheduler.with_reachability {[ "a"%string := {["a"%string]} ]}
    (Examples.scheduler_of [Examples.mod_a]).
End MoreExamples.

(** * Properties *)

(** Unfolds the operations of the monad [M] down to [Ok] and [Raise]. *)
Ltac unfold_M :=
  unfold getitem, getindex, lift_exn, assert, mbind, mret, fmap, M_bind,
    M_ret, M_fmap, bind, ret, get, put, modify, raise.
Tactic Notation "unfold_M" "in" hyp(H) :=
  unfold getitem, getindex, lift_exn, assert, mbind, mret, fmap, M_bind,
    M_ret, M_fmap, bind, ret, get, put, modify, raise in H.

(** ** What a computation leaves untouched *)
Section Preserves.
Context {S : Type} (P : S → S → Prop) `{!Reflexive P, !Transitive P}.

Lemma preserves_ret {A} (a : A) : preserves P (mret a).
Proof. intros s. reflexivity. Qed.

Lemma preserves_raise {A} (e : exn) : preserves P (raise e : M S A).
Proof. intros s. reflexivity. Qed.

Lemma preserves_get : preserves P get.
Proof. intros s. reflexivity. Qed.

Lemma preserves_getitem {A} (o : option A) : preserves P (getitem o).
Proof. intros s. destruct o; reflexivity. Qed.

Lemma preserves_assert (b : bool) : preserves P (assert b).
Proof. intros s. destruct b; reflexivity. Qed.

Lemma preserves_modify (f : S → S) :
  (∀ s, P s (f s)) → preserves P (modify f).
Proof. intros Hf s. apply Hf. Qed.

Lemma preserves_bind {A B} (m : M S A) (k : A → M S B) :
  preserves P m → (∀ a, preserves P (k a)) → preserves P (m ≫= k).
Proof.
  intros Hm Hk s. unfold mbind, M_bind, bind.
  specialize (Hm s). destruct (m s) as [a s1 | e s1]; cbn in Hm.
  - etrans; [exact Hm | apply Hk].
  - exact Hm.
Qed.

Lemma preserves_for_each {A} (xs : list A) (body : A → M S unit) :
  (∀ x, preserves P (body x)) → preserves P (for_each xs body).
Proof.
  intros Hbody. induction xs as [|x xs IH]; cbn [for_each].
  - apply preserves_ret.
  - apply preserves_bind; [apply Hbody | intros _; apply IH].
Qed.
End Preserves.

(** ** Interaction mode of the scheduler *)
Section InteractionMode.
Import BaseScheduler.

Lemma tenth_nonzero : Q2Qc (1 # 10) ≠ 0%Qc.
Proof. intros H. apply (f_equal this) in H. discriminate H. Qed.

(** In interaction mode [has_input] answers true and changes nothing. *)
Lemma has_input_selected (s : t) (sel : gset string) :
  _module_selection s = Some sel → sel ≠ ∅ → has_input s = Ok true s.
Proof.
  intros Hsel Hne. unfold has_input, mbind, M_bind, bind, get.
  rewrite Hsel. rewrite bool_decide_eq_false_2 by done. reflexivity.
Qed.

Lemma has_input_none (s : t) :
  _module_selection s = None → has_input s = Ok false s.
Proof.
  intros Hsel. unfold has_input, mbind, M_bind, bind, get.
  rewrite Hsel. reflexivity.
Qed.

Lemma has_input_empty (s : t) :
  _module_selection s = Some ∅ →
  has_input s = Ok false (with_selection_target_time (-1)%Qc
                            (with_module_selection None s)).
Proof.
  intros Hsel. unfold has_input, mbind, M_bind, bind, get.
  rewrite Hsel. rewrite bool_decide_eq_true_2 by done. reflexivity.
Qed.
(** C10: [has_input] is not a pure predicate.  On a scheduler whose
    [module_selection] is the empty set it answers [False] and stores [None]
    in [module_selection] and -1 in [selection_target_time]; and whatever the
    state it is called on, it returns, and afterwards [module_selection] is
    [None] or a non-empty set. *)
Theorem has_input_cleans_empty_selection (s : t) :
  (_module_selection s = Some ∅ →
   has_input s = Ok false (with_selection_target_time (-1)%Qc
                             (with_module_selection None s)))
  ∧ ∃ b s', has_input s = Ok b s'
      ∧ (_module_selection s' = None
         ∨ ∃ sel, _module_selection s' = Some sel ∧ sel ≠ ∅).
Proof.
  split; [apply has_input_empty |].
  destruct (_module_selection s) as [sel|] eqn:Hsel.
  - destruct (decide (sel = ∅)) as [->|Hne].
    + eexists _, _. split; [by apply has_input_empty |]. by left.
    + exists true, s. split; [by eapply has_input_selected |].
      right. by exists sel.
  - exists false, s. split; [by apply has_input_none |]. by left.
Qed.

(** The scan of the options in [_proc_interaction_opts], in interaction mode
    with options set. *)
Lemma proc_interaction_opts_unfold (clock : Qc) (s : t) (sel : gset string)
      (opts : _InteractionOpts) :
  _module_selection s = Some sel → sel ≠ ∅ →
  _interaction_opts s = Some opts →
  _proc_interaction_opts clock s =
    if starving_fires opts then exit_interaction s
    else if max_time_fires clock s opts then exit_interaction s
    else match max_iter_set opts with
         | Some mi =>
             if mi <=? _inter_cycles_cnt s then exit_interaction s
             else Ok tt (with_inter_cycles_cnt (_inter_cycles_cnt s + 1) s)
         | None => Ok tt s
         end.
Proof.
  intros Hsel Hne Hopts. unfold _proc_interaction_opts.
  unfold mbind at 1. unfold M_bind, bind.
  rewrite (has_input_selected s sel Hsel Hne). simpl.
  unfold mbind, M_bind, bind, get. rewrite Hopts.
  destruct (starving_fires opts); [done |].
  destruct (max_time_fires clock s opts); [done |].
  destruct (max_iter_set opts) as [mi|]; [| done].
  by destruct (mi <=? _inter_cycles_cnt s).
Qed.

Lemma exit_interaction_eq (s : t) :
  exit_interaction s
  = Ok tt (with_inter_cycles_cnt 0 (with_module_selection None s)).
Proof. reflexivity. Qed.

(** C8: an end-of-run-list pass in interaction mode with interaction options
    set returns, and (1) if the cycle counter was incremented, neither the
    [starving_mods] nor the [max_time] exit condition fired in that pass;
    (2) if [max_iter] is set and the counter has reached it, the scheduler has
    left the interaction mode, [module_selection] being [None] and the counter
    0; (3) the counter is indeed incremented when no exit condition fires and
    [max_iter] is not reached. *)
Theorem proc_interaction_opts_max_iter (clock : Qc) (s : t)
        (sel : gset string) (opts : _InteractionOpts) :
  _module_selection s = Some sel → sel ≠ ∅ →
  _interaction_opts s = Some opts →
  0 ≤ _inter_cycles_cnt s →
  ∃ s', _proc_interaction_opts clock s = Ok tt s'
    ∧ (_inter_cycles_cnt s' = _inter_cycles_cnt s + 1 →
       starving_fires opts = false ∧ max_time_fires clock s opts = false)
    ∧ (∀ mi, max_iter_set opts = Some mi → mi ≤ _inter_cycles_cnt s →
       _module_selection s' = None ∧ _inter_cycles_cnt s' = 0)
    ∧ (∀ mi, max_iter_set opts = Some mi → _inter_cycles_cnt s < mi →
       starving_fires opts = false → max_time_fires clock s opts = false →
       _inter_cycles_cnt s' = _inter_cycles_cnt s + 1
       ∧ _module_selection s' = Some sel).
Proof.
  intros Hsel Hne Hopts Hcnt.
  rewrite (proc_interaction_opts_unfold clock s sel opts Hsel Hne Hopts).
  destruct (starving_fires opts) eqn:Hstarv.
  { rewrite exit_interaction_eq. eexists. split; [done |]. simpl.
    repeat split; intros; try done; lia. }
  destruct (max_time_fires clock s opts) eqn:Htime.
  { rewrite exit_interaction_eq. eexists. split; [done |]. simpl.
    repeat split; intros; try done; lia. }
  destruct (max_iter_set opts) as [mi|] eqn:Hmi.
  - destruct (Z.leb_spec mi (_inter_cycles_cnt s)) as [Hle|Hlt].
    + rewrite exit_interaction_eq. eexists. split; [done |]. simpl.
      repeat split; intros; simplify_eq; try done; lia.
    + eexists. split; [done |]. simpl.
      repeat split; intros; simplify_eq; try done; lia.
  - exists s. split; [done |]. repeat split; intros; try done; lia.
Qed.
End InteractionMode.

(** ** The quantum granted to a module *)
Section Quantum.
Import BaseScheduler.

Lemma in_selection_eq (s : t) (sel : gset string) (name : string) :
  _module_selection s = Some sel →
  in_selection name s = Ok (bool_decide (name ∈ sel)) s.
Proof.
  intros Hsel. unfold in_selection, mbind, M_bind, bind, get.
  by rewrite Hsel.
Qed.

(** In interaction mode [time_left] reads the timer and returns what is left
    until the target time, or 0 when it is past. *)
Lemma time_left_selected (clock : Qc) (s : t) (sel : gset string) :
  _module_selection s = Some sel → sel ≠ ∅ →
  ∃ now s', timer clock s = Ok now s'
    ∧ _module_selection s' = Some sel
    ∧ time_left clock s
      = Ok (if bool_decide (0 < _selection_target_time s - now)%Qc
            then (_selection_target_time s - now)%Qc else 0%Qc) s'.
Proof.
  intros Hsel Hne.
  assert (Htimer : ∃ now s', timer clock s = Ok now s'
                             ∧ _module_selection s' = Some sel).
  { unfold timer, mbind, M_bind, bind, get.
    destruct (_start s); eexists _, _; split; done. }
  destruct Htimer as (now & s' & Htimer & Hsel').
  exists now, s'. split; [done |]. split; [done |].
  unfold time_left. unfold mbind at 1. unfold M_bind, bind, get.
  unfold mbind at 1. unfold M_bind, bind.
  assert (Hnt : (if bool_decide (_selection_target_time s ≤ 0)%Qc
                 then negb <$> has_input else mret false) s = Ok false s).
  { case_bool_decide; [| done].
    unfold fmap, M_fmap, bind. by rewrite (has_input_selected s sel). }
  rewrite Hnt. unfold mbind, M_bind, bind, get. by rewrite Htimer.
Qed.

Lemma selection_len_eq (s : t) (sel : gset string) :
  _module_selection s = Some sel →
  selection_len s = Ok (Z.of_nat (size sel)) s.
Proof.
  intros Hsel. unfold selection_len, mbind, M_bind, bind, get.
  by rewrite Hsel.
Qed.

(** The tail of [fix_quantum]: a quantum of 0 becomes 0.1. *)
Lemma floor_nonzero (q : Qc) :
  (if bool_decide (q = 0%Qc) then Q2Qc (1 # 10) else q) ≠ 0%Qc.
Proof. case_bool_decide; [apply tenth_nonzero | done]. Qed.

(** C7 (amended): [fix_quantum] always returns, and never 0.  In interaction
    mode, for a module whose name is in [module_selection], the quantum is
    [time_left()] divided by the size of the selection, 0.1 standing in when
    that quotient is 0; for a module outside the selection, and outside the
    interaction mode, the given quantum is kept, 0.1 standing in for 0.  The
    scheduler is outside the interaction mode when [module_selection] is
    [None], and also when it is the empty set, which [has_input] then cleans
    up. *)
Theorem fix_quantum_selected_share (clock : Qc) (module : Mod.t)
        (quantum : Qc) (s : t) :
  ∃ q' s', fix_quantum clock module quantum s = Ok q' s'
    ∧ q' ≠ 0%Qc
    ∧ (∀ sel, _module_selection s = Some sel → sel ≠ ∅ →
       (Mod.name module ∈ sel →
        ∃ left, time_left clock s = Ok left s'
          ∧ let share := (left / Q2Qc (inject_Z (Z.of_nat (size sel))))%Qc in
            q' = if bool_decide (share = 0%Qc) then Q2Qc (1 # 10) else share)
       ∧ (Mod.name module ∉ sel →
          s' = s
          ∧ q' = if bool_decide (quantum = 0%Qc) then Q2Qc (1 # 10)
                 else quantum))
    ∧ (_module_selection s = None →
       s' = s
       ∧ q' = if bool_decide (quantum = 0%Qc) then Q2Qc (1 # 10)
              else quantum)
    ∧ (_module_selection s = Some ∅ →
       s' = with_selection_target_time (-1)%Qc
              (with_module_selection None s)
       ∧ q' = if bool_decide (quantum = 0%Qc) then Q2Qc (1 # 10)
              else quantum).
Proof.
  assert (Htail : ∀ (q : Qc) (s' : t),
             ((if bool_decide (q = 0%Qc) then mret (Q2Qc (1 # 10))
               else mret q) : M t Qc) s'
             = Ok (if bool_decide (q = 0%Qc) then Q2Qc (1 # 10) else q) s').
  { intros q s'. by case_bool_decide. }
  unfold fix_quantum.
  unfold mbind at 1. unfold M_bind, bind.
  unfold mbind at 1. unfold M_bind, bind.
  unfold mbind at 1. unfold M_bind, bind.
  destruct (_module_selection s) as [sel|] eqn:Hsel.
  - destruct (decide (sel = ∅)) as [->|Hne].
    + (* the empty selection is cleaned up: not in interaction mode *)
      rewrite (has_input_empty s Hsel). simpl.
      unfold mret at 1. unfold M_ret, ret. rewrite Htail.
      eexists _, _. split; [reflexivity |].
      split; [apply floor_nonzero |]. split; [| split; [done |]].
      * intros sel' [= <-] Hne. done.
      * intros _. split; reflexivity.
    + assert (Hnonempty : Some sel = Some ∅ → False)
        by (intros [= ->]; done).
      rewrite (has_input_selected s sel Hsel Hne).
      rewrite (in_selection_eq s sel _ Hsel).
      case_bool_decide as Hin.
      * destruct (time_left_selected clock s sel Hsel Hne)
          as (now & s' & Htimer & Hsel' & Hleft).
        unfold mbind at 1. unfold M_bind, bind. rewrite Hleft.
        unfold mbind at 1. unfold M_bind, bind.
        rewrite (selection_len_eq s' sel Hsel').
        unfold truediv.
        assert (Hsz : (Z.of_nat (size sel) =? 0) = false).
        { apply Z.eqb_neq. intros Hz.
          apply Hne, leibniz_equiv, size_empty_inv. lia. }
        rewrite Hsz. unfold mret at 1. unfold M_ret, ret. rewrite Htail.
        eexists _, _. split; [reflexivity |].
        split; [apply floor_nonzero |].
        split; [| split; [done | intros Hempty; by destruct Hnonempty]].
        intros sel' [= <-] _. split; [| done].
        intros _. eexists. split; reflexivity.
      * unfold mret at 1. unfold M_ret, ret. rewrite Htail.
        eexists _, _. split; [reflexivity |].
        split; [apply floor_nonzero |].
        split; [| split; [done | intros Hempty; by destruct Hnonempty]].
        intros sel' [= <-] _. split; [done |]. done.
  - rewrite (has_input_none s Hsel). simpl.
    unfold mret at 1. unfold M_ret, ret. rewrite Htail.
    eexists _, _. split; [reflexivity |].
    split; [apply floor_nonzero |]. split; [done |].
    split; [intros _; split; reflexivity | done].
Qed.

(** C7, as claimed, fails: the scheduler is in interaction mode (the selection
    is {a}), [time_left()] divided by the size of the selection is 6, and
    [fix_quantum] gives module b, which is not selected, its own 0.5. *)
Lemma fix_quantum_unselected_keeps_quantum :
  has_input Examples.interacting = Ok true Examples.interacting
  ∧ (left ← time_left (Q2Qc 4); n ← selection_len; truediv left n)
      Examples.interacting
    = Ok (Q2Qc 6) Examples.interacting
  ∧ fix_quantum (Q2Qc 4) Examples.mod_b (Q2Qc (1 # 2)) Examples.interacting
    = Ok (Q2Qc (1 # 2)) Examples.interacting.
Proof. repeat split; vm_compute; reflexivity. Qed.

(** The amended claim at work: module a is selected and receives the whole
    of the 6 seconds left. *)
Lemma fix_quantum_selected_share_witness :
  ∃ q' s', fix_quantum (Q2Qc 4) Examples.mod_a (Q2Qc (1 # 2))
                       Examples.interacting = Ok q' s'
    ∧ q' = Q2Qc 6.
Proof.
  destruct (fix_quantum_selected_share (Q2Qc 4) Examples.mod_a (Q2Qc (1 # 2))
              Examples.interacting) as (q' & s' & Hrun & _ & Hsel & _).
  exists q', s'. split; [exact Hrun |].
  destruct (Hsel {["a"%string]} eq_refl) as [Hin _].
  { apply non_empty_singleton_L. }
  destruct Hin as (left & Hleft & ->).
  { vm_compute. set_solver. }
  vm_compute in Hleft. injection Hleft as <- _.
  vm_compute. reflexivity.
Defined.
End Quantum.

(** ** The step protocol of a module *)
Section StepProtocol.
Import Mod.

(** [_return_run_step] once its assertion on [next_state] holds. *)
Lemma return_run_step_unfold (self : t) (ns sr r u c : Z) :
  state_ready ≤ ns ≤ state_zombie →
  _return_run_step ns sr r u c self =
    let self' := with_steps_acc (steps_acc self + sr) self in
    if negb (c =? 0) && (u =? 0) then
      Ok {| next_state := ns; steps_run := sr; reads := r;
            updates := c; creates := c |} self'
    else if u <? c then Raise ProgressiveError self'
    else Ok {| next_state := ns; steps_run := sr; reads := r;
               updates := u; creates := c |} self'.
Proof.
  intros [Hlo Hhi]. unfold _return_run_step.
  replace ((state_ready <=? ns) && (ns <=? state_zombie)) with true
    by (symmetry; apply andb_true_iff; split; apply Z.leb_le; done).
  unfold assert. unfold_M. simpl.
  destruct (negb (c =? 0) && (u =? 0)); [done |].
  by destruct (u <? c).
Qed.

(** C2: for a step result handed to [_return_run_step] with [next_state]
    among Ready, Blocked and Zombie: when [creates > 0] and [updates == 0]
    the result is returned with [updates] equal to [creates]; when [updates]
    is not 0 and [creates > updates] a [ProgressiveError] is raised and no
    result is returned; every returned result has [creates ≤ updates]; and a
    result with [creates ≤ updates] is returned as it is. *)
Theorem return_run_step_creates_le_updates (self : t) (ns sr r u c : Z) :
  ns = state_ready ∨ ns = state_blocked ∨ ns = state_zombie →
  (0 < c → u = 0 →
   ∃ res self', _return_run_step ns sr r u c self = Ok res self'
     ∧ updates res = c ∧ creates res = c)
  ∧ (u ≠ 0 → u < c →
     _return_run_step ns sr r u c self
     = Raise ProgressiveError (with_steps_acc (steps_acc self + sr) self))
  ∧ (∀ res self', _return_run_step ns sr r u c self = Ok res self' →
     creates res ≤ updates res ∧ creates res = c
     ∧ steps_acc self' = steps_acc self + sr)
  ∧ (0 ≤ c ≤ u →
     ∃ res self', _return_run_step ns sr r u c self = Ok res self'
       ∧ updates res = u ∧ creates res = c).
Proof.
  intros Hns.
  assert (Hrange : state_ready ≤ ns ≤ state_zombie).
  { unfold state_ready, state_blocked, state_zombie in *. lia. }
  rewrite (return_run_step_unfold self ns sr r u c Hrange). simpl.
  destruct (Z.eqb_spec c 0) as [Hc|Hc]; destruct (Z.eqb_spec u 0) as [Hu|Hu];
    simpl; destruct (Z.ltb_spec u c) as [Hlt|Hge];
    repeat split; intros; simplify_eq; simpl in *;
    try lia; try done; try (eexists _, _; split; [reflexivity | done]);
    try (eexists _, _; split; [reflexivity | simpl; split; lia]).
Qed.

(** C2 at work: a Ready step that created 3 items and declared no update. *)
Lemma return_run_step_creates_le_updates_witness :
  ∃ res self',
    _return_run_step state_ready 1 0 0 3 Examples.mod_a = Ok res self'
    ∧ updates res = 3 ∧ creates res = 3.
Proof.
  apply (return_run_step_creates_le_updates Examples.mod_a state_ready
           1 0 0 3 (or_introl eq_refl)); [lia | reflexivity].
Defined.
End StepProtocol.

(** ** Constant-time modules *)
Section ConstantTime.
Variable Module_init : gmap string pyval → exn + Mod.t.
Variable Module_predict_step_size : Mod.t → Qc → Z.

(** [Every.__init__] stores the keyword [constant_time] it is given. *)
Lemma Every_init_constant_time (kw : gmap string pyval) (v : pyval)
      (e : Every.t) :
  kw !! "constant_time"%string = Some v →
  Every.init Module_init kw = inr e →
  Every._constant_time e = v.
Proof.
  unfold Every.init. intros ->. cbn [default].
  unfold mbind, exn_bind, mret, exn_ret.
  destruct (Every._add_slots _ _ _); [done |].
  destruct (Module_init _); intros [= <-]. reflexivity.
Qed.

(** C9: an [Every] module whose [constant_time] is [True] predicts a step
    size of 1 for every duration, whatever the time predictor would say; and
    every module built by [Print.__init__] is such a module. *)
Theorem constant_time_predicts_one (e : Every.t) (duration : Qc) :
  (Every._constant_time e = PyBool true
   ∨ ∃ kwds, Every.Print_init Module_init kwds = inr e) →
  Every.predict_step_size Module_predict_step_size e duration = 1.
Proof.
  intros Hct.
  assert (Every._constant_time e = PyBool true) as Hc.
  { destruct Hct as [Hc | [kwds Hinit]]; [done |].
    unfold Every.Print_init in Hinit.
    destruct (_ || _); [done |].
    eapply Every_init_constant_time; [| exact Hinit].
    rewrite lookup_insert_ne by done. apply lookup_insert_eq. }
  unfold Every.predict_step_size. by rewrite Hc.
Qed.
End ConstantTime.

(** C9 at work: [Print()] is built, with [constant_time] set, and predicts 1
    although the predictor says 100. *)
Lemma constant_time_predicts_one_witness :
  ∃ e, Every.Print_init Examples.module_init ∅ = inr e
    ∧ Examples.module_predict_step_size (Every.base e) (Q2Qc 5) = 100
    ∧ Every.predict_step_size Examples.module_predict_step_size e (Q2Qc 5)
      = 1.
Proof.
  eexists. split; [vm_compute; reflexivity |]. split; [reflexivity |].
  apply (constant_time_predicts_one Examples.module_init).
  right. exists ∅. vm_compute. reflexivity.
Defined.

(** ** Readiness of a module *)
Section IsReady.
Import Mod Readiness.

Lemma has_any_input_bound (m : t) :
  has_any_input m = negb (bool_decide (bound_slots m = [])).
Proof.
  unfold has_any_input, bound_slots.
  induction (input_slot_values m) as [|[slot|] slots IH]; simpl; done.
Qed.

(** The loop of [is_ready] counts the bound slots, the ready ones among them
    and, among the others, those whose producer is gone. *)
Lemma scan_slots_counts (heap : gmap string t) (slots : list (option Slot.t))
      (c : counts) :
  (∀ slot, slot ∈ omap id slots →
           is_Some (heap !! Slot.output_module slot)) →
  scan_slots heap slots c =
    let bound := omap id slots in
    Some {| in_count := in_count c + Z.of_nat (length bound);
            term_count :=
              term_count c
              + Z.of_nat (length (List.filter (slot_dead heap) bound));
            ready_count :=
              ready_count c
              + Z.of_nat (length (List.filter (slot_ready heap) bound)) |}.
Proof.
  revert c. induction slots as [|[slot|] slots IH]; intros c Hclosed.
  - destruct c. simpl. do 2 f_equal; lia.
  - assert (Hp : is_Some (heap !! Slot.output_module slot)).
    { apply Hclosed. simpl. left. }
    destruct Hp as [producer Hp].
    assert (Hrest : ∀ slot', slot' ∈ omap id slots →
                             is_Some (heap !! Slot.output_module slot')).
    { intros slot' Hin. apply Hclosed. simpl. by right. }
    assert (Hr : slot_ready heap slot
                 = Slot.has_buffered slot
                   || (Slot.last_update slot <? last_update producer)).
    { unfold slot_ready. by rewrite Hp. }
    assert (Hd : slot_dead heap slot
                 = negb (slot_ready heap slot)
                   && (is_terminated producer
                       || (state producer =? state_invalid))).
    { unfold slot_dead, producer_gone. by rewrite Hp. }
    change (omap id (Some slot :: slots)) with (slot :: omap id slots).
    cbn [scan_slots]. rewrite Hp. cbn [mbind option_bind].
    cbn zeta. cbn [List.filter length]. rewrite Hd, Hr.
    destruct (Slot.has_buffered slot
              || (Slot.last_update slot <? last_update producer)); cbn [negb andb].
    + rewrite (IH _ Hrest). cbn. do 2 f_equal; lia.
    + destruct (is_terminated producer || (state producer =? state_invalid));
        rewrite (IH _ Hrest); cbn; do 2 f_equal; lia.
  - apply IH. exact Hclosed.
Qed.

(** C1 (amended): the default [is_ready].  A Zombie module becomes Terminated
    and is not ready; a Terminated or Invalid module is not ready; otherwise
    a module without bound input slot is ready; otherwise a Ready module is
    ready; otherwise, for a Blocked module, with [term_count] the number of
    bound input slots that have nothing to deliver (no buffered deltas and a
    producer whose [last_update] does not exceed the slot's) and whose
    producer is Terminated or Invalid: if the module is not an input module
    and [term_count] equals the number of bound inputs, it becomes Zombie and
    is not ready; else it is ready iff some bound input slot has buffered
    deltas or a producer whose [last_update] exceeds the slot's. *)
Theorem is_ready_counts_stale_producers (heap : gmap string t) (self : string)
        (m : t) :
  heap !! self = Some m →
  (∀ slot, slot ∈ bound_slots m →
           is_Some (heap !! Slot.output_module slot)) →
  let bound := bound_slots m in
  let ready_count := length (List.filter (slot_ready heap) bound) in
  let term_count := length (List.filter (slot_dead heap) bound) in
  (state m = state_zombie →
   is_ready heap self
   = Some (false, <[self := with_state state_terminated m]> heap))
  ∧ (state m = state_terminated ∨ state m = state_invalid →
     is_ready heap self = Some (false, heap))
  ∧ (state m ≠ state_zombie → state m ≠ state_terminated →
     state m ≠ state_invalid → bound = [] →
     is_ready heap self = Some (true, heap))
  ∧ (state m = state_ready → is_ready heap self = Some (true, heap))
  ∧ (state m = state_blocked → bound ≠ [] →
     (is_input m = false → term_count = length bound →
      is_ready heap self
      = Some (false, <[self := with_state state_zombie m]> heap))
     ∧ (is_input m = true ∨ term_count ≠ length bound →
        is_ready heap self
        = Some (bool_decide (0 < ready_count)%nat, heap))).
Proof.
  intros Hself Hclosed bound ready_count term_count.
  unfold is_ready. rewrite Hself. simpl.
  rewrite has_any_input_bound. fold bound.
  unfold state_zombie, state_terminated, state_invalid, state_ready,
    state_blocked in *.
  split; [| split; [| split; [| split; [| intros -> Hb; split]]]].
  - intros ->. reflexivity.
  - intros [-> | ->]; reflexivity.
  - intros Hz Ht Hi Hb.
    rewrite <- Z.eqb_neq in Hz, Ht, Hi. rewrite Hz, Ht, Hi.
    by rewrite bool_decide_eq_true_2.
  - intros ->. simpl. by destruct (bool_decide (bound = [])).
  - intros Hinput Hterm. simpl.
    rewrite bool_decide_eq_false_2 by done. simpl.
    rewrite (scan_slots_counts heap _ _ Hclosed). simpl.
    fold (bound_slots m). fold bound. fold term_count. rewrite Hinput, Hterm.
    simpl. rewrite !Z.add_0_l.
    assert (Hlen : length bound ≠ 0%nat) by (by destruct bound).
    replace (Z.of_nat (length bound) =? 0) with false
      by (symmetry; apply Z.eqb_neq; lia).
    by rewrite Z.eqb_refl.
  - intros Hcase. simpl.
    rewrite bool_decide_eq_false_2 by done. simpl.
    rewrite (scan_slots_counts heap _ _ Hclosed). simpl.
    fold (bound_slots m). fold bound. fold term_count. fold ready_count.
    rewrite !Z.add_0_l.
    assert (Hlen : length bound ≠ 0%nat) by (by destruct bound).
    replace (Z.of_nat (length bound) =? 0) with false
      by (symmetry; apply Z.eqb_neq; lia).
    assert (Hnot : negb (is_input m) && negb false
                   && (Z.of_nat term_count =? Z.of_nat (length bound))
                   = false).
    { destruct Hcase as [-> | Hne]; [done |].
      replace (Z.of_nat term_count =? Z.of_nat (length bound)) with false
        by (symmetry; apply Z.eqb_neq; lia).
      by destruct (is_input m). }
    rewrite Hnot. simpl. do 2 f_equal.
    case_bool_decide as Hpos.
    + apply negb_true_iff, Z.eqb_neq. lia.
    + apply negb_false_iff, Z.eqb_eq. lia.
Qed.

(** C1, as claimed, fails: c is Blocked and not an input module, its one
    bound input comes from the Terminated producer p, so the bound inputs
    and the inputs with a Terminated producer are both 1; the specification
    turns c into a Zombie, while the code finds buffered deltas on the slot,
    leaves c Blocked and answers that it is ready. *)
Lemma is_ready_drains_buffered_slot :
  (m ← Examples.drained_heap !! "c"%string;
   Some (state m, is_input m, length (bound_slots m),
         length (List.filter (producer_gone Examples.drained_heap)
                             (bound_slots m))))
  = Some (state_blocked, false, 1%nat, 1%nat)
  ∧ is_ready Examples.drained_heap "c" = Some (true, Examples.drained_heap)
  ∧ is_ready_spec Examples.drained_heap "c"
    = Some (false,
            <["c"%string :=
                Examples.module_in "c" state_zombie
                  [("df"%string, Some Examples.slot_p_c)]]>
              Examples.drained_heap).
Proof. repeat split; vm_compute; reflexivity. Qed.

(** C1 (amended) at work: once the slot of c is drained, c turns Zombie. *)
Lemma is_ready_counts_stale_producers_witness :
  let slot := {| Slot.output_module := "p"; Slot.output_name := "table";
                 Slot.input_module := "c"; Slot.input_name := "df";
                 Slot.last_update := 0; Slot.has_buffered := false |} in
  let c := Examples.module_in "c" state_blocked [("df"%string, Some slot)] in
  let heap := <["c"%string := c]> Examples.drained_heap in
  is_ready heap "c" = Some (false, <["c"%string := with_state state_zombie c]> heap).
Proof.
  intros slot c heap.
  assert (Hself : heap !! "c"%string = Some c) by apply lookup_insert_eq.
  assert (Hclosed : ∀ s, s ∈ bound_slots c →
                         is_Some (heap !! Slot.output_module s)).
  { intros s Hs. vm_compute in Hs. apply list_elem_of_singleton in Hs.
    subst s. by eexists. }
  destruct (is_ready_counts_stale_producers heap "c" c Hself Hclosed)
    as (_ & _ & _ & _ & Hblocked).
  apply Hblocked; [reflexivity | done | reflexivity | reflexivity].
Defined.
End IsReady.

(** ** Witnesses for the interaction mode *)
Section InteractionModeWitnesses.
Import BaseScheduler.

(** C8 at work: [max_iter] is 2 and two cycles were counted. *)
Lemma proc_interaction_opts_max_iter_witness :
  ∃ s', _proc_interaction_opts (Q2Qc 4) Examples.interacting_twice = Ok tt s'
    ∧ _module_selection s' = None ∧ _inter_cycles_cnt s' = 0.
Proof.
  destruct (proc_interaction_opts_max_iter (Q2Qc 4) Examples.interacting_twice
              {["a"%string]}
              {| starving_mods := None; max_time := None;
                 max_iter := Some 2 |})
    as (s' & Hrun & _ & Hmax & _).
  - reflexivity.
  - apply non_empty_singleton_L.
  - reflexivity.
  - vm_compute. discriminate.
  - exists s'. split; [exact Hrun |]. apply (Hmax 2); [reflexivity |].
    vm_compute. discriminate.
Defined.

(** C10 at work: a scheduler left with an empty selection. *)
Lemma has_input_cleans_empty_selection_witness :
  let s := with_module_selection (Some ∅) Examples.interacting in
  has_input s = Ok false (with_selection_target_time (-1)%Qc
                            (with_module_selection None s)).
Proof.
  intros s.
  apply (proj1 (has_input_cleans_empty_selection s)). reflexivity.
Defined.
End InteractionModeWitnesses.

(** ** The dataflow graph *)
Section DataflowGraph.
Import Dataflow.

(** The example dataflows are built without error. *)
Lemma examples_built :
  raised ((add_module Examples.new_p;; add_module Examples.new_c;;
           add_module Examples.new_c2;;
           add_connection Examples.new_p "o" Examples.new_c "i") empty)
  = None
  ∧ raised ((add_module Examples.new_c;;
             add_connection Examples.new_p "o" Examples.new_c "i";;
             add_module Examples.new_p) empty)
    = None.
Proof. split; vm_compute; reflexivity. Qed.

(** X1: [add_connection] on an output that has no fan-out list yet: the
    forward binding and a one-element fan-out list are recorded. *)
Lemma add_connection_fresh_output (df : t) (p c : Mod.t) (oname iname : string)
      (ins : gmap string Slot) :
  _inputs df !! Mod.name c = Some ins → ins !! iname = None →
  (∀ outs, _outputs df !! Mod.name p = Some outs → outs !! oname = None) →
  ∃ df', add_connection p oname c iname df = Ok tt df'
    ∧ _inputs df' !! Mod.name c
      = Some (<[iname := mkSlot (Mod.name p) oname]> ins)
    ∧ ∃ outs', _outputs df' !! Mod.name p = Some outs'
        ∧ outs' !! oname = Some [mkSlot (Mod.name c) iname].
Proof.
  intros Hins Hfree Hout. unfold add_connection.
  unfold_M. rewrite Hins. simpl.
  unfold assert. rewrite bool_decide_eq_true_2 by done. unfold_M. simpl.
  destruct (_outputs df !! Mod.name p) as [outs|] eqn:Houts.
  - rewrite (Hout outs eq_refl). eexists. split; [reflexivity |]. simpl.
    split; [apply lookup_insert_eq |].
    eexists. split; [apply lookup_insert_eq | apply lookup_insert_eq].
  - eexists. split; [reflexivity |]. simpl.
    split; [apply lookup_insert_eq |].
    eexists. split; [apply lookup_insert_eq | apply lookup_singleton_eq].
Qed.

(** The first connection on the output o of p records both directions. *)
Lemma add_connection_fresh_output_witness :
  ∃ df', add_connection Examples.new_p "o" Examples.new_c "i"
                        Examples.unwired = Ok tt df'
    ∧ _inputs df' !! "c"%string = Some (<["i"%string := mkSlot "p" "o"]> ∅)
    ∧ ∃ outs', _outputs df' !! "p"%string = Some outs'
        ∧ outs' !! "o"%string = Some [mkSlot "c" "i"].
Proof.
  apply (add_connection_fresh_output Examples.unwired Examples.new_p
           Examples.new_c "o" "i" ∅).
  - vm_compute. reflexivity.
  - reflexivity.
  - intros outs Houts. vm_compute in Houts. injection Houts as <-.
    reflexivity.
Defined.

(** [add_connection] on an output that already has a fan-out list raises
    [AttributeError], after the forward binding was recorded; the fan-out
    list is left as it was. *)
Lemma add_connection_fan_out_raises (df : t) (p c : Mod.t)
      (oname iname : string) (ins : gmap string Slot)
      (outs : gmap string (list Slot)) (fan_out : list Slot) :
  _inputs df !! Mod.name c = Some ins → ins !! iname = None →
  _outputs df !! Mod.name p = Some outs → outs !! oname = Some fan_out →
  add_connection p oname c iname df
  = Raise AttributeError
      (with_inputs
         <[Mod.name c := <[iname := mkSlot (Mod.name p) oname]> ins]> df).
Proof.
  intros Hins Hfree Houts Hfan. unfold add_connection.
  unfold_M. rewrite Hins. simpl.
  unfold assert. rewrite bool_decide_eq_true_2 by done. unfold_M. simpl.
  rewrite Houts, Hfan. reflexivity.
Qed.

(** C5, where the code departs from it: in the dataflow where output o of p
    already feeds c, [add_connection(p, "o", c2, "i")] with [i] unbound on c2
    raises [AttributeError]; the forward binding of c2 is recorded and the
    fan-out list of p.o still holds c alone. *)
Theorem add_connection_second_consumer_raises :
  (ins ← _inputs Examples.wired !! "c2"%string; Some (ins !! "i"%string))
  = Some None
  ∧ raised (add_connection Examples.new_p "o" Examples.new_c2 "i"
                           Examples.wired)
    = Some AttributeError
  ∧ let df' := result_state
                 (add_connection Examples.new_p "o" Examples.new_c2 "i"
                                 Examples.wired) in
    _inputs df' !! "c2"%string = Some {["i"%string := mkSlot "p" "o"]}
    ∧ _outputs df' !! "p"%string = Some {["o"%string := [mkSlot "c" "i"]]}.
Proof. repeat split; vm_compute; reflexivity. Qed.

(** C4, where the code departs from it.  Removing the producer p from the
    dataflow p.o → c.i stops on the assertion of [_remove_module_outputs]:
    p has left [_modules] and [_inputs] but not [_outputs], and the input i
    of c still refers to p.  In the dataflow where c was connected before p
    was added, [remove_module(p)] returns, p is a Zombie and its entries are
    deleted, and the input i of c still refers to p. *)
Theorem remove_module_leaves_consumer_wired :
  (raised (remove_module (inr Examples.new_p) Examples.wired)
   = Some AssertionError
   ∧ let df' := result_state
                  (remove_module (inr Examples.new_p) Examples.wired) in
     _modules df' !! "p"%string = None
     ∧ _inputs df' !! "p"%string = None
     ∧ _outputs df' !! "p"%string = Some {["o"%string := [mkSlot "c" "i"]]}
     ∧ _inputs df' !! "c"%string = Some {["i"%string := mkSlot "p" "o"]})
  ∧ (Mod.state <$> returned (remove_module (inr Examples.new_p)
                                           Examples.wired_early)
     = Some Mod.state_zombie
     ∧ let df' := result_state
                    (remove_module (inr Examples.new_p)
                                   Examples.wired_early) in
       _modules df' !! "p"%string = None
       ∧ _inputs df' !! "p"%string = None
       ∧ _outputs df' !! "p"%string = None
       ∧ _inputs df' !! "c"%string = Some {["i"%string := mkSlot "p" "o"]}).
Proof. repeat split; vm_compute; reflexivity. Qed.

(** Removing a consumer works: c leaves the dataflow, and the fan-out list of
    p.o, left empty, is deleted. *)
Lemma remove_module_consumer :
  Mod.state <$> returned (remove_module (inl "c"%string) Examples.wired)
  = Some Mod.state_zombie
  ∧ let df' := result_state
                 (remove_module (inl "c"%string) Examples.wired) in
    _modules df' !! "c"%string = None
    ∧ _inputs df' !! "c"%string = None
    ∧ _outputs df' !! "c"%string = None
    ∧ _outputs df' !! "p"%string = Some ∅.
Proof. repeat split; vm_compute; reflexivity. Qed.

(** *** No consumer is ever unwired *)

#[local] Instance same_inputs_but_refl (name : string) :
  Reflexive (same_inputs_but name).
Proof. intros d other _. reflexivity. Qed.

#[local] Instance same_inputs_but_trans (name : string) :
  Transitive (same_inputs_but name).
Proof.
  intros d1 d2 d3 H12 H23 other Hne. by rewrite (H23 other), (H12 other).
Qed.

(** The steps of a frame proof for [same_inputs_but]. *)
Local Ltac frame_bind := apply (preserves_bind (same_inputs_but _)).
Local Ltac frame_get := apply (preserves_get (same_inputs_but _)).
Local Ltac frame_getitem := apply (preserves_getitem (same_inputs_but _)).
Local Ltac frame_assert := apply (preserves_assert (same_inputs_but _)).
Local Ltac frame_modify := apply (preserves_modify (same_inputs_but _)).
Local Ltac frame_for_each := apply (preserves_for_each (same_inputs_but _)).
Local Ltac frame_ret := apply (preserves_ret (same_inputs_but _)).

Lemma remove_module_inputs_frame (name : string) :
  preserves (same_inputs_but name) (_remove_module_inputs name).
Proof.
  unfold _remove_module_inputs.
  frame_bind; [frame_get | intros self].
  frame_bind; [frame_getitem | intros module_slots].
  frame_bind.
  - frame_for_each. intros slot.
    frame_bind; [frame_get | intros self'].
    frame_bind; [frame_getitem | intros outs].
    frame_bind; [frame_getitem | intros slots].
    case_bool_decide; frame_modify; intros d other _; done.
  - intros _ d. unfold delitem. unfold_M.
    destruct (_inputs d !! name); cbn; [| reflexivity].
    intros other Hne. cbn. by rewrite lookup_delete_ne.
Qed.

Lemma remove_module_outputs_frame (name : string) :
  preserves (same_inputs_but name) (_remove_module_outputs name).
Proof.
  unfold _remove_module_outputs.
  frame_bind; [frame_get | intros self].
  frame_bind; [frame_getitem | intros module_slots].
  frame_bind.
  - frame_for_each. intros sname.
    frame_bind; [frame_get | intros self'].
    frame_bind; [frame_getitem | intros module_slots'].
    frame_bind; [frame_getitem | intros slots].
    frame_bind; [frame_assert | intros _].
    case_bool_decide; frame_modify; intros d other _; done.
  - intros _ d. unfold delitem. unfold_M.
    destruct (_outputs d !! name); cbn; intros other _; done.
Qed.

(** Whatever the dataflow, and whether it returns or raises,
    [remove_module(m)] leaves the input map of every module other than [m]
    as it was: a consumer wired to [m] stays wired to it. *)
Lemma remove_module_keeps_consumers_wired (df : t) (m : Mod.t)
      (consumer : string) :
  consumer ≠ Mod.name m →
  _inputs (result_state (remove_module (inr m) df)) !! consumer
  = _inputs df !! consumer.
Proof.
  intros Hne. unfold remove_module.
  assert (Hterm : Mod.terminate m
                  = Ok tt (Mod.with_state Mod.state_zombie m))
    by reflexivity.
  unfold mbind at 1. unfold M_bind, bind. unfold mret at 1.
  unfold M_ret, ret.
  unfold mbind at 1. unfold M_bind, bind. unfold on_module. rewrite Hterm.
  unfold mret at 1. unfold M_ret, ret.
  change (Mod.name (Mod.with_state Mod.state_zombie m)) with (Mod.name m).
  assert (Hrest : preserves (same_inputs_but (Mod.name m))
            (self ← get;
             mods ← delitem (Mod.name m) (_modules self);
             modify (with_modules (fun _ => mods));;
             _remove_module_inputs (Mod.name m);;
             _remove_module_outputs (Mod.name m);;
             mret (Mod.with_state Mod.state_zombie m))).
  { frame_bind; [frame_get | intros self].
    frame_bind.
    { unfold delitem. frame_bind; [frame_getitem |].
      intros _. frame_ret. }
    intros mods.
    frame_bind;
      [frame_modify; intros d other _; done | intros _].
    frame_bind; [apply remove_module_inputs_frame | intros _].
    frame_bind; [apply remove_module_outputs_frame | intros _].
    frame_ret. }
  by apply (Hrest df consumer).
Qed.
End DataflowGraph.

(** ** Breadth-first distances *)
Section ShortestPath.
Import Csgraph.
Local Open Scope nat_scope.

Lemma elem_of_successors (mat : csr_matrix) (w : gset nat) (j : nat) :
  j ∈ successors mat w ↔ ∃ x, x ∈ w ∧ (x, j) ∈ mat.
Proof.
  unfold successors. rewrite elem_of_list_to_set, list_elem_of_fmap.
  split.
  - intros ([x j'] & -> & Hin). apply list_elem_of_filter in Hin.
    destruct Hin as [Hx Hin]. exists x. split; done.
  - intros (x & Hx & Hin). exists (x, j). split; [done |].
    apply list_elem_of_filter. split; done.
Qed.

Lemma within_S (mat : csr_matrix) (n i j : nat) :
  j ∈ within mat (S n) i
  ↔ j ∈ within mat n i ∨ ∃ x, x ∈ within mat n i ∧ (x, j) ∈ mat.
Proof. cbn [within]. rewrite elem_of_union, elem_of_successors. done. Qed.

Lemma within_mono (mat : csr_matrix) (n m i : nat) :
  n ≤ m → within mat n i ⊆ within mat m i.
Proof.
  induction 1 as [|m Hle IH]; [done |].
  intros j Hj. apply within_S. left. by apply IH.
Qed.

Lemma within_self (mat : csr_matrix) (n i : nat) : i ∈ within mat n i.
Proof. apply (within_mono mat 0 n i); [lia |]. cbn. set_solver. Qed.

(** Paths compose. *)
Lemma within_trans (mat : csr_matrix) (n m i j l : nat) :
  j ∈ within mat n i → l ∈ within mat m j → l ∈ within mat (n + m) i.
Proof.
  intros Hj. revert l. induction m as [|m IH]; intros l Hl.
  - cbn in Hl. apply elem_of_singleton in Hl. subst l.
    by rewrite Nat.add_0_r.
  - rewrite Nat.add_succ_r. apply within_S.
    apply within_S in Hl. destruct Hl as [Hl | (x & Hx & Hedge)].
    + left. by apply IH.
    + right. exists x. split; [by apply IH | done].
Qed.

(** Once a level adds nothing, no later level does. *)
Lemma within_stable (mat : csr_matrix) (n i : nat) :
  within mat (S n) i = within mat n i →
  ∀ m, n ≤ m → within mat m i = within mat n i.
Proof.
  intros Hstable m Hle. induction Hle as [|m Hle IH]; [done |].
  cbn [within]. rewrite IH. exact Hstable.
Qed.

Section Bounded.
Variable vertices : nat.
Variable mat : csr_matrix.
Hypothesis mat_range : ∀ r c, (r, c) ∈ mat → c < vertices.

Lemma within_range (n i : nat) :
  i < vertices → within mat n i ⊆ set_seq 0 vertices.
Proof.
  intros Hi. induction n as [|n IH]; intros j Hj.
  - cbn in Hj. apply elem_of_singleton in Hj. subst j.
    apply elem_of_set_seq. lia.
  - apply within_S in Hj. destruct Hj as [Hj | (x & _ & Hedge)].
    + by apply IH.
    + apply elem_of_set_seq. specialize (mat_range _ _ Hedge). lia.
Qed.

(** Either the levels have stopped growing, or level [n] holds more than [n]
    vertices. *)
Lemma within_grows (n i : nat) :
  (∃ m, m ≤ n ∧ within mat (S m) i = within mat m i)
  ∨ n < size (within mat n i).
Proof.
  induction n as [|n [IH | IH]].
  - right. cbn. rewrite size_singleton. lia.
  - left. destruct IH as (m & Hm & Hst). exists m. split; [lia | done].
  - destruct (decide (within mat (S n) i = within mat n i)) as [Hst | Hne].
    + left. exists n. split; [lia | done].
    + right.
      assert (within mat n i ⊂ within mat (S n) i) as Hsub.
      { split; [apply within_mono; lia |].
        intros Hback. apply Hne. apply set_eq. intros j. split.
        - apply Hback.
        - apply within_mono. lia. }
      apply subset_size in Hsub. lia.
Qed.

(** Every reachable vertex is reached within [vertices - 1] steps. *)
Lemma within_saturates (n i : nat) :
  i < vertices → within mat n i ⊆ within mat (vertices - 1) i.
Proof.
  intros Hi.
  destruct (within_grows (vertices - 1) i) as [(m & Hm & Hst) | Hfull].
  - destruct (Nat.le_ge_cases n m) as [Hnm | Hmn].
    + etrans; [apply (within_mono mat n m i Hnm) |].
      by apply within_mono.
    + rewrite (within_stable mat m i Hst n Hmn). by apply within_mono.
  - assert (within mat (vertices - 1) i = set_seq 0 vertices) as ->.
    { apply set_subseteq_size_eq; [by apply within_range |].
      rewrite size_set_seq. lia. }
    by apply within_range.
Qed.
End Bounded.

(** [dist[i, j]] is neither 0 nor infinite iff [j] is another vertex to which
    a path of fewer than [size] edges leads. *)
Lemma reached_shortest_path (size : nat) (mat : csr_matrix) (i j : nat) :
  BaseScheduler.reached (shortest_path size mat i j) = true
  ↔ j ≠ i ∧ ∃ n, n < size ∧ j ∈ within mat n i.
Proof.
  unfold shortest_path. destruct size as [|sz].
  - cbn. split; [done |]. intros (_ & n & Hn & _). lia.
  - cbn [seq List.find]. cbn [within].
    case_bool_decide as Hji.
    + apply elem_of_singleton in Hji. subst j. cbn. split; [done |].
      intros [Hne _]. done.
    + assert (j ≠ i) as Hne by set_solver.
      destruct (List.find _ (seq 1 sz)) as [n|] eqn:Hfind.
      * apply find_some in Hfind. destruct Hfind as [Hin Hn].
        apply in_seq in Hin. apply bool_decide_eq_true in Hn.
        destruct n as [|n]; [lia |]. cbn. split; [| done].
        intros _. split; [done |]. exists (S n). split; [lia | done].
      * cbn. split; [done |]. intros (_ & n & Hn & Hj).
        destruct n as [|n].
        { cbn in Hj. set_solver. }
        assert (In (S n) (seq 1 sz)) as Hin by (apply in_seq; lia).
        apply (find_none _ _ Hfind) in Hin.
        apply bool_decide_eq_false in Hin. done.
Qed.
End ShortestPath.

(** ** The reachability map *)
Section Reachability.
Import BaseScheduler Descendants.
Local Open Scope nat_scope.

(** [index] maps each key to its position in [k]. *)
Lemma index_of_lookup (k : list string) (v : string) (i : nat) :
  NoDup k → index_of k !! v = Some i ↔ k !! i = Some v.
Proof.
  intros Hnd. unfold index_of.
  assert (Hfst : (zip k (seq 0 (length k))).*1 = k).
  { apply fst_zip. rewrite length_seq. lia. }
  rewrite <- elem_of_list_to_map by (by rewrite Hfst).
  rewrite list_elem_of_lookup. split.
  - intros (n & Hn). apply lookup_zip_with_Some in Hn.
    destruct Hn as (v' & i' & [= -> ->] & Hv & Hi).
    apply lookup_seq in Hi. destruct Hi as [-> _]. done.
  - intros Hv. exists i. apply lookup_zip_with_Some.
    exists v, i. split; [done |]. split; [done |].
    apply lookup_seq. split; [done |]. by eapply lookup_lt_Some.
Qed.

(** The entries written for one vertex: one per producer, when every
    producer has an index. *)
Lemma vertex_entries_Ok (index : gmap string nat) (vertex1 : string)
      (vertices : list string) (s s' : t) (es : Csgraph.csr_matrix) :
  vertex_entries index vertex1 vertices s = Ok es s' →
  s' = s
  ∧ (∀ r c, (r, c) ∈ es →
            index !! vertex1 = Some c
            ∧ ∃ vertex2, vertex2 ∈ vertices ∧ index !! vertex2 = Some r)
  ∧ (∀ vertex2, vertex2 ∈ vertices →
                ∃ r c, index !! vertex1 = Some c ∧ index !! vertex2 = Some r
                       ∧ (r, c) ∈ es).
Proof.
  revert es s'. induction vertices as [|vertex2 rest IH]; intros es s' Hrun.
  - injection Hrun as <- <-. split; [done |]. split.
    + intros r c Hin. by apply elem_of_nil in Hin.
    + intros v Hin. by apply elem_of_nil in Hin.
  - cbn [vertex_entries] in Hrun. unfold_M in Hrun.
    destruct (index !! vertex1) as [c|] eqn:Hc; [| done].
    destruct (index !! vertex2) as [r|] eqn:Hr; [| done].
    destruct (vertex_entries index vertex1 rest s) as [es0 s0|] eqn:Hrest;
      [| done].
    injection Hrun as <- <-.
    destruct (IH es0 s0 eq_refl) as (-> & Hsound & Hcomplete).
    split; [done |]. split.
    + intros r' c' Hin. apply elem_of_cons in Hin.
      destruct Hin as [[= -> ->] | Hin].
      * split; [done |]. exists vertex2. split; [left | done].
      * destruct (Hsound _ _ Hin) as (Hc' & v & Hv & Hr').
        split; [done |]. exists v. split; [by right | done].
    + intros v Hin. apply elem_of_cons in Hin. destruct Hin as [-> | Hin].
      * exists r, c. repeat split; try done. left.
      * destruct (Hcomplete v Hin) as (r' & c' & Hc' & Hr' & Hin').
        exists r', c'. repeat split; try done. by right.
Qed.

(** The matrix has exactly one entry (index of producer, index of consumer)
    per dependency. *)
Lemma matrix_entries_Ok (index : gmap string nat)
      (items : list (string * gset string)) (s s' : t)
      (mat : Csgraph.csr_matrix) :
  matrix_entries index items s = Ok mat s' →
  s' = s
  ∧ (∀ r c, (r, c) ∈ mat →
            ∃ vertex1 vertices vertex2,
              (vertex1, vertices) ∈ items ∧ vertex2 ∈ vertices
              ∧ index !! vertex1 = Some c ∧ index !! vertex2 = Some r)
  ∧ (∀ vertex1 vertices vertex2,
       (vertex1, vertices) ∈ items → vertex2 ∈ vertices →
       ∃ r c, index !! vertex1 = Some c ∧ index !! vertex2 = Some r
              ∧ (r, c) ∈ mat).
Proof.
  revert mat s'. induction items as [|[vertex1 vertices] rest IH];
    intros mat s' Hrun.
  - injection Hrun as <- <-. split; [done |]. split.
    + intros r c Hin. by apply elem_of_nil in Hin.
    + intros v1 vs v2 Hin. by apply elem_of_nil in Hin.
  - cbn [matrix_entries] in Hrun. unfold mbind, M_bind, bind in Hrun.
    destruct (vertex_entries index vertex1 (elements vertices) s)
      as [es s0|] eqn:Hes; [| done].
    destruct (vertex_entries_Ok _ _ _ _ _ _ Hes) as (-> & Hs1 & Hc1).
    destruct (matrix_entries index rest s) as [es' s1|] eqn:Hrest; [| done].
    injection Hrun as <- <-.
    destruct (IH es' s1 eq_refl) as (-> & Hs2 & Hc2).
    split; [done |]. split.
    + intros r c Hin. apply elem_of_app in Hin. destruct Hin as [Hin | Hin].
      * destruct (Hs1 _ _ Hin) as (Hc & v2 & Hv2 & Hr).
        exists vertex1, vertices, v2. split; [left |].
        split; [by apply elem_of_elements |]. done.
      * destruct (Hs2 _ _ Hin) as (v1 & vs & v2 & Hitem & Hrest').
        exists v1, vs, v2. split; [by right | done].
    + intros v1 vs v2 Hitem Hv2. apply elem_of_cons in Hitem.
      destruct Hitem as [[= -> ->] | Hitem].
      * destruct (Hc1 v2) as (r & c & Hc & Hr & Hin);
          [by apply elem_of_elements |].
        exists r, c. repeat split; try done. apply elem_of_app. by left.
      * destruct (Hc2 v1 vs v2 Hitem Hv2) as (r & c & Hc & Hr & Hin).
        exists r, c. repeat split; try done. apply elem_of_app. by right.
Qed.
(** The row set holds the vertex itself and the vertices at a finite,
    non-zero distance. *)
Lemma elem_of_row_set (k : list string) (dist : nat → nat → option nat)
      (index1 : nat) (vertex1 w : string) :
  w ∈ row_set k dist index1 vertex1
  ↔ w = vertex1
    ∨ ∃ index2, k !! index2 = Some w ∧ reached (dist index1 index2) = true.
Proof.
  unfold row_set.
  assert (Hfold : ∀ (js : list nat) (s0 : gset string),
             w ∈ foldl (fun (s : gset string) index2 =>
                          match k !! index2 with
                          | Some vertex2 =>
                              if reached (dist index1 index2)
                              then s ∪ {[vertex2]} else s
                          | None => s
                          end) s0 js
             ↔ w ∈ s0
               ∨ ∃ index2, index2 ∈ js ∧ k !! index2 = Some w
                           ∧ reached (dist index1 index2) = true).
  { induction js as [|j js IH]; intros s0; cbn [foldl].
    - split; [by left |]. intros [? | (j & Hj & _)]; [done |].
      by apply elem_of_nil in Hj.
    - rewrite IH. split.
      + intros [Hw | (j' & Hj' & Hk & Hr)].
        * destruct (k !! j) as [v|] eqn:Hkj; [| by left].
          destruct (reached (dist index1 j)) eqn:Hr; [| by left].
          apply elem_of_union in Hw. destruct Hw as [Hw | Hw]; [by left |].
          apply elem_of_singleton in Hw. subst w.
          right. exists j. split; [left | done].
        * right. exists j'. split; [by right | done].
      + intros [Hw | (j' & Hj' & Hk & Hr)].
        * left. destruct (k !! j); [| done].
          destruct (reached (dist index1 j)); [| done].
          apply elem_of_union. by left.
        * apply elem_of_cons in Hj'. destruct Hj' as [-> | Hj'].
          -- left. rewrite Hk, Hr. apply elem_of_union. right.
             by apply elem_of_singleton.
          -- right. exists j'. done. }
  rewrite Hfold, elem_of_singleton. split.
  - intros [-> | (j & _ & Hk & Hr)]; [by left |]. right. by exists j.
  - intros [-> | (j & Hk & Hr)]; [by left |]. right. exists j.
    split; [| done]. apply elem_of_seq. apply lookup_lt_Some in Hk. lia.
Qed.

(** The loop over the rows: each row stores its set under its vertex, and
    the sets that meet no visualization are gathered in [reach_no_vis]. *)
Lemma reach_rows_Ok (k : list string) (dist : nat → nat → option nat)
      (all_vis : gset string) (rows : list nat) (acc D : gset string)
      (s s' : t) :
  reach_rows k dist all_vis rows acc s = Ok D s' →
  _modules s' = _modules s
  ∧ (∀ u Ru, _reachability s' !! u = Some Ru →
             _reachability s !! u = Some Ru
             ∨ ∃ i, i ∈ rows ∧ k !! i = Some u ∧ Ru = row_set k dist i u)
  ∧ (∀ u, is_Some (_reachability s !! u) → is_Some (_reachability s' !! u))
  ∧ (∀ i, i ∈ rows →
          ∃ u, k !! i = Some u ∧ is_Some (_reachability s' !! u))
  ∧ (∀ w, w ∈ D
          ↔ w ∈ acc
            ∨ ∃ i u, i ∈ rows ∧ k !! i = Some u
                     ∧ all_vis ∩ row_set k dist i u = ∅
                     ∧ w ∈ row_set k dist i u).
Proof.
  revert acc s. induction rows as [|index1 rest IH]; intros acc s Hrun.
  - injection Hrun as <- <-. split; [done |]. split; [by left |].
    split; [done |]. split.
    + intros i Hi. by apply elem_of_nil in Hi.
    + intros w. split; [by left |]. intros [? | (i & u & Hi & _)]; [done |].
      by apply elem_of_nil in Hi.
  - cbn [reach_rows] in Hrun. unfold_M in Hrun.
    destruct (k !! index1) as [vertex1|] eqn:Hk; [| done].
    set (row := row_set k dist index1 vertex1) in *.
    set (s1 := with_reachability (<[vertex1:=row]> (_reachability s)) s) in *.
    assert (Hself : vertex1 ∈ row) by (apply elem_of_row_set; by left).
    assert (Hnext : ∃ acc', reach_rows k dist all_vis rest acc' s1 = Ok D s'
              ∧ ∀ w, w ∈ acc'
                     ↔ w ∈ acc ∨ (all_vis ∩ row = ∅ ∧ w ∈ row)).
    { case_bool_decide as Hdead.
      - cbn [_modules s1] in Hrun.
        destruct (_modules s1 !! vertex1) as [m|]; [| done].
        eexists. split; [exact Hrun |]. intros w.
        destruct (Mod.is_visualization m); cbn [negb];
          rewrite ?elem_of_union, ?elem_of_singleton.
        + split; [intros [? | ?]; auto | intros [? | [_ ?]]; auto].
        + split; [intros [[? | ?] | ->]; auto | intros [? | [_ ?]]; auto].
      - exists acc. split; [exact Hrun |]. intros w.
        split; [by left | intros [? | [? _]]; done]. }
    destruct Hnext as (acc' & Hrest & Hacc').
    destruct (IH _ _ Hrest) as (Hmods & Hsound & Hkeep & Hrows & HD).
    split; [done |]. split; [| split; [| split]].
    + intros u Ru Hu. destruct (Hsound u Ru Hu) as [Hu1 | (i & Hi & Hki & ->)].
      * cbn in Hu1. destruct (decide (vertex1 = u)) as [<- | Hne].
        -- rewrite lookup_insert_eq in Hu1. injection Hu1 as <-.
           right. exists index1. split; [left | done].
        -- rewrite lookup_insert_ne in Hu1 by done. by left.
      * right. exists i. split; [by right | done].
    + intros u Hu. apply Hkeep. cbn.
      destruct (decide (vertex1 = u)) as [<- | Hne].
      * rewrite lookup_insert_eq. by eexists.
      * by rewrite lookup_insert_ne.
    + intros i Hi. apply elem_of_cons in Hi. destruct Hi as [-> | Hi].
      * exists vertex1. split; [done |]. apply Hkeep. cbn.
        rewrite lookup_insert_eq. by eexists.
      * by apply Hrows.
    + intros w. rewrite HD, Hacc'. split.
      * intros [[Hw | [Hdead Hw]] | (i & u & Hi & Hrest')].
        -- by left.
        -- right. exists index1, vertex1. split; [left | done].
        -- right. exists i, u. split; [by right | done].
      * intros [Hw | (i & u & Hi & Hki & Hdead & Hw)]; [by left; left |].
        apply elem_of_cons in Hi. destruct Hi as [-> | Hi].
        -- rewrite Hk in Hki. injection Hki as <-. left. by right.
        -- right. exists i, u. done.
Qed.
(** *** The row sets are the sets of descendants *)
Section Closure.
Variable dependencies : gmap string (gset string).
Variable k : list string.
Variable mat : Csgraph.csr_matrix.
Hypothesis k_NoDup : NoDup k.
Hypothesis mat_sound :
  ∀ r c, (r, c) ∈ mat →
         ∃ v1 v2, k !! c = Some v1 ∧ k !! r = Some v2
                  ∧ edge dependencies v2 v1.
Hypothesis mat_complete :
  ∀ v1 v2, edge dependencies v2 v1 →
           ∃ r c, k !! c = Some v1 ∧ k !! r = Some v2 ∧ (r, c) ∈ mat.

Lemma mat_range (r c : nat) : (r, c) ∈ mat → c < length k.
Proof.
  intros Hin. destruct (mat_sound r c Hin) as (v1 & _ & Hc & _).
  by eapply lookup_lt_Some.
Qed.

Lemma within_descendant (i : nat) (u : string) (n j : nat) :
  k !! i = Some u → j ∈ Csgraph.within mat n i →
  ∃ w, k !! j = Some w ∧ descendant dependencies u w.
Proof.
  intros Hi. revert j. induction n as [|n IH]; intros j Hj.
  - cbn in Hj. apply elem_of_singleton in Hj. subst j.
    exists u. split; [done | apply rtc_refl].
  - apply within_S in Hj. destruct Hj as [Hj | (x & Hx & Hedge)].
    + by apply IH.
    + destruct (IH x Hx) as (wx & Hkx & Hdesc).
      destruct (mat_sound x j Hedge) as (v1 & v2 & Hkj & Hkx' & He).
      rewrite Hkx in Hkx'. injection Hkx' as <-.
      exists v1. split; [done |]. eapply rtc_r; done.
Qed.

Lemma descendant_within (i : nat) (u w : string) :
  k !! i = Some u → descendant dependencies u w →
  ∃ j, k !! j = Some w ∧ j ∈ Csgraph.within mat (length k - 1) i.
Proof.
  intros Hi Hdesc. unfold descendant in Hdesc. revert w Hdesc.
  apply (rtc_ind_r (fun w => ∃ j, k !! j = Some w
                       ∧ j ∈ Csgraph.within mat (length k - 1) i)).
  - exists i. split; [done | apply within_self].
  - intros x w Hdesc Hedge IH. destruct IH as (jx & Hkx & Hjx).
    destruct (mat_complete w x Hedge) as (r & c & Hkc & Hkr & Hin).
    assert (r = jx) as -> by (by eapply NoDup_lookup).
    exists c. split; [done |].
    apply (within_saturates (length k) mat mat_range (S (length k - 1)) i).
    + by eapply lookup_lt_Some.
    + apply within_S. right. by exists jx.
Qed.

Lemma row_set_descendants (i : nat) (u w : string) :
  k !! i = Some u →
  w ∈ row_set k (Csgraph.shortest_path (length k) mat) i u
  ↔ descendant dependencies u w.
Proof.
  intros Hi. rewrite elem_of_row_set. split.
  - intros [-> | (j & Hkj & Hreached)]; [apply rtc_refl |].
    apply reached_shortest_path in Hreached.
    destruct Hreached as (_ & n & _ & Hj).
    destruct (within_descendant i u n j Hi Hj) as (w' & Hkj' & Hdesc).
    rewrite Hkj in Hkj'. by injection Hkj' as <-.
  - intros Hdesc.
    destruct (descendant_within i u w Hi Hdesc) as (j & Hkj & Hj).
    destruct (decide (j = i)) as [-> | Hne].
    + left. rewrite Hi in Hkj. by injection Hkj.
    + right. exists j. split; [done |].
      apply reached_shortest_path. split; [done |].
      exists (length k - 1). split; [| done].
      apply lookup_lt_Some in Hi. lia.
Qed.
End Closure.

Lemma keys_lookup (dependencies : gmap string (gset string)) (u : string) :
  (∃ i, (map_to_list dependencies).*1 !! i = Some u) ↔ u ∈ dom dependencies.
Proof.
  rewrite <- list_elem_of_lookup, list_elem_of_fmap, elem_of_dom. split.
  - intros ([u' vs] & -> & Hin). apply elem_of_map_to_list in Hin.
    by exists vs.
  - intros [vs Hvs]. exists (u, vs). split; [done |].
    by apply elem_of_map_to_list.
Qed.

(** What [_compute_reachability] stores when it returns: under each key of
    the dependencies, its descendants less the set [D] of the vertices that
    descend from a vertex no visualization descends from. *)
Lemma compute_reachability_Ok (dependencies : gmap string (gset string))
      (s s' : t) :
  _compute_reachability dependencies s = Ok tt s' →
  let all_vis : gset string := list_to_set (get_visualizations s) in
  ∃ D : gset string,
    _modules s' = _modules s
    ∧ (∀ w, w ∈ D
            ↔ ∃ u, u ∈ dom dependencies
                   ∧ (∀ x, x ∈ all_vis → ¬ descendant dependencies u x)
                   ∧ descendant dependencies u w)
    ∧ (∀ u, is_Some (_reachability s' !! u) ↔ u ∈ dom dependencies)
    ∧ (∀ u Ru, _reachability s' !! u = Some Ru →
               ∀ v, v ∈ Ru ↔ descendant dependencies u v ∧ v ∉ D)
    ∧ (∀ u, u ∈ dom dependencies →
            (∃ x, x ∈ all_vis ∧ descendant dependencies u x)
            ∨ (∀ x, x ∈ all_vis → ¬ descendant dependencies u x)).
Proof.
  intros Hrun all_vis. unfold _compute_reachability in Hrun.
  cbn zeta in Hrun.
  set (k := (map_to_list dependencies).*1) in *.
  assert (Hnd : NoDup k) by apply NoDup_fst_map_to_list.
  unfold mbind at 1 in Hrun. unfold M_bind, bind in Hrun.
  destruct (matrix_entries (index_of k) (map_to_list dependencies) s)
    as [mat s0|] eqn:Hmat; [| done].
  destruct (matrix_entries_Ok _ _ _ _ _ Hmat) as (-> & Hsound & Hcomplete).
  assert (mat_sound : ∀ r c, (r, c) ∈ mat →
            ∃ v1 v2, k !! c = Some v1 ∧ k !! r = Some v2
                     ∧ edge dependencies v2 v1).
  { intros r c Hin.
    destruct (Hsound r c Hin) as (v1 & vs & v2 & Hitem & Hv2 & Hc & Hr).
    exists v1, v2. split; [by apply index_of_lookup |].
    split; [by apply index_of_lookup |].
    exists vs. split; [by apply elem_of_map_to_list | done]. }
  assert (mat_complete : ∀ v1 v2, edge dependencies v2 v1 →
            ∃ r c, k !! c = Some v1 ∧ k !! r = Some v2 ∧ (r, c) ∈ mat).
  { intros v1 v2 (vs & Hvs & Hv2).
    destruct (Hcomplete v1 vs v2) as (r & c & Hc & Hr & Hin);
      [by apply elem_of_map_to_list | done |].
    exists r, c. split; [by apply index_of_lookup |].
    split; [by apply index_of_lookup | done]. }
  unfold mbind, mret, M_bind, M_ret, bind, ret, get, modify in Hrun.
  change (get_visualizations (with_reachability ∅ s))
    with (get_visualizations s) in Hrun.
  fold all_vis in Hrun.
  set (s0 := with_reachability ∅ s) in *.
  destruct (reach_rows k (Csgraph.shortest_path (length k) mat) all_vis
                       (seq 0 (length k)) ∅ s0) as [D s1|] eqn:Hrows;
    [| done].
  injection Hrun as <-.
  destruct (reach_rows_Ok _ _ _ _ _ _ _ _ Hrows)
    as (Hmods & Hsound' & _ & Hall & HD).
  assert (Hrow : ∀ i u w, k !! i = Some u →
            w ∈ row_set k (Csgraph.shortest_path (length k) mat) i u
            ↔ descendant dependencies u w).
  { intros i u w. by apply row_set_descendants. }
  exists D. split; [done |]. split; [| split; [| split]].
  - intros w. rewrite HD. split.
    + intros [Hw | (i & u & _ & Hki & Hdead & Hw)].
      { by apply not_elem_of_empty in Hw. }
      exists u. split; [apply keys_lookup; by exists i |].
      split; [| by apply (Hrow i)].
      intros x Hx Hdesc. apply (Hrow i u x Hki) in Hdesc.
      apply (not_elem_of_empty (C:=gset string) x). rewrite <- Hdead.
      by apply elem_of_intersection.
    + intros (u & Hu & Hdead & Hw). apply keys_lookup in Hu.
      destruct Hu as [i Hki]. fold k in Hki. right. exists i, u.
      split; [apply elem_of_seq; apply lookup_lt_Some in Hki; lia |].
      split; [done |]. split; [| by apply (Hrow i)].
      apply leibniz_equiv. apply elem_of_equiv_empty. intros x Hx.
      apply elem_of_intersection in Hx. destruct Hx as [Hx Hin].
      apply (Hdead x Hx). by apply (Hrow i).
  - intros u. cbn. rewrite lookup_fmap, fmap_is_Some. split.
    + intros [Ru Hu]. destruct (Hsound' u Ru Hu) as [Hu0 | (i & _ & Hki & _)].
      { cbn in Hu0. by rewrite lookup_empty in Hu0. }
      apply keys_lookup. by exists i.
    + intros Hu. apply keys_lookup in Hu. destruct Hu as [i Hki].
      fold k in Hki. destruct (Hall i) as (u' & Hki' & Hsome).
      { apply elem_of_seq. apply lookup_lt_Some in Hki. lia. }
      rewrite Hki in Hki'. by injection Hki' as <-.
  - intros u Ru Hu v. cbn in Hu. rewrite lookup_fmap in Hu.
    destruct (_reachability s1 !! u) as [Ru1|] eqn:Hu1; [| done].
    injection Hu as <-.
    destruct (Hsound' u Ru1 Hu1) as [Hu0 | (i & _ & Hki & ->)].
    { cbn in Hu0. by rewrite lookup_empty in Hu0. }
    rewrite elem_of_difference. by rewrite (Hrow i).
  - intros u Hu. apply keys_lookup in Hu. destruct Hu as [i Hki].
    fold k in Hki.
    set (row := row_set k (Csgraph.shortest_path (length k) mat) i u).
    destruct (decide (all_vis ∩ row = ∅)) as [Hdead | Halive].
    + right. intros x Hx Hdesc. apply (Hrow i u x Hki) in Hdesc.
      apply (not_elem_of_empty (C:=gset string) x). rewrite <- Hdead.
      by apply elem_of_intersection.
    + left. apply set_choose_L in Halive. destruct Halive as [x Hx].
      apply elem_of_intersection in Hx. destruct Hx as [Hx Hin].
      exists x. split; [done |]. by apply (Hrow i u x Hki).
Qed.

(** Descendants of a key of the dependencies are keys. *)
Lemma descendant_dom (dependencies : gmap string (gset string))
      (u v : string) :
  u ∈ dom dependencies → descendant dependencies u v →
  v ∈ dom dependencies.
Proof.
  intros Hu Hdesc. unfold descendant in Hdesc.
  induction Hdesc as [|u x v Hedge Hdesc IH]; [done |].
  apply IH. clear -Hdesc Hedge.
  destruct Hdesc as [|x' y v Hedge' _].
  - destruct Hedge as (vs & Hvs & _). apply elem_of_dom. by exists vs.
  - destruct Hedge as (vs & Hvs & _). apply elem_of_dom. by exists vs.
Qed.

(** C3 (amended): when [_compute_reachability] returns, the reachability map
    has the keys of the dependency map; after the subtraction of the modules
    that reach no visualization module it is transitively closed; it is
    reflexive at the modules that reach a visualization module, and [R[u]]
    is empty for the others; precisely, [R[u]] holds the modules [v] that
    are [u] or descend from [u] and from which a visualization module is
    reached. *)
Theorem compute_reachability_transitive
        (dependencies : gmap string (gset string)) (s s' : t) :
  _compute_reachability dependencies s = Ok tt s' →
  let R := _reachability s' in
  let all_vis : gset string := list_to_set (get_visualizations s) in
  dom R = dom dependencies
  ∧ (∀ u v w Ru Rv, R !! u = Some Ru → R !! v = Some Rv →
                    v ∈ Ru → w ∈ Rv → w ∈ Ru)
  ∧ (∀ u Ru, R !! u = Some Ru → u ∈ Ru ∨ Ru = ∅)
  ∧ (∀ u Ru, R !! u = Some Ru →
             ∀ v, v ∈ Ru
                  ↔ descendant dependencies u v
                    ∧ ∃ x, x ∈ all_vis ∧ descendant dependencies v x).
Proof.
  intros Hrun R all_vis.
  destruct (compute_reachability_Ok dependencies s s' Hrun)
    as (D & _ & HD & Hdom & HR & Hdec).
  fold all_vis in HD, Hdec. fold R in Hdom, HR.
  assert (Hchar : ∀ u Ru, R !! u = Some Ru →
            ∀ v, v ∈ Ru
                 ↔ descendant dependencies u v
                   ∧ ∃ x, x ∈ all_vis ∧ descendant dependencies v x).
  { intros u Ru Hu v. rewrite (HR u Ru Hu v).
    assert (Hudom : u ∈ dom dependencies) by (apply Hdom; by eexists).
    split.
    - intros [Hdesc Hlive]. split; [done |].
      assert (Hvdom : v ∈ dom dependencies) by (by eapply descendant_dom).
      destruct (Hdec v Hvdom) as [Halive | Hdead]; [done |].
      exfalso. apply Hlive, HD. exists v. split; [done |].
      split; [done | apply rtc_refl].
    - intros [Hdesc (x & Hx & Hvx)]. split; [done |].
      intros Hin. apply HD in Hin. destruct Hin as (y & _ & Hdead & Hyv).
      apply (Hdead x Hx). by eapply rtc_trans. }
  split; [| split; [| split]]; [| | | exact Hchar].
  - apply set_eq. intros u. rewrite elem_of_dom. apply Hdom.
  - intros u v w Ru Rv Hu Hv Hvu Hwv.
    apply (Hchar u Ru Hu) in Hvu. destruct Hvu as [Huv _].
    apply (Hchar v Rv Hv) in Hwv. destruct Hwv as [Hvw Hlive].
    apply (Hchar u Ru Hu). split; [| done]. by eapply rtc_trans.
  - intros u Ru Hu. destruct (decide (u ∈ Ru)) as [Hin | Hout]; [by left |].
    right. apply leibniz_equiv, elem_of_equiv_empty. intros v Hv.
    apply (Hchar u Ru Hu) in Hv. destruct Hv as [Huv (x & Hx & Hvx)].
    apply Hout, (Hchar u Ru Hu). split; [apply rtc_refl |].
    exists x. split; [done |]. by eapply rtc_trans.
Qed.

(** *** The computation returns on a closed dependency map *)

Lemma vertex_entries_total (index : gmap string nat) (vertex1 : string)
      (vertices : list string) (s : t) :
  is_Some (index !! vertex1) →
  (∀ vertex2, vertex2 ∈ vertices → is_Some (index !! vertex2)) →
  ∃ es, vertex_entries index vertex1 vertices s = Ok es s.
Proof.
  intros [c Hc] Hall. induction vertices as [|vertex2 rest IH].
  - by eexists.
  - destruct (Hall vertex2) as [r Hr]; [left |].
    destruct IH as [es Hes].
    { intros v Hv. apply Hall. by right. }
    cbn [vertex_entries]. unfold_M. rewrite Hc, Hr, Hes. by eexists.
Qed.

Lemma matrix_entries_total (index : gmap string nat)
      (items : list (string * gset string)) (s : t) :
  (∀ vertex1 vertices, (vertex1, vertices) ∈ items →
     is_Some (index !! vertex1)
     ∧ ∀ vertex2, vertex2 ∈ vertices → is_Some (index !! vertex2)) →
  ∃ mat, matrix_entries index items s = Ok mat s.
Proof.
  intros Hall. induction items as [|[vertex1 vertices] rest IH].
  - by eexists.
  - destruct (Hall vertex1 vertices) as [H1 H2]; [left |].
    destruct (vertex_entries_total index vertex1 (elements vertices) s H1)
      as [es Hes].
    { intros v Hv. apply H2. by apply elem_of_elements. }
    destruct IH as [es' Hes'].
    { intros v vs Hv. apply Hall. by right. }
    cbn [matrix_entries]. unfold_M. rewrite Hes, Hes'. by eexists.
Qed.

Lemma reach_rows_total (k : list string) (dist : nat → nat → option nat)
      (all_vis : gset string) (rows : list nat) (acc : gset string) (s : t) :
  (∀ i, i ∈ rows → ∃ u, k !! i = Some u ∧ is_Some (_modules s !! u)) →
  ∃ D s', reach_rows k dist all_vis rows acc s = Ok D s'.
Proof.
  revert acc s. induction rows as [|index1 rest IH]; intros acc s Hall.
  - by eexists _, _.
  - destruct (Hall index1) as (vertex1 & Hk & [m Hm]); [left |].
    cbn [reach_rows]. unfold_M. rewrite Hk.
    assert (Hrest : ∀ R i, i ∈ rest →
              ∃ u, k !! i = Some u
                   ∧ is_Some (_modules (with_reachability R s) !! u)).
    { intros R i Hi. apply Hall. by right. }
    case_bool_decide.
    + cbn [_modules with_reachability]. rewrite Hm. apply IH, Hrest.
    + apply IH, Hrest.
Qed.

(** X2: on a dependency map whose producers are all keys of the map, and
    whose keys are all modules of the scheduler, [_compute_reachability]
    returns. *)
Lemma compute_reachability_returns
      (dependencies : gmap string (gset string)) (s : t) :
  (∀ v producers, dependencies !! v = Some producers →
                  producers ⊆ dom dependencies) →
  dom dependencies ⊆ dom (_modules s) →
  ∃ s', _compute_reachability dependencies s = Ok tt s'.
Proof.
  intros Hclosed Hmods. unfold _compute_reachability. cbn zeta.
  set (k := (map_to_list dependencies).*1).
  assert (Hnd : NoDup k) by apply NoDup_fst_map_to_list.
  assert (Hindex : ∀ v, v ∈ dom dependencies → is_Some (index_of k !! v)).
  { intros v Hv. apply keys_lookup in Hv. destruct Hv as [i Hi].
    exists i. by apply index_of_lookup. }
  destruct (matrix_entries_total (index_of k) (map_to_list dependencies) s)
    as [mat Hmat].
  { intros v vs Hin. apply elem_of_map_to_list in Hin. split.
    - apply Hindex, elem_of_dom. by eexists.
    - intros v2 Hv2. apply Hindex. by apply (Hclosed v vs). }
  unfold mbind at 1. unfold M_bind, bind. rewrite Hmat.
  unfold mbind, mret, M_bind, M_ret, bind, ret, get, modify.
  destruct (reach_rows_total k (Csgraph.shortest_path (length k) mat)
              (list_to_set (get_visualizations (with_reachability ∅ s)))
              (seq 0 (length k)) ∅ (with_reachability ∅ s))
    as (D & s1 & Hrows).
  { intros i Hi. apply elem_of_seq in Hi.
    destruct (lookup_lt_is_Some_2 k i) as [u Hu]; [lia |].
    exists u. split; [done |]. cbn. apply elem_of_dom, Hmods.
    apply keys_lookup. by exists i. }
  rewrite Hrows. by eexists.
Qed.
End Reachability.

(** ** The reachability map on concrete graphs *)
Section ReachabilityExamples.
Import BaseScheduler.

(** C3, as claimed, fails: module a stands alone and no module is a
    visualization; [_compute_reachability] returns and [R[a]] is empty, so a
    is not in [R[a]]. *)
Lemma compute_reachability_drops_self :
  raised (_compute_reachability {["a"%string := ∅]} Examples.lonely) = None
  ∧ _reachability
      (result_state
         (_compute_reachability {["a"%string := ∅]} Examples.lonely))
    !! "a"%string
    = Some ∅.
Proof. split; vm_compute; reflexivity. Qed.

(** The map computed on the chain a → b → c → d with the visualization c:
    d reaches no visualization and is dropped everywhere. *)
Lemma compute_reachability_chain :
  (fun s => map_to_list (elements <$> _reachability s))
    <$> returned ((_compute_reachability Examples.chain_dependencies;;
                   get) Examples.chain)
  = Some [("c", ["c"]); ("a", ["c"; "a"; "b"]); ("b", ["c"; "b"]);
          ("d", [])]%string.
Proof. vm_compute. reflexivity. Qed.

(** C3 (amended) at work on the chain. *)
Lemma compute_reachability_transitive_witness :
  ∃ s', _compute_reachability Examples.chain_dependencies Examples.chain
        = Ok tt s'
    ∧ dom (_reachability s') = dom Examples.chain_dependencies
    ∧ (∀ u v w Ru Rv,
         _reachability s' !! u = Some Ru → _reachability s' !! v = Some Rv →
         v ∈ Ru → w ∈ Rv → w ∈ Ru)
    ∧ (∀ u Ru, _reachability s' !! u = Some Ru → u ∈ Ru ∨ Ru = ∅).
Proof.
  assert (Hrun : ∃ s', _compute_reachability Examples.chain_dependencies
                                             Examples.chain = Ok tt s').
  { eexists. vm_compute. reflexivity. }
  destruct Hrun as [s' Hrun].
  exists s'. split; [exact Hrun |].
  destruct (compute_reachability_transitive _ _ _ Hrun)
    as (Hdom & Htrans & Hrefl & _).
  split; [exact Hdom |]. split; [exact Htrans | exact Hrefl].
Defined.

(** The chain is a closed dependency map over the modules of the scheduler:
    the computation returns. *)
Lemma compute_reachability_returns_witness :
  ∃ s', _compute_reachability Examples.chain_dependencies Examples.chain
        = Ok tt s'.
Proof.
  apply compute_reachability_returns.
  - intros v producers Hv u Hu.
    assert (Hdom : dom Examples.chain_dependencies
                   = {["a"; "b"; "c"; "d"]}%string)
      by (vm_compute; reflexivity).
    rewrite Hdom. unfold Examples.chain_dependencies in Hv.
    repeat (apply lookup_insert_Some in Hv;
            destruct Hv as [[<- <-] | [_ Hv]]; [set_solver |]).
    apply lookup_singleton_Some in Hv. destruct Hv as [<- <-]. set_solver.
  - vm_compute. intros x Hx. exact Hx.
Defined.
End ReachabilityExamples.

(** ** Ordering the modules *)
Section OrderModules.
Import BaseScheduler.
Variable toposort : gmap string (gset string) → exn + list string.
Variable validate_outputs : Mod.t → bool.

(** [_collect_dependencies] reads the modules and leaves the scheduler as it
    is. *)
Lemma collect_dependencies_Ok (only_required : bool) (s s0 : t)
      (d : gmap string (gset string)) :
  _collect_dependencies only_required s = Ok d s0 →
  s0 = s
  ∧ ∀ s1, _modules s1 = _modules s →
          _collect_dependencies only_required s1 = Ok d s1.
Proof.
  unfold _collect_dependencies. unfold_M. intros Hrun.
  destruct (collect_loop only_required (map_to_list (_modules s)) ∅)
    as [e | d0] eqn:Hloop; [done |].
  injection Hrun as <- <-. split; [done |].
  intros s1 ->. by rewrite Hloop.
Qed.

Lemma slot_outs_raises (only_required : bool) (module : Mod.t)
      (slots : list (option Slot.t)) (e : exn) :
  slot_outs only_required module slots = inl e → e = KeyError.
Proof.
  induction slots as [|[m|] rest IH]; cbn [slot_outs]; [done | | done].
  unfold mbind, exn_bind, mret, exn_ret.
  destruct (negb only_required).
  - destruct (slot_outs only_required module rest); [| done].
    intros [= <-]. by apply IH.
  - unfold Mod.input_slot_required, lookup_or_KeyError, mbind, exn_bind.
    destruct (Mod.input_descriptors module !! Slot.input_name m).
    + cbn. destruct (slot_outs only_required module rest); [| done].
      intros [= <-]. by apply IH.
    + by intros [= <-].
Qed.

Lemma collect_loop_raises (only_required : bool)
      (mods : list (string * Mod.t)) (d : gmap string (gset string))
      (e : exn) :
  collect_loop only_required mods d = inl e → e = KeyError.
Proof.
  revert d. induction mods as [|[mid module] rest IH]; intros d;
    cbn [collect_loop]; [done |].
  destruct (negb (Mod.is_valid module)); [apply IH |].
  unfold mbind, exn_bind.
  destruct (slot_outs only_required module (Mod.input_slot_values module))
    as [e' | outs] eqn:Houts.
  - intros [= <-]. by eapply slot_outs_raises.
  - apply IH.
Qed.

Lemma collect_dependencies_raises (only_required : bool) (s s0 : t)
      (e : exn) :
  _collect_dependencies only_required s = Raise e s0 → e = KeyError.
Proof.
  unfold _collect_dependencies. unfold_M.
  destruct (collect_loop only_required (map_to_list (_modules s)) ∅)
    as [e' | d0] eqn:Hloop; [| done].
  intros [= <- _]. by eapply collect_loop_raises.
Qed.

(** The exceptions of the reachability computation are those of its
    look-ups. *)
Lemma vertex_entries_raises (index : gmap string nat) (vertex1 : string)
      (vertices : list string) (s s' : t) (e : exn) :
  vertex_entries index vertex1 vertices s = Raise e s' → e = KeyError.
Proof.
  induction vertices as [|vertex2 rest IH]; [done |].
  cbn [vertex_entries]. unfold_M.
  destruct (index !! vertex1); [| by intros [= <- _]].
  destruct (index !! vertex2); [| by intros [= <- _]].
  destruct (vertex_entries index vertex1 rest s) as [es s0 | e0 s0];
    [done | exact IH].
Qed.

Lemma matrix_entries_raises (index : gmap string nat)
      (items : list (string * gset string)) (s s' : t) (e : exn) :
  matrix_entries index items s = Raise e s' → e = KeyError.
Proof.
  induction items as [|[vertex1 vertices] rest IH]; [done |].
  cbn [matrix_entries]. unfold mbind, M_bind, bind.
  destruct (vertex_entries index vertex1 (elements vertices) s)
    as [es s0 | e0 s0] eqn:Hes.
  - destruct (vertex_entries_Ok _ _ _ _ _ _ Hes) as (-> & _).
    destruct (matrix_entries index rest s) as [es' s1 | e1 s1];
      [done | exact IH].
  - intros [= <- _]. by eapply vertex_entries_raises.
Qed.

Lemma reach_rows_raises (k : list string) (dist : nat → nat → option nat)
      (all_vis : gset string) (rows : list nat) (acc : gset string)
      (s s' : t) (e : exn) :
  reach_rows k dist all_vis rows acc s = Raise e s' →
  e = KeyError ∨ e = IndexError.
Proof.
  revert acc s. induction rows as [|index1 rest IH]; intros acc s; [done |].
  cbn [reach_rows]. unfold_M.
  destruct (k !! index1) as [vertex1|]; [| intros [= <- _]; by right].
  case_bool_decide; [| apply IH].
  cbn [_modules with_reachability].
  destruct (_modules s !! vertex1); [apply IH | intros [= <- _]; by left].
Qed.

Lemma compute_reachability_raises (d : gmap string (gset string))
      (s s' : t) (e : exn) :
  _compute_reachability d s = Raise e s' → e = KeyError ∨ e = IndexError.
Proof.
  unfold _compute_reachability. cbn zeta.
  unfold mbind at 1. unfold M_bind, bind.
  destruct (matrix_entries _ _ s) as [mat s0 | e0 s0] eqn:Hmat.
  - unfold mbind, mret, M_bind, M_ret, bind, ret, get, modify.
    destruct (reach_rows _ _ _ _ _ _) as [D s1 | e1 s1] eqn:Hrows; [done |].
    intros [= <- _]. by eapply reach_rows_raises.
  - intros [= <- _]. left. by eapply matrix_entries_raises.
Qed.

(** [order_modules], the [try] and its handler resolved. *)
Lemma order_modules_unfold (s : t) (d : gmap string (gset string)) :
  _collect_dependencies false s = Ok d s →
  order_modules toposort s =
    match toposort d with
    | inr runorder => (_compute_reachability d;; mret runorder) s
    | inl ValueError =>
        (dependencies ← _collect_dependencies true;
         runorder ← lift_exn (toposort dependencies);
         _compute_reachability dependencies;;
         mret runorder) s
    | inl e => Raise e s
    end.
Proof.
  intros Hd. unfold order_modules, try_except.
  unfold mbind at 1. unfold M_bind, bind. rewrite Hd.
  unfold mbind at 1. unfold M_bind, bind.
  destruct (toposort d) as [e | runorder] eqn:Hsort; cbn [lift_exn].
  - unfold raise. destruct (decide (e = ValueError)) as [-> | Hne];
      [done |].
    by destruct e.
  - unfold ret.
    change ((_compute_reachability d;; mret runorder) s)
      with (match _compute_reachability d s with
            | Ok a s' => (mret runorder : M t (list string)) s'
            | Raise e s' => Raise e s'
            end).
    unfold mbind at 1. unfold M_bind, bind.
    destruct (_compute_reachability d s) as [[] s1 | e s1] eqn:Hreach;
      [done |].
    destruct (compute_reachability_raises d s s1 e Hreach) as [-> | ->];
      done.
Qed.
(** Calling [starting()] on the new modules changes nothing. *)
Lemma starting_loop (ids : list string) (s : t) :
  (∀ mid, mid ∈ ids → is_Some (_modules s !! mid)) →
  for_each ids (fun mid => on_module mid (mret tt)) s = Ok tt s.
Proof.
  intros Hall. induction ids as [|mid rest IH]; [done |].
  cbn [for_each]. unfold mbind at 1. unfold M_bind, bind.
  destruct (Hall mid) as [m Hm]; [left |].
  assert (Hone : on_module mid (mret tt) s = Ok tt s).
  { unfold on_module. unfold_M. rewrite Hm. cbn.
    rewrite insert_id by done. by destruct s. }
  rewrite Hone. apply IH. intros mid' Hin. apply Hall. by right.
Qed.

(** The retry of [BaseScheduler.order_modules], for every [toposort]: it
    sorts the collected dependencies; when that sort raises [ValueError] (a
    cycle) it collects the dependencies again from the required inputs only
    and sorts those; [ValueError] leaves [order_modules] only if both sorts
    raised it.  What follows the failure in [_update_modules] is the defect
    of C6, here for every scheduler: the error is not caught, and the run
    list and the list of new modules, emptied before the sort, stay empty.
    [Dataflow.order_modules] is the one sort, without a second attempt. *)
Theorem order_modules_retries_required_only (s : t)
        (d : gmap string (gset string)) :
  _collect_dependencies false s = Ok d s →
  (∀ runorder, toposort d = inr runorder →
     order_modules toposort s = (_compute_reachability d;; mret runorder) s)
  ∧ (∀ d', toposort d = inl ValueError →
           _collect_dependencies true s = Ok d' s →
       (∀ runorder, toposort d' = inr runorder →
          order_modules toposort s
          = (_compute_reachability d';; mret runorder) s)
       ∧ (∀ e, toposort d' = inl e →
            order_modules toposort s = Raise e s
            ∧ (_new_modules_ids s ≠ [] →
               (∀ mid, mid ∈ _new_modules_ids s →
                       is_Some (_modules s !! mid)) →
               ∃ s', _update_modules toposort validate_outputs s
                     = Raise e s'
                 ∧ _run_list s' = [] ∧ _new_modules_ids s' = [])))
  ∧ (∀ s', order_modules toposort s = Raise ValueError s' →
       toposort d = inl ValueError
       ∧ ∃ d', _collect_dependencies true s = Ok d' s
           ∧ toposort d' = inl ValueError)
  ∧ (∀ df, Dataflow.order_modules toposort df
           = toposort (Dataflow.collect_dependencies df)).
Proof.
  intros Hd.
  assert (Hretry : ∀ s1 d1 d', _collect_dependencies false s1 = Ok d1 s1 →
            toposort d1 = inl ValueError →
            _collect_dependencies true s1 = Ok d' s1 →
            order_modules toposort s1
            = match toposort d' with
              | inr runorder =>
                  (_compute_reachability d';; mret runorder) s1
              | inl e => Raise e s1
              end).
  { intros s1 d1 d' Hd1 Hsort Hd'.
    rewrite (order_modules_unfold s1 d1 Hd1), Hsort.
    unfold mbind at 1. unfold M_bind, bind. rewrite Hd'.
    unfold mbind at 1. unfold M_bind, bind.
    by destruct (toposort d'). }
  split; [| split; [| split]].
  - intros runorder Hsort.
    by rewrite (order_modules_unfold s d Hd), Hsort.
  - intros d' Hsort Hd'. split.
    + intros runorder Hsort'. by rewrite (Hretry s d d' Hd Hsort Hd'), Hsort'.
    + intros e Hsort'. split.
      { by rewrite (Hretry s d d' Hd Hsort Hd'), Hsort'. }
      intros Hnew Hmods. unfold _update_modules.
      unfold mbind at 1. unfold M_bind, bind, get.
      rewrite bool_decide_eq_true_2 by done.
      unfold mbind at 1. unfold M_bind, bind.
      rewrite (starting_loop _ s Hmods).
      unfold mbind, M_bind, bind, modify.
      set (s1 := with_run_list []
                   (with_slots_updated false (with_new_modules_ids [] s))).
      assert (Hs1 : order_modules toposort s1 = Raise e s1).
      { rewrite (Hretry s1 d d'), Hsort'; [done | | done |].
        - by apply (collect_dependencies_Ok false s s d Hd).
        - by apply (collect_dependencies_Ok true s s d' Hd'). }
      rewrite Hs1. exists s1. done.
  - intros s' Hraise.
    rewrite (order_modules_unfold s d Hd) in Hraise.
    destruct (toposort d) as [e | runorder] eqn:Hsort.
    + assert (e = ValueError) as ->.
      { destruct e; try done; by injection Hraise. }
      split; [done |].
      unfold mbind at 1 in Hraise. unfold M_bind, bind in Hraise.
      destruct (_collect_dependencies true s) as [d' s0 | e0 s0] eqn:Hd'.
      * destruct (collect_dependencies_Ok true s s0 d' Hd') as [-> _].
        exists d'. split; [done |].
        unfold mbind at 1 in Hraise. unfold M_bind, bind in Hraise.
        destruct (toposort d') as [e | runorder] eqn:Hsort'.
        -- cbn in Hraise. by injection Hraise as ->.
        -- cbn [lift_exn] in Hraise. unfold ret in Hraise.
           unfold mbind at 1 in Hraise. unfold M_bind, bind in Hraise.
           destruct (_compute_reachability d' s) as [[] s1 | e s1] eqn:Hreach;
             [done |].
           injection Hraise as -> _.
           by destruct (compute_reachability_raises d' s s1 _ Hreach).
      * injection Hraise as -> _.
        by pose proof (collect_dependencies_raises true s s0 _ Hd').
    + unfold mbind at 1 in Hraise. unfold M_bind, bind in Hraise.
      destruct (_compute_reachability d s) as [[] s1 | e s1] eqn:Hreach;
        [done |].
      injection Hraise as -> _.
      by destruct (compute_reachability_raises d s s1 _ Hreach).
  - reflexivity.
Qed.
End OrderModules.

(** ** Ordering concrete graphs *)
Section OrderModulesExamples.
Import BaseScheduler.

(** C6: the code misses what the claim says.  On the loop of a and b with
    both inputs required, b being the new module, both sorts fail and
    [order_modules] raises [ValueError] and changes nothing, as claimed.
    [_update_modules] has copied the run list, which is [a], to revert to
    it, has emptied it before the sort, and lets the error through: the
    scheduler is left with an empty run list and b is no longer among the
    new modules.  When it is [validate] that refuses the new graph, the same
    function does put the run list back. *)
Lemma update_modules_empties_run_list :
  order_modules Toposort.toposort (Examples.loop true)
  = Raise ValueError (Examples.loop true)
  ∧ _run_list (Examples.loop true) = ["a"%string]
  ∧ _new_modules_ids (Examples.loop true) = ["b"%string]
  ∧ raised (_update_modules Toposort.toposort (fun _ => true)
                            (Examples.loop true))
    = Some ValueError
  ∧ _run_list (result_state
                 (_update_modules Toposort.toposort (fun _ => true)
                                  (Examples.loop true)))
    = []
  ∧ _new_modules_ids (result_state
                        (_update_modules Toposort.toposort (fun _ => true)
                                         (Examples.loop true)))
    = []
  ∧ raised (_update_modules Toposort.toposort (fun _ => false)
                            (Examples.loop false))
    = None
  ∧ _run_list (result_state
                 (_update_modules Toposort.toposort (fun _ => false)
                                  (Examples.loop false)))
    = ["a"%string].
Proof. repeat split; vm_compute; reflexivity. Qed.

(** The retry at work: on the loop whose back edge is optional the
    scheduler, after its second attempt, orders a before b, where
    [Dataflow.order_modules] fails. *)
Lemma order_modules_breaks_optional_cycle :
  returned (order_modules Toposort.toposort (Examples.loop false))
  = Some ["a"; "b"]%string
  ∧ Dataflow.order_modules Toposort.toposort Examples.loop_dataflow
    = inl ValueError.
Proof. split; vm_compute; reflexivity. Qed.

(** When the new graph can be ordered, it is adopted. *)
Lemma update_modules_adopts_order :
  raised (_update_modules Toposort.toposort (fun _ => true)
                          (Examples.loop false))
  = None
  ∧ _run_list (result_state
                 (_update_modules Toposort.toposort (fun _ => true)
                                  (Examples.loop false)))
    = ["a"; "b"]%string.
Proof. split; vm_compute; reflexivity. Qed.

(** The lemma on the retry at work on the loop with both inputs required. *)
Lemma order_modules_retries_required_only_witness :
  order_modules Toposort.toposort (Examples.loop true)
  = Raise ValueError (Examples.loop true)
  ∧ ∃ s', _update_modules Toposort.toposort (fun _ => true)
                          (Examples.loop true)
          = Raise ValueError s'
      ∧ _run_list s' = [] ∧ _new_modules_ids s' = [].
Proof.
  set (d := {[ "a"%string := {["b"%string]};
               "b"%string := {["a"%string]} ]} : gmap string (gset string)).
  assert (Hd : _collect_dependencies false (Examples.loop true)
               = Ok d (Examples.loop true)) by (vm_compute; reflexivity).
  assert (Hd' : _collect_dependencies true (Examples.loop true)
                = Ok d (Examples.loop true)) by (vm_compute; reflexivity).
  assert (Hsort : Toposort.toposort d = inl ValueError)
    by (vm_compute; reflexivity).
  destruct (order_modules_retries_required_only Toposort.toposort
              (fun _ => true) (Examples.loop true) d Hd)
    as (_ & Hretry & _).
  destruct (Hretry d Hsort Hd') as [_ Hfail].
  destruct (Hfail ValueError Hsort) as [Horder Hupdate].
  split; [exact Horder |]. apply Hupdate.
  - vm_compute. discriminate.
  - intros mid Hmid. vm_compute in Hmid.
    apply list_elem_of_singleton in Hmid. subst mid.
    vm_compute. by eexists.
Defined.
End OrderModulesExamples.

(** * Further properties *)

(** ** The dataflow graph: round trip, wiring invariant, dependencies *)
Section DataflowMore.
Import Dataflow DataflowOps.

(** [add_module] when its two assertions hold. *)
Lemma add_module_Ok (m : Mod.t) (df : t) :
  Mod.is_created m = true → _inputs df !! Mod.name m = None →
  add_module m df
  = Ok tt (mk (<[Mod.name m := m]> (_modules df))
              (<[Mod.name m := ∅]> (_inputs df))
              (<[Mod.name m := ∅]> (_outputs df))).
Proof.
  intros Hcreated Hfree. unfold add_module. unfold_M.
  rewrite Hcreated. cbn. rewrite bool_decide_eq_true_2 by done.
  reflexivity.
Qed.

(** One step of a computation that returns. *)
Lemma bind_Ok {S A B} (m : M S A) (k : A → M S B) (s s' : S) (a : A) :
  m s = Ok a s' → (m ≫= k) s = k a s'.
Proof. intros H. unfold mbind, M_bind, bind. by rewrite H. Qed.

Lemma bind_Raise {S A B} (m : M S A) (k : A → M S B) (s s' : S) (e : exn) :
  m s = Raise e s' → (m ≫= k) s = Raise e s'.
Proof. intros H. unfold mbind, M_bind, bind. by rewrite H. Qed.

Lemma getitem_Some {S A} (o : option A) (a : A) (s : S) :
  o = Some a → getitem o s = Ok a s.
Proof. by intros ->. Qed.

(** Removing a module without connections deletes its two entries. *)
Lemma remove_module_inputs_unbound (name : string) (d : t) :
  _inputs d !! name = Some ∅ →
  _remove_module_inputs name d
  = Ok tt (with_inputs (fun _ => delete name (_inputs d)) d).
Proof.
  intros Hins. unfold _remove_module_inputs.
  rewrite (bind_Ok get _ d d d) by reflexivity.
  rewrite (bind_Ok _ _ d d ∅) by (by apply getitem_Some).
  rewrite map_to_list_empty. cbn [fmap list_fmap for_each].
  rewrite (bind_Ok _ _ d d tt) by reflexivity.
  rewrite (bind_Ok get _ d d d) by reflexivity.
  unfold delitem.
  rewrite (bind_Ok _ _ d d (delete name (_inputs d))).
  - reflexivity.
  - rewrite (bind_Ok _ _ d d ∅) by (by apply getitem_Some). reflexivity.
Qed.

Lemma remove_module_outputs_unbound (name : string) (d : t) :
  _outputs d !! name = Some ∅ →
  _remove_module_outputs name d
  = Ok tt (with_outputs (fun _ => delete name (_outputs d)) d).
Proof.
  intros Houts. unfold _remove_module_outputs.
  rewrite (bind_Ok get _ d d d) by reflexivity.
  rewrite (bind_Ok _ _ d d ∅) by (by apply getitem_Some).
  rewrite map_to_list_empty. cbn [fmap list_fmap for_each].
  rewrite (bind_Ok _ _ d d tt) by reflexivity.
  rewrite (bind_Ok get _ d d d) by reflexivity.
  unfold delitem.
  rewrite (bind_Ok _ _ d d (delete name (_outputs d))).
  - reflexivity.
  - rewrite (bind_Ok _ _ d d ∅) by (by apply getitem_Some). reflexivity.
Qed.

(** X3: adding a module whose name is in none of the three maps and removing
    it again gives back the dataflow as it was, and the module object as a
    Zombie. *)
Theorem add_remove_module_round_trip (m : Mod.t) (df : t) :
  Mod.is_created m = true →
  _modules df !! Mod.name m = None →
  _inputs df !! Mod.name m = None →
  _outputs df !! Mod.name m = None →
  (add_module m;; remove_module (inr m)) df
  = Ok (Mod.with_state Mod.state_zombie m) df.
Proof.
  intros Hcreated Hmods Hins Houts.
  rewrite (bind_Ok _ _ _ _ _ (add_module_Ok m df Hcreated Hins)).
  set (d1 := mk (<[Mod.name m:=m]> (_modules df))
                (<[Mod.name m:=∅]> (_inputs df))
                (<[Mod.name m:=∅]> (_outputs df))).
  unfold remove_module.
  rewrite (bind_Ok _ _ d1 d1 m) by reflexivity.
  rewrite (bind_Ok _ _ d1 d1 (tt, Mod.with_state Mod.state_zombie m))
    by reflexivity.
  rewrite (bind_Ok get _ d1 d1 d1) by reflexivity.
  change (Mod.name (Mod.with_state Mod.state_zombie m)) with (Mod.name m).
  rewrite (bind_Ok _ _ d1 d1 (delete (Mod.name m) (_modules d1))).
  2:{ unfold delitem.
      rewrite (bind_Ok _ _ d1 d1 m)
        by (apply getitem_Some, lookup_insert_eq).
      reflexivity. }
  set (d2 := with_modules (fun _ => delete (Mod.name m) (_modules d1)) d1).
  rewrite (bind_Ok _ _ d1 d2 tt) by reflexivity.
  rewrite (bind_Ok _ _ _ _ tt
             (remove_module_inputs_unbound (Mod.name m) d2
                (lookup_insert_eq _ _ _))).
  set (d3 := with_inputs (fun _ => delete (Mod.name m) (_inputs d2)) d2).
  rewrite (bind_Ok _ _ _ _ tt
             (remove_module_outputs_unbound (Mod.name m) d3
                (lookup_insert_eq _ _ _))).
  unfold mret, M_ret, ret. f_equal.
  unfold d3, d2, d1, with_outputs, with_inputs, with_modules. cbn.
  rewrite !delete_insert_eq, !delete_id by done.
  by destruct df.
Qed.

(** X3 at work: module p enters and leaves the empty dataflow. *)
Lemma add_remove_module_round_trip_witness :
  (add_module Examples.new_p;; remove_module (inr Examples.new_p)) empty
  = Ok (Mod.with_state Mod.state_zombie Examples.new_p) empty.
Proof.
  apply (add_remove_module_round_trip Examples.new_p empty); reflexivity.
Defined.
End DataflowMore.

(** ** The wiring invariant of the dataflow *)
Section DataflowLinked.
Import Dataflow DataflowOps.

(** What [add_connection] has done when it returns. *)
Lemma add_connection_Ok (df df' : t) (p c : Mod.t) (oname iname : string) :
  add_connection p oname c iname df = Ok tt df' →
  ∃ ins, _inputs df !! Mod.name c = Some ins ∧ ins !! iname = None
    ∧ (∀ outs, _outputs df !! Mod.name p = Some outs → outs !! oname = None)
    ∧ df' = mk (_modules df)
               (<[Mod.name c := <[iname := mkSlot (Mod.name p) oname]> ins]>
                  (_inputs df))
               (<[Mod.name p :=
                    <[oname := [mkSlot (Mod.name c) iname]]>
                      (default ∅ (_outputs df !! Mod.name p))]>
                  (_outputs df)).
Proof.
  unfold add_connection. unfold_M.
  destruct (_inputs df !! Mod.name c) as [ins|] eqn:Hins; [| done].
  case_bool_decide as Hfree; [| done]. cbn.
  destruct (_outputs df !! Mod.name p) as [outs|] eqn:Houts.
  - destruct (outs !! oname) eqn:Ho; [done |].
    intros [= <-]. exists ins. split; [done |]. split; [done |].
    split; [by intros ? [= <-] |]. reflexivity.
  - intros [= <-]. exists ins. split; [done |]. split; [done |].
    split; [done |]. cbn. by rewrite insert_empty.
Qed.

Lemma linked_empty : linked empty.
Proof.
  split.
  - intros c i p o ins Hc. cbn in Hc. by rewrite lookup_empty in Hc.
  - intros p o c i outs fan Hp. cbn in Hp. by rewrite lookup_empty in Hp.
Qed.

Lemma linked_add_module (m : Mod.t) (df df' : t) :
  linked df → _outputs df !! Mod.name m = None →
  add_module m df = Ok tt df' → linked df'.
Proof.
  intros [Hfwd Hbwd] Houts Hrun.
  assert (Hcreated : Mod.is_created m = true).
  { unfold add_module in Hrun. unfold_M in Hrun.
    by destruct (Mod.is_created m). }
  assert (Hins : _inputs df !! Mod.name m = None).
  { unfold add_module in Hrun. unfold_M in Hrun.
    rewrite Hcreated in Hrun. cbn in Hrun.
    by case_bool_decide. }
  rewrite (add_module_Ok m df Hcreated Hins) in Hrun.
  injection Hrun as <-. split; cbn.
  - intros c i p o ins Hc Hi.
    destruct (decide (Mod.name m = c)) as [<- | Hne].
    { rewrite lookup_insert_eq in Hc. injection Hc as <-.
      by rewrite lookup_empty in Hi. }
    rewrite lookup_insert_ne in Hc by done.
    destruct (Hfwd c i p o ins Hc Hi) as (outs & fan & Hp & Ho & Hin).
    exists outs, fan. split; [| done].
    rewrite lookup_insert_ne; [done |]. intros <-. by rewrite Houts in Hp.
  - intros p o c i outs fan Hp Ho Hin.
    destruct (decide (Mod.name m = p)) as [<- | Hne].
    { rewrite lookup_insert_eq in Hp. injection Hp as <-.
      by rewrite lookup_empty in Ho. }
    rewrite lookup_insert_ne in Hp by done.
    destruct (Hbwd p o c i outs fan Hp Ho Hin) as (ins & Hc & Hi).
    exists ins. split; [| done].
    rewrite lookup_insert_ne; [done |]. intros <-. by rewrite Hins in Hc.
Qed.

Lemma linked_add_connection (df df' : t) (p c : Mod.t)
      (oname iname : string) :
  linked df → add_connection p oname c iname df = Ok tt df' → linked df'.
Proof.
  intros [Hfwd Hbwd] Hrun.
  destruct (add_connection_Ok _ _ _ _ _ _ Hrun)
    as (ins0 & Hins0 & Hfree & Hfresh & ->).
  assert (Hno_fan : ∀ outs fan, _outputs df !! Mod.name p = Some outs →
                                outs !! oname = Some fan → False).
  { intros outs fan Hp Ho. by rewrite (Hfresh outs Hp) in Ho. }
  split; cbn.
  - intros c' i p' o ins Hc Hi.
    assert (Hcase : (c' = Mod.name c ∧ i = iname
                     ∧ p' = Mod.name p ∧ o = oname)
                    ∨ ∃ ins', _inputs df !! c' = Some ins'
                              ∧ ins' !! i = Some (mkSlot p' o)).
    { destruct (decide (Mod.name c = c')) as [<- | Hne].
      - rewrite lookup_insert_eq in Hc. injection Hc as <-.
        destruct (decide (iname = i)) as [<- | Hne'].
        + rewrite lookup_insert_eq in Hi. injection Hi as <- <-. by left.
        + rewrite lookup_insert_ne in Hi by done. right. by exists ins0.
      - rewrite lookup_insert_ne in Hc by done. right. by exists ins. }
    destruct Hcase as [(-> & -> & -> & ->) | (ins' & Hc' & Hi')].
    + eexists _, _. split; [apply lookup_insert_eq |].
      split; [apply lookup_insert_eq |]. left.
    + destruct (Hfwd c' i p' o ins' Hc' Hi') as (outs & fan & Hp & Ho & Hin).
      destruct (decide (Mod.name p = p')) as [<- | Hne].
      * rewrite Hp. cbn. eexists _, fan. split; [apply lookup_insert_eq |].
        split; [| done]. rewrite lookup_insert_ne; [done |].
        intros <-. by eapply Hno_fan.
      * exists outs, fan. split; [by rewrite lookup_insert_ne |]. done.
  - intros p' o c' i outs fan Hp Ho Hin.
    assert (Hcase : (p' = Mod.name p ∧ o = oname
                     ∧ fan = [mkSlot (Mod.name c) iname])
                    ∨ ∃ outs', _outputs df !! p' = Some outs'
                               ∧ outs' !! o = Some fan).
    { destruct (decide (Mod.name p = p')) as [<- | Hne].
      - rewrite lookup_insert_eq in Hp. injection Hp as <-.
        destruct (decide (oname = o)) as [<- | Hne'].
        + rewrite lookup_insert_eq in Ho. injection Ho as <-. by left.
        + rewrite lookup_insert_ne in Ho by done. right.
          destruct (_outputs df !! Mod.name p) as [outs'|]; cbn in Ho.
          * by exists outs'.
          * by rewrite lookup_empty in Ho.
      - rewrite lookup_insert_ne in Hp by done. right. by exists outs. }
    destruct Hcase as [(-> & -> & ->) | (outs' & Hp' & Ho')].
    + apply list_elem_of_singleton in Hin. injection Hin as -> ->.
      eexists. split; [apply lookup_insert_eq | apply lookup_insert_eq].
    + destruct (Hbwd p' o c' i outs' fan Hp' Ho' Hin) as (ins & Hc & Hi).
      destruct (decide (Mod.name c = c')) as [<- | Hne].
      * rewrite Hins0 in Hc. injection Hc as <-.
        eexists. split; [apply lookup_insert_eq |].
        rewrite lookup_insert_ne; [done |]. intros <-.
        by rewrite Hfree in Hi.
      * exists ins. split; [by rewrite lookup_insert_ne |]. done.
Qed.

(** X4: the two directions of the wiring stay in agreement: they agree in
    the empty dataflow, after [add_module] of a name that has no output entry
    yet, and after every [add_connection] that returns. *)
Theorem linked_invariant (df df' : t) (m p c : Mod.t)
        (oname iname : string) :
  linked df →
  linked empty
  ∧ (_outputs df !! Mod.name m = None → add_module m df = Ok tt df' →
     linked df')
  ∧ (add_connection p oname c iname df = Ok tt df' → linked df').
Proof.
  intros Hlinked. split; [apply linked_empty |]. split.
  - by apply linked_add_module.
  - by apply linked_add_connection.
Qed.

(** X4 at work: the dataflow p.o → c.i, built call by call. *)
Lemma linked_invariant_witness : linked Examples.wired.
Proof.
  set (d1 := result_state (add_module Examples.new_p empty)).
  set (d2 := result_state (add_module Examples.new_c d1)).
  assert (H1 : linked d1).
  { destruct (linked_invariant empty d1 Examples.new_p Examples.new_p
                Examples.new_p "o" "i" linked_empty) as (_ & Hadd & _).
    apply Hadd; reflexivity. }
  assert (H2 : linked d2).
  { destruct (linked_invariant d1 d2 Examples.new_c Examples.new_p
                Examples.new_p "o" "i" H1) as (_ & Hadd & _).
    apply Hadd; vm_compute; reflexivity. }
  assert (H3 : linked Examples.unwired).
  { destruct (linked_invariant d2 Examples.unwired Examples.new_c2
                Examples.new_p Examples.new_p "o" "i" H2) as (_ & Hadd & _).
    apply Hadd; vm_compute; reflexivity. }
  destruct (linked_invariant Examples.unwired Examples.wired Examples.new_p
              Examples.new_p Examples.new_c "o" "i" H3) as (_ & _ & Hconn).
  apply Hconn. vm_compute. reflexivity.
Defined.
End DataflowLinked.

(** ** Dependencies, validation and names in the dataflow *)
Section DataflowQueries.
Import Dataflow DataflowOps.

(** X5: [collect_dependencies] has one entry per entry of the input map, and
    the entry of a module holds exactly the producers its inputs are bound
    to. *)
Theorem collect_dependencies_producers (df : t) :
  dom (collect_dependencies df) = dom (_inputs df)
  ∧ ∀ c deps p,
      collect_dependencies df !! c = Some deps →
      p ∈ deps
      ↔ ∃ ins i o, _inputs df !! c = Some ins
                   ∧ ins !! i = Some (mkSlot p o).
Proof.
  unfold collect_dependencies. split; [apply dom_fmap_L |].
  intros c deps p Hc. rewrite lookup_fmap in Hc.
  destruct (_inputs df !! c) as [ins|] eqn:Hins; [| done].
  injection Hc as <-.
  rewrite elem_of_list_to_set, list_elem_of_fmap. split.
  - intros ([p' o] & -> & Hin). apply list_elem_of_fmap in Hin.
    destruct Hin as ([i s] & Heq & Hin). cbn in Heq. subst s.
    apply elem_of_map_to_list in Hin. exists ins, i, o. done.
  - intros (ins' & i & o & [= <-] & Hi). exists (mkSlot p o).
    split; [done |]. apply list_elem_of_fmap. exists (i, mkSlot p o).
    split; [done |]. by apply elem_of_map_to_list.
Qed.

(** X6: a connection that is added adds its producer to the dependencies of
    its consumer and changes no other entry. *)
Theorem add_connection_adds_dependency (df df' : t) (p c : Mod.t)
        (oname iname : string) :
  add_connection p oname c iname df = Ok tt df' →
  ∃ deps, collect_dependencies df !! Mod.name c = Some deps
    ∧ collect_dependencies df'
      = <[Mod.name c := {[Mod.name p]} ∪ deps]> (collect_dependencies df).
Proof.
  intros Hrun.
  destruct (add_connection_Ok _ _ _ _ _ _ Hrun)
    as (ins & Hins & Hfree & _ & ->).
  unfold collect_dependencies. cbn [_inputs].
  exists (list_to_set (module <$> (map_to_list ins).*2)).
  split; [by rewrite lookup_fmap, Hins |].
  rewrite fmap_insert. f_equal.
  apply set_eq. intros x.
  rewrite elem_of_union, elem_of_singleton, !elem_of_list_to_set,
    !list_elem_of_fmap.
  split.
  - intros ([p' o] & -> & Hin). apply list_elem_of_fmap in Hin.
    destruct Hin as ([i s] & Heq & Hin). cbn in Heq. subst s.
    apply elem_of_map_to_list in Hin.
    cbn. destruct (decide (iname = i)) as [<- | Hne].
    + rewrite lookup_insert_eq in Hin. injection Hin as <- <-. by left.
    + rewrite lookup_insert_ne in Hin by done. right.
      exists (mkSlot p' o). split; [done |].
      apply list_elem_of_fmap. exists (i, mkSlot p' o).
      split; [done |]. by apply elem_of_map_to_list.
  - intros [-> | ([p' o] & -> & Hin)].
    + exists (mkSlot (Mod.name p) oname). split; [done |].
      apply list_elem_of_fmap. exists (iname, mkSlot (Mod.name p) oname).
      split; [done |]. apply elem_of_map_to_list, lookup_insert_eq.
    + apply list_elem_of_fmap in Hin.
      destruct Hin as ([i s] & Heq & Hin). cbn in Heq. subst s.
      apply elem_of_map_to_list in Hin.
      exists (mkSlot p' o). split; [done |].
      apply list_elem_of_fmap. exists (i, mkSlot p' o). split; [done |].
      apply elem_of_map_to_list. rewrite lookup_insert_ne; [done |].
      intros <-. cbn in Hin. by rewrite Hfree in Hin.
Qed.

(** X6 at work in the dataflow of p, c and c2. *)
Lemma add_connection_adds_dependency_witness :
  ∃ deps, collect_dependencies Examples.unwired !! "c"%string = Some deps
    ∧ collect_dependencies Examples.wired
      = <["c"%string := {["p"%string]} ∪ deps]>
          (collect_dependencies Examples.unwired).
Proof.
  apply (add_connection_adds_dependency Examples.unwired Examples.wired
           Examples.new_p Examples.new_c "o" "i").
  vm_compute. reflexivity.
Defined.

(** The loop of [validate_module] answers whether every required input has
    a slot. *)
Lemma required_bound_true (inputs : gmap string Slot)
      (sds : list (string * SlotDescriptor)) :
  required_bound inputs sds = true
  ↔ ∀ n sd, (n, sd) ∈ sds → required sd = true → is_Some (inputs !! n).
Proof.
  induction sds as [|[n sd] rest IH]; cbn [required_bound].
  - split; [| done]. intros _ n sd Hin. by apply elem_of_nil in Hin.
  - destruct (required sd) eqn:Hreq; cbn [andb].
    + case_bool_decide as Hnone.
      * split; [done |]. intros Hall.
        destruct (Hall n sd) as [x Hx]; [left | done |]. congruence.
      * rewrite IH. split.
        -- intros Hall n' sd' Hin Hreq'. apply elem_of_cons in Hin.
           destruct Hin as [[= -> ->] | Hin]; [| by eapply Hall].
           by apply not_eq_None_Some.
        -- intros Hall n' sd' Hin. apply Hall. by right.
    + rewrite IH. split.
      * intros Hall n' sd' Hin Hreq'. apply elem_of_cons in Hin.
        destruct Hin as [[= -> ->] | Hin]; [congruence | by eapply Hall].
      * intros Hall n' sd' Hin. apply Hall. by right.
Qed.

Lemma required_bound_false (inputs : gmap string Slot)
      (sds : list (string * SlotDescriptor)) :
  required_bound inputs sds = false
  ↔ ∃ n sd, (n, sd) ∈ sds ∧ required sd = true ∧ inputs !! n = None.
Proof.
  induction sds as [|[n sd] rest IH]; cbn [required_bound].
  - split; [done |]. intros (n & sd & Hin & _). by apply elem_of_nil in Hin.
  - destruct (required sd) eqn:Hreq; cbn [andb].
    + case_bool_decide as Hnone.
      * split; [| done]. intros _. exists n, sd. split; [left | done].
      * rewrite IH. split.
        -- intros (n' & sd' & Hin & Hreq' & Hn). exists n', sd'.
           split; [by right | done].
        -- intros (n' & sd' & Hin & Hreq' & Hn). apply elem_of_cons in Hin.
           destruct Hin as [[= -> ->] | Hin]; [done |]. by exists n', sd'.
    + rewrite IH. split.
      * intros (n' & sd' & Hin & Hreq' & Hn). exists n', sd'.
        split; [by right | done].
      * intros (n' & sd' & Hin & Hreq' & Hn). apply elem_of_cons in Hin.
        destruct Hin as [[= -> ->] | Hin]; [congruence |]. by exists n', sd'.
Qed.

Lemma validate_loop_Ok (mods : list Mod.t) (df : t) :
  (∀ m, m ∈ mods → is_Some (_inputs df !! Mod.name m)) →
  ∃ invalid, validate_loop mods df = inr invalid
    ∧ ∀ m, m ∈ invalid ↔ m ∈ mods ∧ validate_module m df = inr false.
Proof.
  induction mods as [|m rest IH]; intros Hall.
  - exists []. split; [done |]. intros m. split.
    + intros Hin. by apply elem_of_nil in Hin.
    + intros [Hin _]. by apply elem_of_nil in Hin.
  - destruct IH as (invalid & Hrest & Hspec).
    { intros m' Hin. apply Hall. by right. }
    destruct (Hall m) as [ins Hins]; [left |].
    assert (Hm : ∃ b, validate_module m df = inr b).
    { unfold validate_module. rewrite Hins. cbn. by eexists. }
    destruct Hm as [b Hm].
    cbn [validate_loop]. rewrite Hm, Hrest. cbn.
    eexists. split; [reflexivity |]. intros m'.
    destruct b.
    + rewrite Hspec. split.
      * intros [Hin Hf]. split; [by right | done].
      * intros [Hin Hf]. apply elem_of_cons in Hin.
        destruct Hin as [-> | Hin]; [congruence | done].
    + rewrite elem_of_cons, Hspec. split.
      * intros [-> | [Hin Hf]]; [split; [left | done] |].
        split; [by right | done].
      * intros [Hin Hf]. apply elem_of_cons in Hin.
        destruct Hin as [-> | Hin]; [by left | by right].
Qed.

(** X7: in a dataflow where every module has its entry in the input map,
    [validate] returns, and the list it returns holds exactly the modules
    with a required input descriptor that has no slot; it is empty iff every
    required input of every module is bound. *)
Theorem validate_lists_unbound_required (df : t) :
  (∀ name m, _modules df !! name = Some m →
             is_Some (_inputs df !! Mod.name m)) →
  ∃ invalid, validate df = inr invalid
    ∧ (∀ m, m ∈ invalid
            ↔ (∃ name, _modules df !! name = Some m)
              ∧ ∃ ins n sd, _inputs df !! Mod.name m = Some ins
                            ∧ Mod.input_descriptors m !! n = Some sd
                            ∧ required sd = true ∧ ins !! n = None)
    ∧ (invalid = []
       ↔ ∀ name m ins n sd,
           _modules df !! name = Some m →
           _inputs df !! Mod.name m = Some ins →
           Mod.input_descriptors m !! n = Some sd → required sd = true →
           is_Some (ins !! n)).
Proof.
  intros Hall. unfold validate.
  assert (Hvals : ∀ m, m ∈ (map_to_list (_modules df)).*2
                       ↔ ∃ name, _modules df !! name = Some m).
  { intros m. rewrite list_elem_of_fmap. split.
    - intros ([name m'] & -> & Hin). exists name.
      by apply elem_of_map_to_list.
    - intros [name Hm]. exists (name, m). split; [done |].
      by apply elem_of_map_to_list. }
  destruct (validate_loop_Ok (map_to_list (_modules df)).*2 df)
    as (invalid & Hrun & Hspec).
  { intros m Hin. apply Hvals in Hin. destruct Hin as [name Hm].
    by eapply Hall. }
  assert (Hfalse : ∀ m, validate_module m df = inr false
            ↔ ∃ ins n sd, _inputs df !! Mod.name m = Some ins
                          ∧ Mod.input_descriptors m !! n = Some sd
                          ∧ required sd = true ∧ ins !! n = None).
  { intros m. unfold validate_module.
    destruct (_inputs df !! Mod.name m) as [ins|]; cbn.
    - split.
      + intros [= Hb]. apply required_bound_false in Hb.
        destruct Hb as (n & sd & Hin & Hreq & Hnone).
        exists ins, n, sd. split; [done |].
        split; [by apply elem_of_map_to_list | done].
      + intros (ins' & n & sd & [= <-] & Hsd & Hreq & Hnone). f_equal.
        apply not_true_iff_false. rewrite required_bound_true.
        intros Hb. destruct (Hb n sd) as [x Hx]; [| done |].
        * by apply elem_of_map_to_list.
        * congruence.
    - split; [done |]. by intros (ins' & n & sd & [=] & _). }
  exists invalid. split; [done |]. split.
  - intros m. by rewrite Hspec, Hvals, Hfalse.
  - split.
    + intros -> name m ins n sd Hm Hins Hsd Hreq.
      destruct (ins !! n) eqn:Hn; [done |]. exfalso.
      apply (elem_of_nil m), Hspec. split; [apply Hvals; by exists name |].
      apply Hfalse. by exists ins, n, sd.
    + intros Hbound. destruct invalid as [|m rest]; [done |]. exfalso.
      assert (Hin : m ∈ m :: rest) by left.
      apply Hspec in Hin. destruct Hin as [Hin Hf].
      apply Hvals in Hin. destruct Hin as [name Hm].
      apply Hfalse in Hf. destruct Hf as (ins & n & sd & Hins & Hsd & Hreq & Hn).
      destruct (Hbound name m ins n sd Hm Hins Hsd Hreq) as [x Hx].
      congruence.
Qed.

(** X7 at work in the dataflow where c is wired to p and c2 is not. *)
Lemma validate_lists_unbound_required_witness :
  ∃ invalid, validate Examples.wired = inr invalid
    ∧ (∀ m, m ∈ invalid
            ↔ (∃ name, _modules Examples.wired !! name = Some m)
              ∧ ∃ ins n sd, _inputs Examples.wired !! Mod.name m = Some ins
                            ∧ Mod.input_descriptors m !! n = Some sd
                            ∧ required sd = true ∧ ins !! n = None)
    ∧ (invalid = []
       ↔ ∀ name m ins n sd,
           _modules Examples.wired !! name = Some m →
           _inputs Examples.wired !! Mod.name m = Some ins →
           Mod.input_descriptors m !! n = Some sd → required sd = true →
           is_Some (ins !! n)).
Proof.
  apply (validate_lists_unbound_required Examples.wired).
  apply (bool_decide_unpack
           (map_Forall (fun _ m => is_Some (_inputs Examples.wired
                                              !! Mod.name m))
                       (_modules Examples.wired))).
  vm_compute. reflexivity.
Defined.
End DataflowQueries.

Section GenerateName.
Import Dataflow DataflowOps.
Local Open Scope nat_scope.
Context {V : Type}.
Implicit Types (modules : gmap string V) (prefix uuid : string).

Lemma first_free_seq modules prefix (a n : nat) :
  match first_free modules prefix (seq a n) with
  | Some mid =>
      ∃ i, a ≤ i < a + n ∧ mid = name_of prefix i ∧ modules !! mid = None
           ∧ ∀ j, a ≤ j < i → is_Some (modules !! name_of prefix j)
  | None => ∀ j, a ≤ j < a + n → is_Some (modules !! name_of prefix j)
  end.
Proof.
  revert a. induction n as [|n IH]; intros a; cbn [seq first_free].
  - intros j Hj. lia.
  - case_bool_decide as Hfree.
    + exists a. split; [lia |]. split; [done |]. split; [done |].
      intros j Hj. lia.
    + specialize (IH (S a)).
      assert (Ha : is_Some (modules !! name_of prefix a))
        by by apply not_eq_None_Some.
      destruct (first_free modules prefix (seq (S a) n)) as [mid|].
      * destruct IH as (i & Hi & -> & Hnone & Hbelow).
        exists i. split; [lia |]. split; [done |]. split; [done |].
        intros j Hj. destruct (decide (j = a)) as [-> | Hne]; [done |].
        apply Hbelow. lia.
      * intros j Hj. destruct (decide (j = a)) as [-> | Hne]; [done |].
        apply IH. lia.
Qed.

Lemma name_of_inj prefix : Inj (=) (=) (name_of prefix).
Proof.
  intros i j Heq. unfold name_of in Heq.
  apply (inj (String.app prefix)) in Heq.
  apply (inj (String.app "_")) in Heq.
  by apply (inj pretty) in Heq.
Qed.

(** X8: [generate_name] returns the candidate [prefix_i] with the least [i]
    from 1 to 9 that is not the name of a module, and that name is free; it
    falls back on the uuid only when all nine candidates are taken, which
    needs at least nine modules. *)
Theorem generate_name_first_free modules uuid prefix :
  ((∃ i, 1 ≤ i ≤ 9
        ∧ generate_name_in modules uuid prefix = name_of prefix i
        ∧ modules !! name_of prefix i = None
        ∧ ∀ j, 1 ≤ j < i → is_Some (modules !! name_of prefix j))
   ∨ (generate_name_in modules uuid prefix = prefix +:+ "_" +:+ uuid
      ∧ ∀ j, 1 ≤ j ≤ 9 → is_Some (modules !! name_of prefix j)))
  ∧ (size modules < 9 →
     modules !! generate_name_in modules uuid prefix = None).
Proof.
  unfold generate_name_in.
  pose proof (first_free_seq modules prefix 1 9) as Hseq.
  destruct (first_free modules prefix (seq 1 9)) as [mid|].
  - destruct Hseq as (i & Hi & -> & Hnone & Hbelow). split; [| done].
    left. exists i. split; [lia |]. done.
  - split.
    + right. split; [done |]. intros j Hj. apply Hseq. lia.
    + intros Hsize. exfalso.
      assert (Hsub : list_to_set (name_of prefix <$> seq 1 9)
                     ⊆ dom modules).
      { intros x Hx. apply elem_of_list_to_set, list_elem_of_fmap in Hx.
        destruct Hx as (j & -> & Hj). apply elem_of_seq in Hj.
        apply elem_of_dom, Hseq. lia. }
      apply subseteq_size in Hsub.
      rewrite size_list_to_set, length_fmap, length_seq, size_dom in Hsub.
      * lia.
      * apply NoDup_fmap; [apply name_of_inj | apply NoDup_seq].
Qed.
End GenerateName.

(** ** Slots and validation of a module *)
Section ModuleSlots.
Import Mod ModOps.

Lemma validate_descriptors_loop_spec
      (ds : list (string * SlotDescriptor))
      (slots : gmap string (option Slot.t)) :
  (NoDup ds.*1 ∧ (∀ n, n ∈ ds.*1 → slots !! n = None)
   ∧ _validate_descriptors_loop ds slots
     = inr (list_to_map ((fun d => (d.1, None)) <$> ds) ∪ slots))
  ∨ ((¬ NoDup ds.*1 ∨ ∃ n, n ∈ ds.*1 ∧ is_Some (slots !! n))
     ∧ _validate_descriptors_loop ds slots = inl ProgressiveError).
Proof.
  revert slots. induction ds as [|[n sd] rest IH]; intros slots.
  - left. split; [constructor |]. split.
    + intros n Hn. by apply elem_of_nil in Hn.
    + cbn. by rewrite (left_id_L ∅ (∪)).
  - cbn [_validate_descriptors_loop fmap list_fmap fst].
    case_bool_decide as Hn.
    + right. split; [| done]. right. exists n. split; [left | done].
    + apply eq_None_not_Some in Hn.
      destruct (IH (<[n := None]> slots))
        as [(Hnd & Hfree & Hrun) | (Hbad & Hrun)].
      * left. split; [| split].
        -- constructor; [| done]. intros Hin.
           specialize (Hfree n Hin). by rewrite lookup_insert_eq in Hfree.
        -- intros n' Hin. apply elem_of_cons in Hin.
           destruct Hin as [-> | Hin]; [done |].
           specialize (Hfree n' Hin).
           destruct (decide (n = n')) as [-> | Hne].
           ++ by rewrite lookup_insert_eq in Hfree.
           ++ by rewrite lookup_insert_ne in Hfree.
        -- rewrite Hrun. f_equal. cbn [list_to_map foldr fst snd].
           rewrite <- insert_union_l. symmetry. apply insert_union_r.
           apply not_elem_of_list_to_map_1.
           rewrite <- list_fmap_compose. intros Hin.
           specialize (Hfree n Hin).
           by rewrite lookup_insert_eq in Hfree.
      * right. split; [| done].
        destruct Hbad as [Hdup | (n' & Hin & Hsome)].
        -- left. intros Hnd. apply Hdup. by apply NoDup_cons in Hnd as [_ ?].
        -- destruct (decide (n = n')) as [<- | Hne].
           ++ left. intros Hnd. by apply NoDup_cons in Hnd as [? _].
           ++ rewrite lookup_insert_ne in Hsome by done.
              right. exists n'. split; [by right | done].
Qed.

Lemma dom_descriptors_dict (ds : list (string * SlotDescriptor)) :
  dom (descriptors_dict ds) = list_to_set ds.*1.
Proof.
  unfold descriptors_dict.
  assert (Hgen : ∀ d : gmap string SlotDescriptor,
             dom (foldl (fun d p => <[p.1 := p.2]> d) d ds)
             = list_to_set ds.*1 ∪ dom d).
  { induction ds as [|[n sd] rest IH]; intros d; cbn.
    - by rewrite (left_id_L ∅ (∪)).
    - rewrite IH, dom_insert_L.
      by rewrite (assoc_L (∪)), (comm_L (∪) {[n]}). }
  rewrite Hgen, dom_empty_L. by rewrite (right_id_L ∅ (∪)).
Qed.

(** X9: [_validate_descriptors] returns exactly when the names of the
    descriptors are distinct, and then the slots it returns are the names of
    the descriptors, all unbound; any repeated name raises
    [ProgressiveError]. *)
Theorem validate_descriptors_rejects_duplicates
        (ds : list (string * SlotDescriptor)) :
  (NoDup ds.*1 →
   ∃ slots, _validate_descriptors ds = inr slots
     ∧ dom slots = dom (descriptors_dict ds)
     ∧ ∀ n, n ∈ ds.*1 → slots !! n = Some None)
  ∧ (¬ NoDup ds.*1 → _validate_descriptors ds = inl ProgressiveError).
Proof.
  unfold _validate_descriptors.
  destruct (validate_descriptors_loop_spec ds ∅)
    as [(Hnd & _ & Hrun) | ([Hdup | (n & _ & Hsome)] & Hrun)].
  - split; [| done]. intros _. eexists. split; [exact Hrun |].
    rewrite (right_id_L ∅ (∪)). split.
    + rewrite dom_descriptors_dict, dom_list_to_map_L.
      by rewrite <- list_fmap_compose.
    + intros n Hin. apply elem_of_list_to_map.
      * by rewrite <- list_fmap_compose.
      * apply list_elem_of_fmap in Hin. destruct Hin as ([n' sd] & -> & Hin).
        apply list_elem_of_fmap. by exists (n', sd).
  - split; [done |]. by intros _.
  - rewrite lookup_empty in Hsome. by destruct Hsome.
Qed.

Lemma validate_inputs_loop_Ok (sds : list (string * SlotDescriptor))
      (valid : bool) (m : t) :
  (∀ n sd, (n, sd) ∈ sds → is_Some (_input_slots m !! n)) →
  ∃ b, validate_inputs_loop sds valid m = Ok b m
    ∧ (b = true
       ↔ valid = true
         ∧ ∀ n sd, (n, sd) ∈ sds → required sd = true →
                   ∃ slot, _input_slots m !! n = Some (Some slot)).
Proof.
  revert valid. induction sds as [|[n sd] rest IH]; intros valid Hkeys.
  - exists valid. split; [done |]. split; [| tauto].
    intros ->. split; [done |]. intros n sd Hin.
    by apply elem_of_nil in Hin.
  - destruct (Hkeys n sd) as [slot Hslot]; [left |].
    assert (Hrest : ∀ n sd, (n, sd) ∈ rest → is_Some (_input_slots m !! n)).
    { intros n' sd' Hin. apply (Hkeys n' sd'). by right. }
    cbn [validate_inputs_loop]. unfold_M. rewrite Hslot.
    destruct (required sd) eqn:Hreq; cbn [andb].
    + case_bool_decide as Hnone.
      * destruct (IH false Hrest) as (b & Hrun & Hb).
        exists b. split; [exact Hrun |]. split.
        -- intros Htrue. apply Hb in Htrue. by destruct Htrue.
        -- intros [_ Hall]. destruct (Hall n sd) as [x Hx]; [left | done |].
           congruence.
      * destruct (IH valid Hrest) as (b & Hrun & Hb).
        exists b. split; [exact Hrun |]. rewrite Hb. split.
        -- intros [Hv Hall]. split; [done |]. intros n' sd' Hin Hreq'.
           apply elem_of_cons in Hin.
           destruct Hin as [[= -> ->] | Hin]; [| by eapply Hall].
           destruct slot as [slot|]; [by exists slot | done].
        -- intros [Hv Hall]. split; [done |]. intros n' sd' Hin.
           apply Hall. by right.
    + destruct (IH valid Hrest) as (b & Hrun & Hb).
      exists b. split; [exact Hrun |]. rewrite Hb. split.
      * intros [Hv Hall]. split; [done |]. intros n' sd' Hin Hreq'.
        apply elem_of_cons in Hin.
        destruct Hin as [[= -> ->] | Hin]; [congruence | by eapply Hall].
      * intros [Hv Hall]. split; [done |]. intros n' sd' Hin.
        apply Hall. by right.
Qed.

Lemma validate_inputs_loop_KeyError (sds : list (string * SlotDescriptor))
      (valid : bool) (m : t) :
  (∃ n sd, (n, sd) ∈ sds ∧ _input_slots m !! n = None) →
  validate_inputs_loop sds valid m = Raise KeyError m.
Proof.
  revert valid. induction sds as [|[n sd] rest IH];
    intros valid (n' & sd' & Hin & Hnone).
  - by apply elem_of_nil in Hin.
  - cbn [validate_inputs_loop]. unfold_M.
    destruct (_input_slots m !! n) as [slot|] eqn:Hslot; [| done].
    apply elem_of_cons in Hin.
    destruct Hin as [[= -> ->] | Hin]; [congruence |].
    destruct (required sd && bool_decide (slot = None));
      apply IH; by exists n', sd'.
Qed.

Lemma validate_inputs_Ok (m : t) :
  (∀ n, is_Some (input_descriptors m !! n) →
        is_Some (_input_slots m !! n)) →
  ∃ b, validate_inputs m = Ok b m
    ∧ (b = true
       ↔ ∀ n sd, input_descriptors m !! n = Some sd → required sd = true →
                 ∃ slot, _input_slots m !! n = Some (Some slot)).
Proof.
  intros Hkeys. unfold validate_inputs. unfold_M.
  destruct (validate_inputs_loop_Ok
              (map_to_list (input_descriptors m)) true m)
    as (b & Hrun & Hb).
  { intros n sd Hin. apply elem_of_map_to_list in Hin. apply Hkeys.
    by rewrite Hin. }
  exists b. split; [exact Hrun |]. rewrite Hb. split.
  - intros [_ Hall] n sd Hsd. apply Hall. by apply elem_of_map_to_list.
  - intros Hall. split; [done |]. intros n sd Hin. apply Hall.
    by apply elem_of_map_to_list.
Qed.

Lemma set_state_Ok (s : Z) (m : t) :
  state_created ≤ s ≤ state_invalid →
  set_state s m = Ok tt (with_state s m).
Proof.
  intros [Hlo Hhi]. unfold set_state. unfold_M.
  apply Z.leb_le in Hlo, Hhi. by rewrite Hlo, Hhi.
Qed.

End ModuleSlots.

(** ** The life cycle of a module *)
Section LifeCycle.
Import Mod ModOps.

Lemma is_ready_cases (heap heap' : gmap string t) (self : string)
      (b : bool) :
  is_ready heap self = Some (b, heap') →
  ∃ m, heap !! self = Some m
    ∧ ((heap' = heap
        ∧ (state m = state_zombie → False)
        ∧ (b = true → state m ≠ state_terminated
                      ∧ state m ≠ state_invalid)
        ∧ (state m = state_terminated → b = false))
       ∨ (b = false ∧ state m = state_zombie
          ∧ heap' = <[self := with_state state_terminated m]> heap)
       ∨ (b = false ∧ state m = state_blocked ∧ is_input m = false
          ∧ has_any_input m = true
          ∧ heap' = <[self := with_state state_zombie m]> heap)).
Proof.
  unfold is_ready. intros Hrun.
  destruct (heap !! self) as [m|] eqn:Hm; [| done]. cbn in Hrun.
  exists m. split; [done |].
  destruct (state m =? state_zombie) eqn:Hz.
  { injection Hrun as <- <-. right. left. by apply Z.eqb_eq in Hz. }
  apply Z.eqb_neq in Hz.
  destruct (state m =? state_terminated) eqn:Ht.
  { injection Hrun as <- <-. left. done. }
  apply Z.eqb_neq in Ht.
  destruct (state m =? state_invalid) eqn:Hi.
  { injection Hrun as <- <-. left. done. }
  apply Z.eqb_neq in Hi.
  destruct (has_any_input m) eqn:Hany; cbn in Hrun.
  2:{ injection Hrun as <- <-. left. done. }
  destruct (state m =? state_ready) eqn:Hr.
  { injection Hrun as <- <-. left. done. }
  destruct (state m =? state_blocked) eqn:Hb.
  2:{ injection Hrun as <- <-. left. done. }
  apply Z.eqb_eq in Hb.
  destruct (scan_slots heap (input_slot_values m) _) as [c|]; [| done].
  cbn in Hrun.
  destruct (negb (is_input m) && negb (in_count c =? 0)
            && (term_count c =? in_count c)) eqn:Hdead.
  - injection Hrun as <- <-. right. right.
    destruct (is_input m); [done |]. done.
  - injection Hrun as <- <-. left. done.
Qed.

(** X11: [is_ready] changes nothing but the state of the module it is
    asked about, and only in two ways, both with the answer false: a Zombie
    becomes Terminated, and a Blocked module that is no input module and has
    a bound input may become a Zombie.  An answer of true leaves the heap as
    it is, and the module is then neither Zombie, Terminated nor Invalid. *)
Theorem is_ready_transitions (heap heap' : gmap string t) (self : string)
        (b : bool) :
  is_ready heap self = Some (b, heap') →
  ∃ m, heap !! self = Some m
    ∧ (heap' = heap
       ∨ (b = false ∧ state m = state_zombie
          ∧ heap' = <[self := with_state state_terminated m]> heap)
       ∨ (b = false ∧ state m = state_blocked ∧ is_input m = false
          ∧ has_any_input m = true
          ∧ heap' = <[self := with_state state_zombie m]> heap))
    ∧ (b = true →
       heap' = heap ∧ state m ≠ state_zombie ∧ state m ≠ state_terminated
       ∧ state m ≠ state_invalid).
Proof.
  intros Hrun. destruct (is_ready_cases _ _ _ _ Hrun) as (m & Hm & Hcases).
  exists m. split; [done |].
  destruct Hcases as [(-> & Hz & Htrue & _) | [(-> & Hz & ->)
                                              | (-> & Hb & Hin & Hany & ->)]].
  - split; [by left |]. intros ->. destruct (Htrue eq_refl). done.
  - split; [right; by left | done].
  - split; [right; by right | done].
Qed.

(** X11 at work: the blocked consumer of a terminated producer turns
    Zombie. *)
Lemma is_ready_transitions_witness :
  let heap := MoreExamples.dead_heap in
  let c := Examples.module_in "c" state_blocked
             [("df"%string, Some MoreExamples.slot_drained)] in
  let heap' := <["c"%string := with_state state_zombie c]> heap in
  ∃ m, heap !! "c"%string = Some m
    ∧ (heap' = heap
       ∨ (false = false ∧ state m = state_zombie
          ∧ heap' = <["c"%string := with_state state_terminated m]> heap)
       ∨ (false = false ∧ state m = state_blocked ∧ is_input m = false
          ∧ has_any_input m = true
          ∧ heap' = <["c"%string := with_state state_zombie m]> heap))
    ∧ (false = true →
       heap' = heap ∧ state m ≠ state_zombie ∧ state m ≠ state_terminated
       ∧ state m ≠ state_invalid).
Proof.
  intros heap c heap'.
  apply (is_ready_transitions heap heap' "c" false).
  vm_compute. reflexivity.
Defined.

Lemma is_ready_terminated (heap : gmap string t) (self : string) (m : t) :
  heap !! self = Some m → state m = state_terminated →
  is_ready heap self = Some (false, heap).
Proof.
  intros Hm Hs. unfold is_ready. rewrite Hm. cbn. by rewrite Hs.
Qed.

Lemma is_ready_zombie (heap : gmap string t) (self : string) (m : t) :
  heap !! self = Some m → state m = state_zombie →
  is_ready heap self
  = Some (false, <[self := with_state state_terminated m]> heap).
Proof.
  intros Hm Hs. unfold is_ready. rewrite Hm. cbn. by rewrite Hs.
Qed.

(** X12: two calls of [is_ready] on a module settle it: a third call gives
    the answer of the second and changes nothing, and if the first call
    changed the heap the module is Terminated after the second and is never
    ready again. *)
Theorem is_ready_settles (heap h1 h2 : gmap string t) (self : string)
        (b1 b2 : bool) :
  is_ready heap self = Some (b1, h1) →
  is_ready h1 self = Some (b2, h2) →
  is_ready h2 self = Some (b2, h2)
  ∧ (h1 ≠ heap →
     b2 = false
     ∧ ∃ m, h2 !! self = Some m ∧ state m = state_terminated).
Proof.
  intros Hrun1 Hrun2.
  destruct (is_ready_cases _ _ _ _ Hrun1) as (m & Hm & Hcases).
  destruct Hcases as [(-> & _) | [(-> & Hz & ->)
                                 | (-> & Hb & Hin & Hany & ->)]].
  - rewrite Hrun1 in Hrun2. injection Hrun2 as <- <-. done.
  - rewrite (is_ready_terminated _ _ (with_state state_terminated m))
      in Hrun2; [| apply lookup_insert_eq | done].
    injection Hrun2 as <- <-. split.
    + apply (is_ready_terminated _ _ (with_state state_terminated m));
        [apply lookup_insert_eq | done].
    + intros _. split; [done |]. eexists. split; [apply lookup_insert_eq |].
      done.
  - rewrite (is_ready_zombie _ _ (with_state state_zombie m))
      in Hrun2; [| apply lookup_insert_eq | done].
    injection Hrun2 as <- <-. rewrite insert_insert_eq. split.
    + apply (is_ready_terminated _ _ (with_state state_terminated m));
        [apply lookup_insert_eq | done].
    + intros _. split; [done |]. eexists. split; [apply lookup_insert_eq |].
      done.
Qed.

(** X12 at work: c turns Zombie, then Terminated, and stays so. *)
Lemma is_ready_settles_witness :
  let heap := MoreExamples.dead_heap in
  let c := Examples.module_in "c" state_blocked
             [("df"%string, Some MoreExamples.slot_drained)] in
  let h1 := <["c"%string := with_state state_zombie c]> heap in
  let h2 := <["c"%string := with_state state_terminated c]> heap in
  is_ready h2 "c" = Some (false, h2)
  ∧ (h1 ≠ heap →
     false = false
     ∧ ∃ m, h2 !! "c"%string = Some m ∧ state m = state_terminated).
Proof.
  intros heap c h1 h2.
  apply (is_ready_settles heap h1 h2 "c" false false);
    vm_compute; reflexivity.
Defined.

(** X13: [_connect_input] on a declared input returns what the input held,
    after which [get_input_slot] returns the slot, the module has an input,
    and the other inputs are as they were; on a name that is not declared it
    raises [KeyError] and stores nothing. *)
Theorem connect_input_round_trip (slot : Slot.t) (m : t) :
  (∀ old, _input_slots m !! Slot.input_name slot = Some old →
     ∃ m', _connect_input slot m = Ok old m'
       ∧ get_input_slot (Slot.input_name slot) m' = Ok (Some slot) m'
       ∧ has_any_input m' = true
       ∧ dom (_input_slots m') = dom (_input_slots m)
       ∧ ∀ n, n ≠ Slot.input_name slot →
              _input_slots m' !! n = _input_slots m !! n)
  ∧ (_input_slots m !! Slot.input_name slot = None →
     _connect_input slot m = Raise KeyError m).
Proof.
  unfold _connect_input, get_input_slot. split.
  - intros old Hold. unfold_M. rewrite Hold. eexists. split; [done |].
    cbn [_input_slots with_input_slots]. rewrite lookup_insert_eq.
    split; [done |]. split; [| split].
    + unfold has_any_input, input_slot_values. apply existsb_exists.
      exists (Some slot). split; [| done]. apply list_elem_of_In.
      apply list_elem_of_fmap. exists (Slot.input_name slot, Some slot).
      split; [done |]. apply elem_of_map_to_list.
      cbn [_input_slots with_input_slots]. apply lookup_insert_eq.
    + rewrite dom_insert_L.
      assert (Hin : Slot.input_name slot ∈ dom (_input_slots m))
        by (apply elem_of_dom; by rewrite Hold).
      apply set_eq. intros x. rewrite elem_of_union, elem_of_singleton.
      split; [intros [-> | ?]; done | by right].
    + intros n Hne. by rewrite lookup_insert_ne.
  - intros Hnone. unfold_M. by rewrite Hnone.
Qed.

Lemma validate_descriptors_Ok (ds : list (string * SlotDescriptor))
      (slots : gmap string (option Slot.t)) :
  _validate_descriptors ds = inr slots →
  NoDup ds.*1 ∧ slots = list_to_map ((fun d => (d.1, None)) <$> ds).
Proof.
  unfold _validate_descriptors. intros Hrun.
  destruct (validate_descriptors_loop_spec ds ∅)
    as [(Hnd & _ & Hrun') | (_ & Hrun')]; rewrite Hrun in Hrun'; [| done].
  injection Hrun' as ->. by rewrite (right_id_L ∅ (∪)).
Qed.

(** X14: a module whose slots and descriptors are those its constructor
    derives from one list of descriptors never raises in [validate_inputs],
    and its inputs validate iff none of its descriptors is required. *)
Theorem constructed_module_validates_inputs
        (ds : list (string * SlotDescriptor)) (m : t) :
  _validate_descriptors ds = inr (_input_slots m) →
  input_descriptors m = descriptors_dict ds →
  ∃ b, validate_inputs m = Ok b m
    ∧ (b = true
       ↔ ∀ n sd, input_descriptors m !! n = Some sd → required sd = false).
Proof.
  intros Hslots Hdescs.
  destruct (validate_descriptors_Ok _ _ Hslots) as [Hnd Heq].
  assert (Hnone : ∀ n, is_Some (input_descriptors m !! n) →
                       _input_slots m !! n = Some None).
  { intros n Hn. apply elem_of_dom in Hn.
    rewrite Hdescs, dom_descriptors_dict, elem_of_list_to_set in Hn.
    rewrite Heq. apply elem_of_list_to_map.
    - by rewrite <- list_fmap_compose.
    - apply list_elem_of_fmap in Hn. destruct Hn as ([n' sd] & -> & Hin).
      apply list_elem_of_fmap. by exists (n', sd). }
  destruct (validate_inputs_Ok m) as (b & Hrun & Hb).
  { intros n Hn. rewrite (Hnone n Hn). done. }
  exists b. split; [done |]. rewrite Hb. split.
  - intros Hall n sd Hsd. destruct (required sd) eqn:Hreq; [| done].
    destruct (Hall n sd Hsd Hreq) as [slot Hslot].
    rewrite (Hnone n) in Hslot; [done | by rewrite Hsd].
  - intros Hall n sd Hsd Hreq. rewrite (Hall n sd Hsd) in Hreq. done.
Qed.

(** X14 at work on a module with the required input [df]. *)
Lemma constructed_module_validates_inputs_witness :
  let m := with_input_slots
             {[ "df"%string := None; "_params"%string := None ]}
             (Examples.module_with "m" state_created false
                [("df"%string, (None, true));
                 ("_params"%string, (None, false))]) in
  ∃ b, validate_inputs m = Ok b m
    ∧ (b = true
       ↔ ∀ n sd, input_descriptors m !! n = Some sd → required sd = false).
Proof.
  intros m.
  apply (constructed_module_validates_inputs MoreExamples.two_descriptors m);
    vm_compute; reflexivity.
Defined.
End LifeCycle.

(** ** Time and selection in the interaction mode *)
Section InteractionTime.
Import BaseScheduler SchedulerOps.

Lemma timer_Ok (clock : Qc) (s : t) :
  ∃ now s', timer clock s = Ok now s'
    ∧ _module_selection s' = _module_selection s
    ∧ _selection_target_time s' = _selection_target_time s.
Proof.
  unfold timer. unfold_M. destruct (_start s); eexists _, _; done.
Qed.

Lemma has_input_Ok (s : t) :
  ∃ b s', has_input s = Ok b s'.
Proof.
  unfold has_input. unfold_M. destruct (_module_selection s) as [sel|].
  - case_bool_decide; eexists _, _; done.
  - eexists _, _; done.
Qed.

(** X15: [time_left] always returns, whatever the state and the clock, and
    what it returns is never negative. *)
Theorem time_left_never_negative (clock : Qc) (s : t) :
  ∃ left s', time_left clock s = Ok left s' ∧ (0 ≤ left)%Qc.
Proof.
  unfold time_left. unfold mbind at 1. unfold M_bind, bind, get.
  unfold mbind at 1. unfold M_bind, bind.
  assert (Hnt : ∃ b s1, (if bool_decide (_selection_target_time s ≤ 0)%Qc
                         then negb <$> has_input else mret false) s
                        = Ok b s1).
  { case_bool_decide.
    - destruct (has_input_Ok s) as (b & s1 & Hrun).
      unfold fmap, M_fmap, bind. rewrite Hrun. by eexists _, _.
    - by eexists _, _. }
  destruct Hnt as (b & s1 & ->). destruct b.
  - exists 0%Qc, s1. done.
  - unfold mbind, M_bind, bind, get.
    destruct (timer_Ok clock s1) as (now & s2 & -> & _).
    unfold mret, M_ret, ret. eexists _, _. split; [done |].
    case_bool_decide as Hpos; [| done]. by apply Qclt_le_weak.
Qed.

Lemma start_selection_Ok (clock : Qc) (sel : gset string) (s : t) :
  ∃ now s0,
    timer clock (with_module_selection (Some sel) s) = Ok now s0
    ∧ start_selection clock sel s
      = Ok tt (with_selection_target_time
                 (now + interaction_latency s)%Qc s0)
    ∧ _module_selection s0 = Some sel
    ∧ _run_number s0 = _run_number s
    ∧ interaction_latency s0 = interaction_latency s
    ∧ _start s0 = Some (default clock (_start s)).
Proof.
  unfold start_selection, timer. unfold_M. cbn.
  destruct (_start s) as [start|] eqn:Hstart; eexists _, _;
    (split; [reflexivity |]); cbn; rewrite ?Hstart; done.
Qed.

(** X16: when a module with a non-empty reachability set gets input and no
    selection is under way, [for_input] selects that set and returns the
    next run number; the target time is the reading of the timer it takes
    plus the interaction latency, and the scheduler is then in input mode.
    [time_left] at a later reading of the clock is that target time less the
    reading of the timer it takes itself, or 0 when the target is passed.
    The readings are those of [timer]: 0 for the one that starts the timer,
    the clock less the start otherwise. *)
Theorem for_input_starts_countdown (clock clock' : Qc) (module : Mod.t)
        (sel : gset string) (s : t) :
  _reachability s !! Mod.name module = Some sel → sel ≠ ∅ →
  _module_selection s = None ∨ _module_selection s = Some ∅ →
  let start := default clock (_start s) in
  let now := match _start s with
             | Some start => (clock - start)%Qc
             | None => 0%Qc
             end in
  ∃ s1, for_input clock module s = Ok (_run_number s + 1) s1
    ∧ _module_selection s1 = Some sel
    ∧ _start s1 = Some start
    ∧ _selection_target_time s1 = (now + interaction_latency s)%Qc
    ∧ has_input s1 = Ok true s1
    ∧ ∃ s2, time_left clock' s1
            = Ok (let left := ((now + interaction_latency s)
                               - (clock' - start))%Qc in
                  if bool_decide (0 < left)%Qc then left else 0%Qc) s2.
Proof.
  intros Hreach Hne Hnosel start now.
  destruct (start_selection_Ok clock sel s)
    as (now0 & s0 & Htimer & Hstart & Hsel0 & Hrun0 & Hlat0 & Hstart0).
  assert (Hnow : now0 = now).
  { unfold timer in Htimer. unfold_M in Htimer. cbn in Htimer. unfold now.
    destruct (_start s) as [start0|]; by injection Htimer as <- _. }
  subst now0.
  set (s1 := with_selection_target_time (now + interaction_latency s)%Qc s0)
    in *.
  assert (Hfor : for_input clock module s = Ok (_run_number s + 1) s1).
  { unfold for_input. erewrite bind_Ok by reflexivity.
    rewrite Hreach. erewrite bind_Ok by reflexivity.
    rewrite bool_decide_eq_true_2 by done.
    assert (Hbranch : match _module_selection s with
                      | Some cur =>
                          if bool_decide (cur ≠ ∅)
                          then modify
                                 (with_module_selection (Some (cur ∪ sel)))
                          else start_selection clock sel
                      | None => start_selection clock sel
                      end s = Ok tt s1).
    { destruct Hnosel as [-> | ->]; [done |].
      by rewrite bool_decide_eq_false_2 by (intros H; by apply H). }
    rewrite (bind_Ok _ _ _ _ _ Hbranch). unfold_M. unfold run_number. cbn.
    by rewrite Hrun0. }
  assert (Hsel1 : _module_selection s1 = Some sel) by done.
  assert (Hstart1 : _start s1 = Some start) by done.
  exists s1. split; [done |]. split; [done |]. split; [done |].
  split; [done |].
  split; [by apply (has_input_selected s1 sel) |].
  destruct (time_left_selected clock' s1 sel Hsel1 Hne)
    as (now' & s2 & Htimer' & _ & Hleft).
  exists s2. rewrite Hleft. cbn zeta.
  unfold timer in Htimer'. unfold_M in Htimer'.
  rewrite Hstart1 in Htimer'. by injection Htimer' as <- _.
Qed.

(** X16 at work: input at clock 5 starts the timer, which is read again a
    quarter of a second later. *)
Lemma for_input_starts_countdown_witness :
  let s := MoreExamples.reaching in
  let start := default (Q2Qc 5) (_start s) in
  let now := match _start s with
             | Some start => (Q2Qc 5 - start)%Qc
             | None => 0%Qc
             end in
  ∃ s1, for_input (Q2Qc 5) Examples.mod_a s = Ok (_run_number s + 1) s1
    ∧ _module_selection s1 = Some {["a"%string]}
    ∧ _start s1 = Some start
    ∧ _selection_target_time s1 = (now + interaction_latency s)%Qc
    ∧ has_input s1 = Ok true s1
    ∧ ∃ s2, time_left (Q2Qc (21 # 4)) s1
            = Ok (let left := ((now + interaction_latency s)
                               - (Q2Qc (21 # 4) - start))%Qc in
                  if bool_decide (0 < left)%Qc then left else 0%Qc) s2.
Proof.
  intros s.
  apply (for_input_starts_countdown (Q2Qc 5) (Q2Qc (21 # 4)) Examples.mod_a
           {["a"%string]} s).
  - vm_compute. reflexivity.
  - apply non_empty_singleton_L.
  - left. reflexivity.
Defined.

(** X17: input that arrives while a selection is under way adds the
    reachability set of its module to the selection and leaves the target
    time and the start of the timer as they are; [_consider_module] then
    accepts exactly the modules of the joined selection. *)
Theorem for_input_joins_selection (clock : Qc) (module : Mod.t)
        (sel cur : gset string) (s : t) :
  _reachability s !! Mod.name module = Some sel →
  _module_selection s = Some cur → cur ≠ ∅ →
  ∃ s1, for_input clock module s = Ok (_run_number s + 1) s1
    ∧ _module_selection s1 = Some (cur ∪ sel)
    ∧ _selection_target_time s1 = _selection_target_time s
    ∧ _start s1 = _start s
    ∧ ∀ m, _consider_module m s1
           = Ok (bool_decide (Mod.name m ∈ cur ∪ sel)) s1.
Proof.
  intros Hreach Hcur Hne.
  set (s1 := if bool_decide (sel ≠ ∅)
             then with_module_selection (Some (cur ∪ sel)) s else s).
  assert (Hsel1 : _module_selection s1 = Some (cur ∪ sel)).
  { unfold s1. case_bool_decide as Hsel; [done |].
    rewrite Hsel, (right_id_L ∅ (∪)). done. }
  exists s1. split; [| split; [done | split; [| split]]].
  - unfold for_input. erewrite bind_Ok by reflexivity.
    rewrite Hreach. erewrite bind_Ok by reflexivity.
    erewrite bind_Ok.
    + unfold_M. unfold run_number.
      instantiate (1 := s1). unfold s1. by case_bool_decide.
    + unfold s1. case_bool_decide; [| done].
      rewrite Hcur. by rewrite bool_decide_eq_true_2 by done.
  - unfold s1. by case_bool_decide.
  - unfold s1. by case_bool_decide.
  - intros m. unfold _consider_module.
    assert (Hne1 : cur ∪ sel ≠ ∅).
    { intros Hempty. apply Hne. apply empty_union_L in Hempty.
      by destruct Hempty. }
    erewrite bind_Ok by (by apply (has_input_selected s1 (cur ∪ sel))).
    cbn [negb]. by apply in_selection_eq.
Qed.

(** X17 at work: a second input while the selection {a} is under way. *)
Lemma for_input_joins_selection_witness :
  ∃ s1, for_input (Q2Qc 5) Examples.mod_a
          (with_reachability {[ "a"%string := {["c"%string]} ]}
             Examples.interacting)
        = Ok (_run_number Examples.interacting + 1) s1
    ∧ _module_selection s1 = Some ({["a"%string]} ∪ {["c"%string]})
    ∧ _selection_target_time s1
      = _selection_target_time Examples.interacting
    ∧ _start s1 = _start Examples.interacting
    ∧ ∀ m, _consider_module m s1
           = Ok (bool_decide (Mod.name m ∈ ({["a"%string]} : gset string)
                                            ∪ {["c"%string]})) s1.
Proof.
  apply (for_input_joins_selection (Q2Qc 5) Examples.mod_a {["c"%string]}
           {["a"%string]}
           (with_reachability {[ "a"%string := {["c"%string]} ]}
              Examples.interacting)).
  - vm_compute. reflexivity.
  - reflexivity.
  - apply non_empty_singleton_L.
Defined.
End InteractionTime.

(** ** Modules of the scheduler *)
Section SchedulerModules.
Import BaseScheduler SchedulerOps.
Variable toposort : gmap string (gset string) → exn + list string.
Variable validate_outputs : Mod.t → bool.

Lemma with_modules_id (s : t) : with_modules (_modules s) s = s.
Proof. by destruct s. Qed.

(** [starting()] cannot be called on a new module that is gone. *)
Lemma starting_raises (ids : list string) (s : t) :
  (∃ mid, mid ∈ ids ∧ _modules s !! mid = None) →
  for_each ids (fun mid => on_module mid (mret tt)) s = Raise KeyError s.
Proof.
  induction ids as [|mid rest IH]; intros (gone & Hin & Hgone).
  - by apply elem_of_nil in Hin.
  - cbn [for_each].
    destruct (_modules s !! mid) as [m|] eqn:Hm.
    + assert (Hone : on_module mid (mret tt) s = Ok tt s).
      { unfold on_module. unfold_M. rewrite Hm. cbn.
        rewrite insert_id by done. by rewrite with_modules_id. }
      rewrite (bind_Ok _ _ _ _ _ Hone). apply IH.
      apply elem_of_cons in Hin. destruct Hin as [-> | Hin]; [congruence |].
      by exists gone.
    + apply bind_Raise. unfold on_module. unfold_M. by rewrite Hm.
Qed.

Lemma add_module_created (m : Mod.t) (s : t) :
  Mod.is_created m = true →
  add_module m s
  = Ok tt (with_modules (<[Mod.name m := m]> (_modules s))
             (with_new_modules_ids (_new_modules_ids s ++ [Mod.name m]) s)).
Proof. intros Hc. unfold add_module. by rewrite Hc. Qed.

(** X18: a created module that is added to the scheduler and removed again
    before the run loop has taken it up leaves its name among the new
    modules: the module is gone from the scheduler and is a Zombie, and
    [_update_modules] raises [KeyError] and changes nothing, so every later
    [_update_modules] raises it again. *)
Theorem removed_module_blocks_update (m : Mod.t) (s : t) :
  Mod.is_created m = true →
  ∃ s', (add_module m;; remove_module (inr m)) s
        = Ok (Mod.with_state Mod.state_zombie m) s'
    ∧ exists_ (Mod.name m) s' = false
    ∧ Mod.name m ∈ _new_modules_ids s'
    ∧ _update_modules toposort validate_outputs s' = Raise KeyError s'.
Proof.
  intros Hc. eexists. split; [| split; [| split]].
  - rewrite (bind_Ok _ _ _ _ _ (add_module_created m s Hc)).
    unfold remove_module. erewrite bind_Ok by reflexivity.
    unfold Mod.terminate.
    rewrite set_state_Ok
      by (unfold Mod.state_created, Mod.state_zombie, Mod.state_invalid; lia).
    unfold _remove_module. unfold_M. cbn. rewrite lookup_insert_eq.
    reflexivity.
  - unfold exists_. cbn. rewrite lookup_delete_eq.
    apply bool_decide_eq_false_2. by intros [x Hx].
  - cbn. apply elem_of_app. right. by left.
  - unfold _update_modules. erewrite bind_Ok by reflexivity.
    rewrite bool_decide_eq_true_2.
    + apply bind_Raise. apply starting_raises. exists (Mod.name m). split.
      * cbn. apply elem_of_app. right. by left.
      * cbn. apply lookup_delete_eq.
    + cbn. by destruct (_new_modules_ids s).
Qed.

(** X19: [add_module] refuses a module that is not Created with
    [ProgressiveError] and changes nothing; a Created module is stored under
    its name, replacing a module of that name if there is one, its name is
    put last in the list of new modules, and no other module is touched. *)
Theorem add_module_registers (m : Mod.t) (s : t) :
  (Mod.is_created m = false → add_module m s = Raise ProgressiveError s)
  ∧ (Mod.is_created m = true →
     ∃ s', add_module m s = Ok tt s'
       ∧ __getitem__ (Mod.name m) s' = Some m
       ∧ exists_ (Mod.name m) s' = true
       ∧ _new_modules_ids s' = _new_modules_ids s ++ [Mod.name m]
       ∧ _new_module_available s' = true
       ∧ (∀ mid, mid ≠ Mod.name m →
                 __getitem__ mid s' = __getitem__ mid s)
       ∧ __len__ s' = (if exists_ (Mod.name m) s then __len__ s
                       else S (__len__ s))).
Proof.
  split.
  - intros Hc. unfold add_module. by rewrite Hc.
  - intros Hc. eexists. split; [by apply add_module_created |].
    unfold __getitem__, exists_, _new_module_available, __len__. cbn.
    rewrite lookup_insert_eq. split; [done |].
    split; [by apply bool_decide_eq_true_2 |]. split; [done |].
    split; [| split].
    + rewrite bool_decide_eq_false_2; [done |].
      by destruct (_new_modules_ids s).
    + intros mid Hne. by rewrite lookup_insert_ne.
    + case_bool_decide as Hin.
      * by apply map_size_insert_Some.
      * apply map_size_insert_None. by apply eq_None_not_Some.
Qed.
End SchedulerModules.

Section SchedulerModulesExamples.
Import BaseScheduler SchedulerOps.

(** X18 at work on a scheduler that holds nothing else. *)
Lemma removed_module_blocks_update_witness :
  ∃ s', (add_module Examples.new_p;; remove_module (inr Examples.new_p))
          (Examples.scheduler_of [])
        = Ok (Mod.with_state Mod.state_zombie Examples.new_p) s'
    ∧ exists_ (Mod.name Examples.new_p) s' = false
    ∧ Mod.name Examples.new_p ∈ _new_modules_ids s'
    ∧ _update_modules Toposort.toposort (fun _ => true) s' = Raise KeyError s'.
Proof.
  apply (removed_module_blocks_update Toposort.toposort (fun _ => true)
           Examples.new_p
           (Examples.scheduler_of [])).
  reflexivity.
Defined.
End SchedulerModulesExamples.

(** ** Validation of the scheduler *)
Section SchedulerValidate.
Import BaseScheduler SchedulerOps.
Import ModOps (declared, settled).
Variable validate_outputs : Mod.t → bool.

Lemma module_validate_Ok (m : Mod.t) :
  declared m →
  ∃ ok : bool, Mod.validate validate_outputs m = Ok ok (settled ok m).
Proof.
  intros Hkeys. destruct (validate_inputs_Ok m Hkeys) as (b & Hrun & _).
  unfold Mod.validate, Mod.validate_inouts. unfold_M. rewrite Hrun.
  destruct b; [destruct (validate_outputs m) |].
  - exists true. rewrite set_state_Ok; [done |].
    unfold Mod.state_created, Mod.state_blocked, Mod.state_invalid. lia.
  - exists false. rewrite set_state_Ok; [done |].
    unfold Mod.state_created, Mod.state_invalid. lia.
  - exists false. rewrite set_state_Ok; [done |].
    unfold Mod.state_created, Mod.state_invalid. lia.
Qed.

Lemma with_modules_twice (a b : gmap string Mod.t) (s : t) :
  with_modules a (with_modules b s) = with_modules a s.
Proof. done. Qed.

Lemma validate_loop_spec (mids : list string) (valid : bool) (s : t) :
  NoDup mids →
  (∀ mid, mid ∈ mids →
          ∃ m, _modules s !! mid = Some m ∧ declared m) →
  ∃ (b : bool) (mods : gmap string Mod.t),
    validate_loop validate_outputs mids valid s = Ok b (with_modules mods s)
    ∧ (∀ mid, mid ∉ mids → mods !! mid = _modules s !! mid)
    ∧ (∀ mid m, mid ∈ mids → _modules s !! mid = Some m →
         ∃ ok : bool,
           Mod.validate validate_outputs m = Ok ok (settled ok m)
           ∧ mods !! mid = Some (settled ok m))
    ∧ (b = true
       ↔ valid = true
         ∧ ∀ mid m, mid ∈ mids → _modules s !! mid = Some m →
             Mod.validate validate_outputs m
             = Ok true (settled true m)).
Proof.
  revert valid s. induction mids as [|mid rest IH]; intros valid s Hnd Hall.
  - exists valid, (_modules s). split; [by rewrite with_modules_id |].
    split; [done |]. split.
    + intros mid m Hin. by apply elem_of_nil in Hin.
    + split; [| tauto]. intros ->. split; [done |].
      intros mid m Hin. by apply elem_of_nil in Hin.
  - apply NoDup_cons in Hnd as [Hfresh Hnd].
    destruct (Hall mid) as (m & Hm & Hdecl); [left |].
    destruct (module_validate_Ok m Hdecl) as [ok Hok].
    set (s1 := with_modules (<[mid := settled ok m]> (_modules s)) s).
    assert (Hone : on_module mid (Mod.validate validate_outputs) s
                   = Ok ok s1).
    { unfold on_module. unfold_M. rewrite Hm, Hok. done. }
    destruct (IH (if ok then valid else false) s1 Hnd)
      as (b & mods & Hrun & Hout & Hin & Hb).
    { intros mid' Hin'. destruct (Hall mid') as (m' & Hm' & Hdecl');
        [by right |].
      exists m'. split; [| done]. cbn.
      rewrite lookup_insert_ne; [done |]. intros <-. done. }
    exists b, mods. split; [| split; [| split]].
    + cbn [validate_loop]. rewrite (bind_Ok _ _ _ _ _ Hone).
      rewrite Hrun. unfold s1. by rewrite with_modules_twice.
    + intros mid' Hnotin. apply not_elem_of_cons in Hnotin as [Hne Hnotin].
      rewrite (Hout mid' Hnotin). cbn. by rewrite lookup_insert_ne.
    + intros mid' m' Hin' Hm'. apply elem_of_cons in Hin'.
      destruct Hin' as [-> | Hin'].
      * rewrite Hm in Hm'. injection Hm' as <-.
        exists ok. split; [done |]. rewrite (Hout mid Hfresh). cbn.
        apply lookup_insert_eq.
      * apply (Hin mid' m' Hin'). cbn.
        rewrite lookup_insert_ne; [done |]. intros <-. done.
    + rewrite Hb. split.
      * intros [Hvalid Hrest]. destruct ok; [| done]. split; [done |].
        intros mid' m' Hin' Hm'. apply elem_of_cons in Hin'.
        destruct Hin' as [-> | Hin'].
        -- rewrite Hm in Hm'. by injection Hm' as <-.
        -- apply (Hrest mid' m' Hin'). cbn.
           rewrite lookup_insert_ne; [done |]. intros <-. done.
      * intros [Hvalid Hrest].
        assert (Htrue : ok = true).
        { specialize (Hrest mid m (list_elem_of_here _ _) Hm).
          rewrite Hok in Hrest. by injection Hrest as ->. }
        subst ok. split; [done |].
        intros mid' m' Hin' Hm'. cbn in Hm'.
        rewrite lookup_insert_ne in Hm' by (intros <-; done).
        apply (Hrest mid' m'); [by right | done].
Qed.

End SchedulerValidate.

(** ** The dependencies the scheduler collects *)
Section SchedulerDependencies.
Import BaseScheduler SchedulerOps.

Lemma slot_outs_all (module : Mod.t) (slots : list (option Slot.t)) :
  slot_outs false module slots
  = inr (Slot.output_module <$> omap id slots).
Proof.
  induction slots as [|[slot|] rest IH]; cbn [slot_outs]; [done | | done].
  cbn. by rewrite IH.
Qed.

Lemma slot_outs_required (module : Mod.t) (slots : list (option Slot.t))
      (outs : list string) :
  slot_outs true module slots = inr outs →
  ∀ p, p ∈ outs
       ↔ ∃ slot sd, Some slot ∈ slots ∧ Slot.output_module slot = p
           ∧ Mod.input_descriptors module !! Slot.input_name slot = Some sd
           ∧ required sd = true.
Proof.
  revert outs. induction slots as [|[slot|] rest IH]; intros outs;
    cbn [slot_outs].
  - intros [= <-] p. split.
    + intros Hin. by apply elem_of_nil in Hin.
    + intros (slot & sd & Hin & _). by apply elem_of_nil in Hin.
  - unfold Mod.input_slot_required, lookup_or_KeyError. cbn.
    destruct (Mod.input_descriptors module !! Slot.input_name slot)
      as [sd|] eqn:Hsd; [| done]. cbn.
    destruct (slot_outs true module rest) as [e | outs'] eqn:Hrest;
      [done |]. cbn.
    intros [= <-] p. specialize (IH outs' eq_refl p).
    destruct (required sd) eqn:Hreq.
    + rewrite elem_of_cons, IH. split.
      * intros [-> | (slot' & sd' & Hin & Hrest')].
        -- exists slot, sd. split; [left | done].
        -- destruct Hrest' as (Hp & Hsd' & Hreq').
           exists slot', sd'. split; [by right | done].
      * intros (slot' & sd' & Hin & Hp & Hsd' & Hreq').
        apply elem_of_cons in Hin. destruct Hin as [[= ->] | Hin].
        -- by left.
        -- right. by exists slot', sd'.
    + rewrite IH. split.
      * intros (slot' & sd' & Hin & Hrest').
        exists slot', sd'. split; [by right | done].
      * intros (slot' & sd' & Hin & Hp & Hsd' & Hreq').
        apply elem_of_cons in Hin. destruct Hin as [[= ->] | Hin].
        -- congruence.
        -- by exists slot', sd'.
  - intros Houts p. rewrite (IH outs Houts p). split.
    + intros (slot' & sd' & Hin & Hrest').
      exists slot', sd'. split; [by right | done].
    + intros (slot' & sd' & Hin & Hrest').
      apply elem_of_cons in Hin. destruct Hin as [[=] | Hin].
      by exists slot', sd'.
Qed.

Lemma collect_loop_lookup (only_required : bool)
      (mods : list (string * Mod.t)) (d0 d : gmap string (gset string)) :
  NoDup mods.*1 →
  collect_loop only_required mods d0 = inr d →
  ∀ mid,
    (∀ m, (mid, m) ∈ mods → Mod.is_valid m = true →
          ∃ outs, slot_outs only_required m (Mod.input_slot_values m)
                  = inr outs
                  ∧ d !! mid = Some (list_to_set outs))
    ∧ ((∀ m, (mid, m) ∈ mods → Mod.is_valid m = false) →
       d !! mid = d0 !! mid).
Proof.
  revert d0. induction mods as [|[mid' m'] rest IH]; intros d0 Hnd;
    cbn [collect_loop].
  - intros [= <-] mid. split; [| done].
    intros m Hin. by apply elem_of_nil in Hin.
  - cbn in Hnd. apply NoDup_cons in Hnd as [Hfresh Hnd].
    destruct (Mod.is_valid m') eqn:Hvalid; cbn [negb].
    + destruct (slot_outs only_required m' (Mod.input_slot_values m'))
        as [e | outs] eqn:Houts; [done |]. cbn.
      intros Hrun mid. destruct (IH _ Hnd Hrun mid) as [Hfound Hother].
      split.
      * intros m Hin Hv. apply elem_of_cons in Hin.
        destruct Hin as [[= -> ->] | Hin]; [| by apply Hfound].
        exists outs. split; [done |].
        rewrite Hother; [apply lookup_insert_eq |].
        intros m Hin. exfalso. apply Hfresh.
        apply list_elem_of_fmap. by exists (mid', m).
      * intros Hinvalid. rewrite Hother.
        -- rewrite lookup_insert_ne; [done |]. intros <-.
           specialize (Hinvalid m' (list_elem_of_here _ _)). congruence.
        -- intros m Hin. apply Hinvalid. by right.
    + intros Hrun mid. destruct (IH _ Hnd Hrun mid) as [Hfound Hother].
      split.
      * intros m Hin Hv. apply elem_of_cons in Hin.
        destruct Hin as [[= -> ->] | Hin]; [congruence | by apply Hfound].
      * intros Hinvalid. apply Hother. intros m Hin. apply Hinvalid.
        by right.
Qed.

Lemma collect_loop_all (mods : list (string * Mod.t))
      (d0 : gmap string (gset string)) :
  ∃ d, collect_loop false mods d0 = inr d.
Proof.
  revert d0. induction mods as [|[mid m] rest IH]; intros d0;
    cbn [collect_loop]; [by eexists |].
  destruct (negb (Mod.is_valid m)); [apply IH |].
  rewrite slot_outs_all. cbn. apply IH.
Qed.

(** X21: [_collect_dependencies()] never raises and leaves the scheduler as
    it is.  Its keys are the modules that are not Invalid, and the entry of
    a module holds the producers of its bound inputs.  With
    [only_required=True], when it returns, the keys are the same and every
    entry holds the producers of the bound inputs whose descriptor is
    required, so it is a subset of the unrestricted entry. *)
Theorem collect_dependencies_required_subset (s : t) :
  ∃ d, _collect_dependencies false s = Ok d s
    ∧ (∀ mid, is_Some (d !! mid)
              ↔ ∃ m, _modules s !! mid = Some m ∧ Mod.is_valid m = true)
    ∧ (∀ mid m deps p,
         _modules s !! mid = Some m → d !! mid = Some deps →
         p ∈ deps
         ↔ ∃ slot, Some slot ∈ Mod.input_slot_values m
                   ∧ Slot.output_module slot = p)
    ∧ (∀ d', _collect_dependencies true s = Ok d' s →
         dom d' = dom d
         ∧ (∀ mid m deps' p,
              _modules s !! mid = Some m → d' !! mid = Some deps' →
              p ∈ deps'
              ↔ ∃ slot sd,
                  Some slot ∈ Mod.input_slot_values m
                  ∧ Slot.output_module slot = p
                  ∧ Mod.input_descriptors m !! Slot.input_name slot
                    = Some sd
                  ∧ required sd = true)
         ∧ (∀ mid deps deps',
              d !! mid = Some deps → d' !! mid = Some deps' →
              deps' ⊆ deps)).
Proof.
  destruct (collect_loop_all (map_to_list (_modules s)) ∅) as [d Hd].
  pose proof (NoDup_fst_map_to_list (_modules s)) as Hnd.
  assert (Hkeys : ∀ only_required d1,
            collect_loop only_required (map_to_list (_modules s)) ∅
            = inr d1 →
            ∀ mid, is_Some (d1 !! mid)
                   ↔ ∃ m, _modules s !! mid = Some m
                          ∧ Mod.is_valid m = true).
  { intros only_required d1 Hd1 mid.
    destruct (collect_loop_lookup _ _ _ _ Hnd Hd1 mid) as [Hfound Hother].
    split.
    - intros Hsome. destruct (_modules s !! mid) as [m|] eqn:Hm.
      + destruct (Mod.is_valid m) eqn:Hv; [by exists m |].
        rewrite Hother in Hsome.
        * rewrite lookup_empty in Hsome. by destruct Hsome.
        * intros m' Hin. apply elem_of_map_to_list in Hin. congruence.
      + rewrite Hother in Hsome.
        * rewrite lookup_empty in Hsome. by destruct Hsome.
        * intros m' Hin. apply elem_of_map_to_list in Hin. congruence.
    - intros (m & Hm & Hv).
      destruct (Hfound m) as (outs & _ & ->); [| done | done].
      by apply elem_of_map_to_list. }
  assert (Hall : ∀ mid m deps p,
            _modules s !! mid = Some m → d !! mid = Some deps →
            p ∈ deps
            ↔ ∃ slot, Some slot ∈ Mod.input_slot_values m
                      ∧ Slot.output_module slot = p).
  { intros mid m deps p Hm Hdeps.
    destruct (Hkeys false d Hd mid) as [Hsome _].
    destruct Hsome as (m' & Hm' & Hv); [by rewrite Hdeps |].
    rewrite Hm in Hm'. injection Hm' as <-.
    destruct (collect_loop_lookup _ _ _ _ Hnd Hd mid) as [Hfound _].
    destruct (Hfound m) as (outs & Houts & Hlook);
      [by apply elem_of_map_to_list | done |].
    rewrite slot_outs_all in Houts. injection Houts as <-.
    rewrite Hdeps in Hlook. injection Hlook as ->.
    rewrite elem_of_list_to_set, list_elem_of_fmap. split.
    - intros (slot & -> & Hin). apply list_elem_of_omap in Hin.
      destruct Hin as ([slot'|] & Hin & Hid); [| done].
      cbn in Hid. injection Hid as ->. by exists slot.
    - intros (slot & Hin & <-). exists slot. split; [done |].
      apply list_elem_of_omap. by exists (Some slot). }
  exists d. split; [| split; [| split]].
  - unfold _collect_dependencies. unfold_M. by rewrite Hd.
  - by apply (Hkeys false).
  - exact Hall.
  - intros d' Hrun. unfold _collect_dependencies in Hrun. unfold_M in Hrun.
    destruct (collect_loop true (map_to_list (_modules s)) ∅)
      as [e | d1] eqn:Hd1; [done |].
    injection Hrun as <-.
    assert (Hreq : ∀ mid m deps' p,
              _modules s !! mid = Some m → d1 !! mid = Some deps' →
              p ∈ deps'
              ↔ ∃ slot sd,
                  Some slot ∈ Mod.input_slot_values m
                  ∧ Slot.output_module slot = p
                  ∧ Mod.input_descriptors m !! Slot.input_name slot
                    = Some sd
                  ∧ required sd = true).
    { intros mid m deps' p Hm Hdeps.
      destruct (Hkeys true d1 Hd1 mid) as [Hsome _].
      destruct Hsome as (m' & Hm' & Hv); [by rewrite Hdeps |].
      rewrite Hm in Hm'. injection Hm' as <-.
      destruct (collect_loop_lookup _ _ _ _ Hnd Hd1 mid) as [Hfound _].
      destruct (Hfound m) as (outs & Houts & Hlook);
        [by apply elem_of_map_to_list | done |].
      rewrite Hdeps in Hlook. injection Hlook as ->.
      rewrite elem_of_list_to_set.
      by apply (slot_outs_required m (Mod.input_slot_values m)). }
    split; [| split].
    + apply set_eq. intros mid. rewrite !elem_of_dom.
      by rewrite (Hkeys true d1 Hd1), (Hkeys false d Hd).
    + exact Hreq.
    + intros mid deps deps' Hdeps Hdeps' p Hp.
      destruct (Hkeys false d Hd mid) as [Hsome _].
      destruct Hsome as (m & Hm & Hv); [by rewrite Hdeps |].
      apply (Hall mid m deps p Hm Hdeps).
      apply (Hreq mid m deps' p Hm Hdeps') in Hp.
      destruct Hp as (slot & sd & Hin & Hp & _). by exists slot.
Qed.
End SchedulerDependencies.

(** ** Interaction options *)
Section InteractionOptions.
Import BaseScheduler SchedulerOps.

Lemma with_inter_cycles_cnt_id (s : t) :
  with_inter_cycles_cnt (_inter_cycles_cnt s) s = s.
Proof. by destruct s. Qed.

Lemma max_iter_passes (clocks : list Qc) (s : t) (sel : gset string)
      (n : Z) :
  _module_selection s = Some sel → sel ≠ ∅ →
  _interaction_opts s
  = Some {| starving_mods := None; max_time := None; max_iter := Some n |} →
  0 ≤ _inter_cycles_cnt s →
  _inter_cycles_cnt s + Z.of_nat (length clocks) ≤ n →
  for_each clocks _proc_interaction_opts s
  = Ok tt (with_inter_cycles_cnt
             (_inter_cycles_cnt s + Z.of_nat (length clocks)) s).
Proof.
  revert s. induction clocks as [|clock rest IH];
    intros s Hsel Hne Hopts Hcnt Hlen.
  - cbn. by rewrite Z.add_0_r, with_inter_cycles_cnt_id.
  - cbn [for_each length] in *.
    assert (Hone : _proc_interaction_opts clock s
                   = Ok tt (with_inter_cycles_cnt (_inter_cycles_cnt s + 1)
                                                  s)).
    { rewrite (proc_interaction_opts_unfold clock s sel _ Hsel Hne Hopts).
      unfold starving_fires, max_time_fires, max_iter_set. cbn.
      destruct (Z.eqb_spec n 0) as [-> | _]; [lia |].
      destruct (Z.leb_spec n (_inter_cycles_cnt s)); [lia | done]. }
    rewrite (bind_Ok _ _ _ _ _ Hone).
    rewrite (IH (with_inter_cycles_cnt (_inter_cycles_cnt s + 1) s));
      [| done | done | done | cbn; lia | cbn; lia].
    f_equal. unfold with_inter_cycles_cnt. cbn. f_equal. lia.
Qed.

(** X22: in interaction mode with [max_iter] the only option set, to n > 0,
    and the cycle counter at 0, n passes of [_proc_interaction_opts] keep
    the selection and bring the counter to n, and the pass after them ends
    the interaction: the selection is dropped and the counter is 0 again. *)
Theorem max_iter_ends_after_n_passes (clocks : list Qc) (clock : Qc)
        (s : t) (sel : gset string) (n : Z) :
  _module_selection s = Some sel → sel ≠ ∅ →
  _interaction_opts s
  = Some {| starving_mods := None; max_time := None; max_iter := Some n |} →
  _inter_cycles_cnt s = 0 → 0 < n → Z.of_nat (length clocks) = n →
  for_each clocks _proc_interaction_opts s
  = Ok tt (with_inter_cycles_cnt n s)
  ∧ (for_each clocks _proc_interaction_opts;;
     _proc_interaction_opts clock) s
    = Ok tt (with_module_selection None s).
Proof.
  intros Hsel Hne Hopts Hcnt Hpos Hlen.
  assert (Hrun : for_each clocks _proc_interaction_opts s
                 = Ok tt (with_inter_cycles_cnt n s)).
  { rewrite (max_iter_passes clocks s sel n Hsel Hne Hopts) by lia.
    do 2 f_equal. lia. }
  split; [done |].
  rewrite (bind_Ok _ _ _ _ _ Hrun).
  rewrite (proc_interaction_opts_unfold clock (with_inter_cycles_cnt n s)
             sel _ Hsel Hne Hopts).
  unfold starving_fires, max_time_fires, max_iter_set. cbn.
  destruct (Z.eqb_spec n 0) as [-> | _]; [lia |].
  rewrite Z.leb_refl, exit_interaction_eq. f_equal.
  destruct s. cbn in *. by subst.
Qed.

(** X22 at work with n = 2. *)
Lemma max_iter_ends_after_n_passes_witness :
  let s := with_interaction_opts
             (Some {| starving_mods := None; max_time := None;
                      max_iter := Some 2 |}) Examples.interacting in
  for_each [Q2Qc 1; Q2Qc 2] _proc_interaction_opts s
  = Ok tt (with_inter_cycles_cnt 2 s)
  ∧ (for_each [Q2Qc 1; Q2Qc 2] _proc_interaction_opts;;
     _proc_interaction_opts (Q2Qc 3)) s
    = Ok tt (with_module_selection None s).
Proof.
  intros s.
  apply (max_iter_ends_after_n_passes [Q2Qc 1; Q2Qc 2] (Q2Qc 3) s
           {["a"%string]} 2).
  - reflexivity.
  - apply non_empty_singleton_L.
  - reflexivity.
  - reflexivity.
  - lia.
  - reflexivity.
Defined.

(** X23: [set_interaction_opts] raises [ValueError], storing nothing, when
    [max_time] or [max_iter] is negative, and stores the three options
    otherwise; 0 is accepted, and an option stored as 0 counts as not set:
    with [max_time] and [max_iter] 0 and no starving modules, a pass of
    [_proc_interaction_opts] in interaction mode changes nothing. *)
Theorem set_interaction_opts_rejects_negative
        (mods : option (list Mod.t)) (mt : option Qc) (mi : option Z)
        (s : t) :
  ((∃ q, mt = Some q ∧ (q < 0)%Qc) ∨ (∃ n, mi = Some n ∧ n < 0) →
   set_interaction_opts mods mt mi s = Raise ValueError s)
  ∧ ((∀ q, mt = Some q → (0 ≤ q)%Qc) → (∀ n, mi = Some n → 0 ≤ n) →
     set_interaction_opts mods mt mi s
     = Ok tt (with_interaction_opts
                (Some {| starving_mods := mods; max_time := mt;
                         max_iter := mi |}) s))
  ∧ (∀ clock sel, _module_selection s = Some sel → sel ≠ ∅ →
     (set_interaction_opts None (Some 0%Qc) (Some 0);;
      _proc_interaction_opts clock) s
     = Ok tt (with_interaction_opts
                (Some {| starving_mods := None; max_time := Some 0%Qc;
                         max_iter := Some 0 |}) s)).
Proof.
  split; [| split].
  - intros Hneg. unfold set_interaction_opts. unfold_M.
    destruct mt as [q|].
    + destruct (decide (q < 0)%Qc) as [Hq | Hq].
      * rewrite bool_decide_eq_false_2, bool_decide_eq_true_2; [done | |].
        -- by apply Qclt_le_weak.
        -- by apply Qclt_not_eq.
      * destruct Hneg as [(q' & [= <-] & Hq') | (n & -> & Hn)]; [done |].
        destruct (negb (bool_decide (q = 0%Qc)) && bool_decide (q ≤ 0)%Qc);
          [done |].
        cbn. destruct (Z.eqb_spec n 0); [lia |].
        destruct (Z.leb_spec n 0); [done | lia].
    + destruct Hneg as [(q' & [=] & _) | (n & -> & Hn)].
      cbn. destruct (Z.eqb_spec n 0); [lia |].
      destruct (Z.leb_spec n 0); [done | lia].
  - intros Hmt Hmi. unfold set_interaction_opts. unfold_M.
    assert (Hq : match mt with
                 | Some q => negb (bool_decide (q = 0%Qc))
                             && bool_decide (q ≤ 0)%Qc
                 | None => false
                 end = false).
    { destruct mt as [q|]; [| done]. specialize (Hmt q eq_refl).
      case_bool_decide as Hz; [done |]. cbn.
      apply bool_decide_eq_false_2. intros Hle. apply Hz.
      by apply Qcle_antisym. }
    destruct mt as [q|].
    + rewrite Hq. destruct mi as [n|]; [| done].
      specialize (Hmi n eq_refl).
      destruct (Z.eqb_spec n 0); [done |].
      destruct (Z.leb_spec n 0); [lia | done].
    + destruct mi as [n|]; [| done].
      specialize (Hmi n eq_refl).
      destruct (Z.eqb_spec n 0); [done |].
      destruct (Z.leb_spec n 0); [lia | done].
  - intros clock sel Hsel Hne.
    erewrite bind_Ok by reflexivity.
    by rewrite (proc_interaction_opts_unfold clock
                  (with_interaction_opts
                     (Some {| starving_mods := None; max_time := Some 0%Qc;
                              max_iter := Some 0 |}) s)
                  sel _ Hsel Hne eq_refl).
Qed.
End InteractionOptions.

(** ** Visualizations reached from the inputs *)
Section ReachableFromInputs.
Import BaseScheduler SchedulerOps Descendants.

Lemma reachable_loop_Ok (s : t) (inputs : list string) (acc : gset string) :
  (∀ i, i ∈ inputs → is_Some (_reachability s !! i)) →
  ∃ r, reachable_loop s inputs acc = inr r
    ∧ ∀ v, v ∈ r
           ↔ v ∈ acc
             ∨ ∃ i Ri, i ∈ inputs ∧ _reachability s !! i = Some Ri
                       ∧ v ∈ Ri.
Proof.
  revert acc. induction inputs as [|i rest IH]; intros acc Hall.
  - exists acc. split; [done |]. intros v. split; [by left |].
    intros [? | (i & Ri & Hin & _)]; [done |]. by apply elem_of_nil in Hin.
  - destruct (Hall i) as [Ri HRi]; [left |].
    destruct (IH (acc ∪ Ri)) as (r & Hrun & Hr).
    { intros j Hj. apply Hall. by right. }
    exists r. split.
    + cbn [reachable_loop]. rewrite HRi. exact Hrun.
    + intros v. rewrite Hr, elem_of_union. split.
      * intros [[Hacc | Hv] | (j & Rj & Hj & HRj & Hv)].
        -- by left.
        -- right. exists i, Ri. split; [left | done].
        -- right. exists j, Rj. split; [by right | done].
      * intros [Hacc | (j & Rj & Hj & HRj & Hv)]; [left; by left |].
        apply elem_of_cons in Hj. destruct Hj as [-> | Hj].
        -- rewrite HRi in HRj. injection HRj as <-. left. by right.
        -- right. by exists j, Rj.
Qed.

Lemma reachable_loop_KeyError (s : t) (inputs : list string)
      (acc : gset string) :
  (∃ i, i ∈ inputs ∧ _reachability s !! i = None) →
  reachable_loop s inputs acc = inl KeyError.
Proof.
  revert acc. induction inputs as [|i rest IH];
    intros acc (j & Hj & Hnone).
  - by apply elem_of_nil in Hj.
  - cbn [reachable_loop].
    destruct (_reachability s !! i) as [Ri|] eqn:HRi; [| done]. cbn.
    apply IH. apply elem_of_cons in Hj.
    destruct Hj as [-> | Hj]; [congruence |]. by exists j.
Qed.

(** X24: on the reachability map that [_compute_reachability] leaves,
    [reachable_from_inputs] of input modules that are keys of the
    dependencies returns the modules that descend from one of them and from
    which a visualization is reached; it returns [None] exactly when there
    is no such module, so a set it returns for some inputs is never empty
    and always holds a visualization.  For no inputs it returns the empty
    set, and an input that is no key raises [KeyError]. *)
Theorem reachable_from_inputs_after_compute
        (dependencies : gmap string (gset string)) (s s' : t)
        (inputs : list string) :
  _compute_reachability dependencies s = Ok tt s' →
  let all_vis : gset string := list_to_set (get_visualizations s) in
  reachable_from_inputs [] s' = inr (Some ∅)
  ∧ (inputs ≠ [] → (∀ i, i ∈ inputs → i ∈ dom dependencies) →
     ∃ r : gset string,
       (∀ v, v ∈ r
             ↔ ∃ i, i ∈ inputs ∧ descendant dependencies i v
                    ∧ ∃ x, x ∈ all_vis ∧ descendant dependencies v x)
       ∧ reachable_from_inputs inputs s'
         = inr (if bool_decide (r = ∅) then None else Some r)
       ∧ (r ≠ ∅ → ∃ x, x ∈ all_vis ∧ x ∈ r))
  ∧ ((∃ i, i ∈ inputs ∧ i ∉ dom dependencies) →
     reachable_from_inputs inputs s' = inl KeyError).
Proof.
  intros Hrun all_vis.
  destruct (compute_reachability_Ok dependencies s s' Hrun)
    as (D & Hmods & HD & Hdom & HR & Hdec).
  fold all_vis in HD, Hdec.
  assert (Hchar : ∀ u Ru, _reachability s' !! u = Some Ru →
            ∀ v, v ∈ Ru
                 ↔ descendant dependencies u v
                   ∧ ∃ x, x ∈ all_vis ∧ descendant dependencies v x).
  { intros u Ru Hu v. rewrite (HR u Ru Hu v).
    assert (Hudom : u ∈ dom dependencies) by (apply Hdom; by eexists).
    split.
    - intros [Hdesc Hlive]. split; [done |].
      assert (Hvdom : v ∈ dom dependencies) by (by eapply descendant_dom).
      destruct (Hdec v Hvdom) as [Halive | Hdead]; [done |].
      exfalso. apply Hlive, HD. exists v. split; [done |].
      split; [done | apply rtc_refl].
    - intros [Hdesc (x & Hx & Hvx)]. split; [done |].
      intros Hin. apply HD in Hin. destruct Hin as (y & _ & Hdead & Hyv).
      apply (Hdead x Hx). by eapply rtc_trans. }
  assert (Hvis : get_visualizations s' = get_visualizations s).
  { unfold get_visualizations. by rewrite Hmods. }
  split; [done |]. split.
  - intros Hne Hkeys.
    destruct (reachable_loop_Ok s' inputs ∅) as (r & Hloop & Hr).
    { intros i Hi. apply Hdom. by apply Hkeys. }
    assert (Hmem : ∀ v, v ∈ r
              ↔ ∃ i, i ∈ inputs ∧ descendant dependencies i v
                     ∧ ∃ x, x ∈ all_vis ∧ descendant dependencies v x).
    { intros v. rewrite Hr. split.
      - intros [Hempty | (i & Ri & Hi & HRi & Hv)];
          [by apply elem_of_empty in Hempty |].
        exists i. split; [done |]. by apply (Hchar i Ri HRi).
      - intros (i & Hi & Hdesc). right.
        destruct (Hdom i) as [_ [Ri HRi]]; [by apply Hkeys |].
        exists i, Ri. split; [done |]. split; [done |].
        by apply (Hchar i Ri HRi). }
    assert (Hlive : r ≠ ∅ → ∃ x, x ∈ all_vis ∧ x ∈ r).
    { intros Hnonempty. apply set_choose_L in Hnonempty.
      destruct Hnonempty as [v Hv]. apply Hmem in Hv.
      destruct Hv as (i & Hi & Hiv & x & Hx & Hvx).
      exists x. split; [done |]. apply Hmem. exists i. split; [done |].
      split; [by eapply rtc_trans |]. exists x. split; [done |].
      apply rtc_refl. }
    exists r. split; [done |]. split; [| done].
    unfold reachable_from_inputs. destruct inputs as [|i rest]; [done |].
    rewrite Hloop. cbn. rewrite Hvis. fold all_vis.
    destruct (decide (r = ∅)) as [Hempty | Hempty].
    + rewrite (bool_decide_eq_true_2 (r = ∅)) by done.
      rewrite bool_decide_eq_false_2; [done |].
      intros Hinter. apply Hinter. rewrite Hempty.
      apply (left_absorb_L ∅ (∩)).
    + rewrite (bool_decide_eq_false_2 (r = ∅)) by done.
      rewrite bool_decide_eq_true_2; [done |].
      destruct (Hlive Hempty) as (x & Hx & Hxr).
      intros Hinter. apply (elem_of_empty (C := gset string) x).
      rewrite <- Hinter. by apply elem_of_intersection.
  - intros (i & Hi & Hout).
    unfold reachable_from_inputs. destruct inputs as [|j rest].
    + by apply elem_of_nil in Hi.
    + rewrite reachable_loop_KeyError; [done |]. exists i. split; [done |].
      destruct (_reachability s' !! i) as [Ri|] eqn:HRi; [| done].
      exfalso. apply Hout, Hdom. by eexists.
Qed.

(** X25: [_module_order] is a consistent comparison: swapping its arguments
    negates the result, it is 0 on equal arguments, "not after" is
    transitive, and a module without an order is never after a module with
    one. *)
Theorem module_order_consistent (x y z : gmap string Z) :
  _module_order x y = - _module_order y x
  ∧ _module_order x x = 0
  ∧ (_module_order x y ≤ 0 → _module_order y z ≤ 0 → _module_order x z ≤ 0)
  ∧ (x !! "order"%string = None → _module_order x y ≤ 0).
Proof.
  unfold _module_order.
  destruct (x !! "order"%string), (y !! "order"%string),
    (z !! "order"%string); repeat split; intros; try done; lia.
Qed.
End ReachableFromInputs.

Section ReachableFromInputsExamples.
Import BaseScheduler SchedulerOps Descendants.

(** X24 at work on the chain, whose one visualization is c. *)
Lemma reachable_from_inputs_after_compute_witness :
  let s' := result_state (_compute_reachability Examples.chain_dependencies
                                                Examples.chain) in
  let all_vis : gset string :=
    list_to_set (get_visualizations Examples.chain) in
  reachable_from_inputs [] s' = inr (Some ∅)
  ∧ (["a"%string] ≠ [] →
     (∀ i, i ∈ ["a"%string] → i ∈ dom Examples.chain_dependencies) →
     ∃ r : gset string,
       (∀ v, v ∈ r
             ↔ ∃ i, i ∈ ["a"%string]
                    ∧ descendant Examples.chain_dependencies i v
                    ∧ ∃ x, x ∈ all_vis
                           ∧ descendant Examples.chain_dependencies v x)
       ∧ reachable_from_inputs ["a"%string] s'
         = inr (if bool_decide (r = ∅) then None else Some r)
       ∧ (r ≠ ∅ → ∃ x, x ∈ all_vis ∧ x ∈ r))
  ∧ ((∃ i, i ∈ ["a"%string] ∧ i ∉ dom Examples.chain_dependencies) →
     reachable_from_inputs ["a"%string] s' = inl KeyError).
Proof.
  intros s'.
  apply (reachable_from_inputs_after_compute Examples.chain_dependencies
           Examples.chain s' ["a"%string]).
  vm_compute. reflexivity.
Defined.
End ReachableFromInputsExamples.

(** ** Taking up new modules *)
Section UpdateModules.
Import BaseScheduler SchedulerOps SchedulerFrame.
Variable toposort : gmap string (gset string) → exn + list string.
Variable validate_outputs : Mod.t → bool.

#[local] Instance agree_refl {A} (f : t → A) : Reflexive (agree f).
Proof. by intros s. Qed.

#[local] Instance agree_trans {A} (f : t → A) : Transitive (agree f).
Proof. unfold agree. intros s1 s2 s3 H12 H23. by rewrite H23. Qed.

Lemma bind_Ok_inv {S A B} (m : M S A) (k : A → M S B) (s s' : S) (b : B) :
  (m ≫= k) s = Ok b s' → ∃ a s1, m s = Ok a s1 ∧ k a s1 = Ok b s'.
Proof.
  unfold mbind, M_bind, bind. destruct (m s) as [a s1 | e s1]; [| done].
  intros Hk. by exists a, s1.
Qed.

Lemma preserves_Ok {S A} (P : S → S → Prop) (m : M S A) (s s' : S) (a : A) :
  preserves P m → m s = Ok a s' → P s s'.
Proof. intros Hm Hrun. specialize (Hm s). by rewrite Hrun in Hm. Qed.

Lemma preserves_try_except {S A} (P : S → S → Prop) `{!Transitive P}
      (m h : M S A) (e : exn) :
  preserves P m → preserves P h → preserves P (try_except m e h).
Proof.
  intros Hm Hh s. unfold try_except. specialize (Hm s).
  destruct (m s) as [a s1 | e' s1]; [done |]. cbn in Hm.
  destruct (decide (e' = e)); [| done]. etrans; [exact Hm | apply Hh].
Qed.

Lemma preserves_lift_exn {S A} (P : S → S → Prop) `{!Reflexive P}
      (r : exn + A) :
  preserves P (lift_exn r : M S A).
Proof. intros s. destruct r; reflexivity. Qed.

Lemma preserves_getindex {S A} (P : S → S → Prop) `{!Reflexive P}
      (o : option A) :
  preserves P (getindex o : M S A).
Proof. intros s. destruct o; reflexivity. Qed.

(** A method call on a module keeps what does not read the module. *)
Lemma preserves_on_module {A B} (f : t → B) (mid : string) (c : M Mod.t A) :
  (∀ s m, _modules s !! mid = Some m →
          f (with_modules (<[mid := result_state (c m)]> (_modules s)) s)
          = f s) →
  preserves (agree f) (on_module mid c).
Proof.
  intros Hf s. unfold on_module. unfold_M.
  destruct (_modules s !! mid) as [m|] eqn:Hm; [| done].
  specialize (Hf s m Hm). by destruct (c m).
Qed.

Section Kept.
Context {B : Type} (f : t → B).
Hypothesis reachability_unread :
  ∀ R s, f (with_reachability R s) = f s.

Lemma vertex_entries_keeps (index : gmap string nat) (vertex1 : string)
      (vertices : list string) :
  preserves (agree f) (vertex_entries index vertex1 vertices).
Proof.
  induction vertices as [|vertex2 rest IH]; cbn [vertex_entries].
  - apply (preserves_ret (agree f)).
  - apply (preserves_bind (agree f));
      [apply (preserves_getitem (agree f)) | intros c].
    apply (preserves_bind (agree f));
      [apply (preserves_getitem (agree f)) | intros r].
    apply (preserves_bind (agree f)); [exact IH | intros es].
    apply (preserves_ret (agree f)).
Qed.

Lemma matrix_entries_keeps (index : gmap string nat)
      (items : list (string * gset string)) :
  preserves (agree f) (matrix_entries index items).
Proof.
  induction items as [|[vertex1 vertices] rest IH]; cbn [matrix_entries].
  - apply (preserves_ret (agree f)).
  - apply (preserves_bind (agree f));
      [apply vertex_entries_keeps | intros es].
    apply (preserves_bind (agree f)); [exact IH | intros es'].
    apply (preserves_ret (agree f)).
Qed.

Lemma reach_rows_keeps (k : list string) (dist : nat → nat → option nat)
      (all_vis : gset string) (rows : list nat) (acc : gset string) :
  preserves (agree f) (reach_rows k dist all_vis rows acc).
Proof.
  revert acc. induction rows as [|index1 rest IH]; intros acc;
    cbn [reach_rows].
  - apply (preserves_ret (agree f)).
  - apply (preserves_bind (agree f));
      [apply (preserves_getindex (agree f)) | intros vertex1].
    apply (preserves_bind (agree f)).
    { apply (preserves_modify (agree f)). intros s.
      apply reachability_unread. }
    intros _. case_bool_decide; [| apply IH].
    apply (preserves_bind (agree f));
      [apply (preserves_get (agree f)) | intros self].
    apply (preserves_bind (agree f));
      [apply (preserves_getitem (agree f)) | intros m].
    apply IH.
Qed.

Lemma compute_reachability_keeps (d : gmap string (gset string)) :
  preserves (agree f) (_compute_reachability d).
Proof.
  unfold _compute_reachability. cbn zeta.
  apply (preserves_bind (agree f)); [apply matrix_entries_keeps | intros mat].
  apply (preserves_bind (agree f)).
  { apply (preserves_modify (agree f)). intros s.
    apply reachability_unread. }
  intros _.
  apply (preserves_bind (agree f));
    [apply (preserves_get (agree f)) | intros self].
  apply (preserves_bind (agree f)); [apply reach_rows_keeps | intros D].
  apply (preserves_modify (agree f)). intros s. apply reachability_unread.
Qed.

Lemma collect_dependencies_keeps (only_required : bool) :
  preserves (agree f) (_collect_dependencies only_required).
Proof.
  unfold _collect_dependencies.
  apply (preserves_bind (agree f));
    [apply (preserves_get (agree f)) | intros self].
  apply (preserves_lift_exn (agree f)).
Qed.

Lemma order_modules_keeps :
  preserves (agree f) (order_modules toposort).
Proof.
  unfold order_modules.
  apply (preserves_try_except (agree f));
    (apply (preserves_bind (agree f));
       [apply collect_dependencies_keeps | intros d];
     apply (preserves_bind (agree f));
       [apply (preserves_lift_exn (agree f)) | intros ro];
     apply (preserves_bind (agree f));
       [apply compute_reachability_keeps | intros _];
     apply (preserves_ret (agree f))).
Qed.
End Kept.

Lemma module_states_insert (s : t) (mid : string) (m m' : Mod.t) :
  _modules s !! mid = Some m →
  Mod._state m' = Mod._state m →
  Mod._input_slots m' = Mod._input_slots m →
  module_states (with_modules (<[mid := m']> (_modules s)) s)
  = module_states s.
Proof.
  intros Hm Hstate Hslots. unfold module_states. cbn.
  rewrite fmap_insert, Hstate, Hslots. apply insert_id.
  by rewrite lookup_fmap, Hm.
Qed.

Lemma update_frame_insert (s : t) (mid : string) (m m' : Mod.t) :
  _modules s !! mid = Some m →
  Mod._state m' = Mod._state m →
  Mod._input_slots m' = Mod._input_slots m →
  (fun s => (bookkeeping s, _valid s, module_states s))
    (with_modules (<[mid := m']> (_modules s)) s)
  = (bookkeeping s, _valid s, module_states s).
Proof.
  intros Hm Hstate Hslots. cbn beta.
  by rewrite (module_states_insert s mid m m' Hm Hstate Hslots).
Qed.

Lemma fill_run_list_keeps (i : Z) (runorder : list string) :
  preserves (agree (fun s => (bookkeeping s, _valid s, module_states s)))
            (fill_run_list i runorder).
Proof.
  set (f := fun s => (bookkeeping s, _valid s, module_states s)).
  revert i. induction runorder as [|mid rest IH]; intros i;
    cbn [fill_run_list].
  - apply (preserves_ret (agree f)).
  - apply (preserves_bind (agree f)).
    { apply preserves_on_module. intros s m Hm.
      by apply (update_frame_insert s mid m). }
    intros _. apply (preserves_bind (agree f)).
    { by apply (preserves_modify (agree f)). }
    intros _. apply (preserves_bind (agree f)); [| intros _; apply IH].
    apply preserves_on_module. intros s m Hm.
    by apply (update_frame_insert s mid m).
Qed.

Lemma fill_run_list_appends (i : Z) (runorder : list string) (s s' : t) :
  fill_run_list i runorder s = Ok tt s' →
  _run_list s' = _run_list s ++ runorder.
Proof.
  revert i s. induction runorder as [|mid rest IH]; intros i s;
    cbn [fill_run_list].
  - intros [= <-]. by rewrite app_nil_r.
  - intros Hrun.
    apply bind_Ok_inv in Hrun as ([] & s1 & H1 & Hrun).
    apply bind_Ok_inv in Hrun as ([] & s2 & H2 & Hrun).
    apply bind_Ok_inv in Hrun as ([] & s3 & H3 & Hrun).
    apply IH in Hrun. rewrite Hrun.
    apply (preserves_Ok (agree _run_list)) in H1;
      [| by apply preserves_on_module].
    apply (preserves_Ok (agree _run_list)) in H3;
      [| by apply preserves_on_module].
    injection H2 as <-. unfold agree in *. rewrite H3. cbn. rewrite H1.
    by rewrite <- (assoc_L (++)).
Qed.

Lemma validate_loop_keeps {B} (f : t → B) (mids : list string)
      (valid : bool) :
  (∀ mods s, f (with_modules mods s) = f s) →
  preserves (agree f) (validate_loop validate_outputs mids valid).
Proof.
  intros Hf. revert valid. induction mids as [|mid rest IH]; intros valid;
    cbn [validate_loop].
  - apply (preserves_ret (agree f)).
  - apply (preserves_bind (agree f)); [| intros ok; apply IH].
    apply preserves_on_module. intros s m _. apply Hf.
Qed.

Lemma validate_Ok_inv (s s' : t) (ok : bool) :
  validate validate_outputs s = Ok ok s' →
  _valid s' = ok
  ∧ bookkeeping s' = bookkeeping s ∧ _run_list s' = _run_list s
  ∧ (_valid s = true → s' = s).
Proof.
  unfold validate. intros Hrun.
  apply bind_Ok_inv in Hrun as (self & s0 & [= <- <-] & Hrun).
  apply bind_Ok_inv in Hrun as ([] & s1 & Hbody & Hrun).
  unfold_M in Hrun. injection Hrun as <- <-.
  destruct (_valid s) eqn:Hvalid; cbn [negb] in Hbody.
  - injection Hbody as <-. done.
  - apply bind_Ok_inv in Hbody as (valid & s2 & Hloop & Hbody).
    injection Hbody as <-. cbn.
    apply (preserves_Ok (agree (fun s => (bookkeeping s, _run_list s))))
      in Hloop; [| by apply validate_loop_keeps].
    unfold agree in Hloop. cbn beta in Hloop.
    pose proof (f_equal fst Hloop) as Hbook.
    pose proof (f_equal snd Hloop) as Hlist.
    split; [done |]. split; [exact Hbook |]. split; [exact Hlist | done].
Qed.

End UpdateModules.

Section UpdateModulesExamples.
Import BaseScheduler SchedulerOps SchedulerFrame.

End UpdateModulesExamples.

(** ** Removing a module that feeds no other *)
Section DataflowRemoveLeaf.
Import Dataflow DataflowOps DataflowFan.

Lemma fan_out_Some (outputs : gmap string (gmap string (list Slot)))
      (p o : string) (fan : list Slot) :
  fan_out outputs p o = Some fan
  ↔ ∃ outs, outputs !! p = Some outs ∧ outs !! o = Some fan.
Proof.
  unfold fan_out. destruct (outputs !! p) as [outs|]; cbn.
  - split; [intros Hfan; by exists outs | by intros (? & [= <-] & ?)].
  - split; [done | by intros (? & ? & ?)].
Qed.

Lemma fan_out_insert (outputs : gmap string (gmap string (list Slot)))
      (p o p' o' : string) (outs : gmap string (list Slot))
      (fan : list Slot) :
  outputs !! p = Some outs →
  fan_out (<[p := <[o := fan]> outs]> outputs) p' o'
  = if decide (mkSlot p' o' = mkSlot p o) then Some fan
    else fan_out outputs p' o'.
Proof.
  intros Hp. unfold fan_out. case_decide as Heq.
  - injection Heq as -> ->. rewrite lookup_insert_eq. cbn.
    apply lookup_insert_eq.
  - destruct (decide (p' = p)) as [-> | Hne].
    + rewrite lookup_insert_eq, Hp. cbn. apply lookup_insert_ne.
      intros <-. done.
    + by rewrite lookup_insert_ne.
Qed.

Lemma fan_out_delete (outputs : gmap string (gmap string (list Slot)))
      (p o p' o' : string) (outs : gmap string (list Slot)) :
  outputs !! p = Some outs →
  fan_out (<[p := delete o outs]> outputs) p' o'
  = if decide (mkSlot p' o' = mkSlot p o) then None
    else fan_out outputs p' o'.
Proof.
  intros Hp. unfold fan_out. case_decide as Heq.
  - injection Heq as -> ->. rewrite lookup_insert_eq. cbn.
    apply lookup_delete_eq.
  - destruct (decide (p' = p)) as [-> | Hne].
    + rewrite lookup_insert_eq, Hp. cbn. apply lookup_delete_ne.
      intros <-. done.
    + by rewrite lookup_insert_ne.
Qed.

(** The loop of [_remove_module_inputs] over slots that are bound to
    distinct outputs, each with a fan-out list. *)
Lemma remove_inputs_loop (name : string) (slots : list Slot) (d : t) :
  NoDup slots →
  (∀ s, s ∈ slots →
        is_Some (fan_out (_outputs d) (module s) (Dataflow.name s))) →
  ∃ outputs',
    for_each slots (fun slot =>
      self ← get;
      outs ← getitem (_outputs self !! module slot);
      slots ← getitem (outs !! Dataflow.name slot);
      let nslots := not_of name slots in
      if bool_decide (nslots ≠ []) then
        modify (with_outputs
                  <[module slot := <[Dataflow.name slot := nslots]> outs]>)
      else
        modify (with_outputs
                  <[module slot := delete (Dataflow.name slot) outs]>)) d
    = Ok tt (with_outputs (fun _ => outputs') d)
    ∧ dom outputs' = dom (_outputs d)
    ∧ ∀ p o, fan_out outputs' p o
             = if decide (mkSlot p o ∈ slots)
               then fan_out (_outputs d) p o ≫= unplugged name
               else fan_out (_outputs d) p o.
Proof.
  revert d. induction slots as [|[p o] rest IH]; intros d Hnd Hall.
  - exists (_outputs d). split; [by destruct d |]. split; [done |].
    intros p o. rewrite decide_False; [done |]. apply not_elem_of_nil.
  - apply NoDup_cons in Hnd as [Hfresh Hnd].
    destruct (Hall (mkSlot p o)) as [fan Hfan]; [left |].
    cbn [module Dataflow.name] in Hfan.
    apply fan_out_Some in Hfan as (outs & Hp & Ho).
    set (outs1 := if bool_decide (not_of name fan ≠ [])
                  then <[o := not_of name fan]> outs else delete o outs).
    set (d1 := with_outputs <[p := outs1]> d).
    assert (Hlook : ∀ p' o',
              fan_out (_outputs d1) p' o'
              = if decide (mkSlot p' o' = mkSlot p o)
                then unplugged name fan
                else fan_out (_outputs d) p' o').
    { intros p' o'. unfold d1, outs1, unplugged. cbn [_outputs with_outputs].
      case_bool_decide.
      - by apply fan_out_insert.
      - by apply fan_out_delete. }
    destruct (IH d1 Hnd) as (outputs' & Hrun & Hdom & Hfans).
    { intros s Hs. destruct s as [p' o']. cbn [module Dataflow.name].
      rewrite Hlook, decide_False.
      - by apply (Hall (mkSlot p' o')); right.
      - intros Heq. rewrite Heq in Hs. done. }
    exists outputs'. split; [| split].
    + cbn [for_each]. rewrite (bind_Ok _ _ d d1 tt); [exact Hrun |].
      erewrite bind_Ok by reflexivity. cbn [module Dataflow.name].
      rewrite Hp. erewrite bind_Ok by reflexivity.
      rewrite Ho. erewrite bind_Ok by reflexivity.
      cbn zeta. unfold d1, outs1.
      destruct (bool_decide (not_of name fan ≠ [])); reflexivity.
    + rewrite Hdom. unfold d1. cbn [_outputs with_outputs].
      rewrite dom_insert_L. apply set_eq. intros x.
      rewrite elem_of_union, elem_of_singleton. split.
      * intros [-> | Hx]; [| done]. apply elem_of_dom. by rewrite Hp.
      * intros Hx. by right.
    + intros p' o'. rewrite Hfans, Hlook.
      destruct (decide (mkSlot p' o' = mkSlot p o)) as [Heq | Hne].
      * injection Heq as -> ->. rewrite decide_False by done.
        rewrite decide_True by left.
        assert (Hfan : fan_out (_outputs d) p o = Some fan)
          by (apply fan_out_Some; by exists outs).
        by rewrite Hfan.
      * destruct (decide (mkSlot p' o' ∈ rest)) as [Hin | Hout].
        -- rewrite decide_True by (by right). done.
        -- rewrite decide_False; [done |]. intros Hin.
           apply elem_of_cons in Hin. by destruct Hin.
Qed.

Lemma fan_out_delete_module
      (outputs : gmap string (gmap string (list Slot))) (name p o : string) :
  fan_out (delete name outputs) p o
  = if decide (p = name) then None else fan_out outputs p o.
Proof.
  unfold fan_out. case_decide as Heq.
  - subst p. by rewrite lookup_delete_eq.
  - by rewrite lookup_delete_ne.
Qed.

(** X27: in a dataflow whose wiring is linked, a registered module that
    feeds no other module, and whose inputs are bound to distinct outputs,
    can be removed: [remove_module] returns the module as a Zombie, the
    module is gone from the three maps, and the wiring that is left is
    linked. *)
Theorem remove_module_leaf (d : t) (m : Mod.t) (ins : gmap string Slot) :
  linked d →
  is_Some (_modules d !! Mod.name m) →
  _inputs d !! Mod.name m = Some ins →
  _outputs d !! Mod.name m = Some ∅ →
  (∀ i1 i2 s, ins !! i1 = Some s → ins !! i2 = Some s → i1 = i2) →
  ∃ d', remove_module (inr m) d
        = Ok (Mod.with_state Mod.state_zombie m) d'
    ∧ _modules d' = delete (Mod.name m) (_modules d)
    ∧ _inputs d' = delete (Mod.name m) (_inputs d)
    ∧ _outputs d' !! Mod.name m = None
    ∧ linked d'.
Proof.
  intros [Hfwd Hbwd] [m0 Hm0] Hins Houts Hinj.
  set (c := Mod.name m) in *.
  set (slots := (map_to_list ins).*2).
  assert (Hslots : ∀ p o, mkSlot p o ∈ slots
                          ↔ ∃ i, ins !! i = Some (mkSlot p o)).
  { intros p o. unfold slots. rewrite list_elem_of_fmap. split.
    - intros ([i s] & Heq & Hin). cbn in Heq. subst s.
      apply elem_of_map_to_list in Hin. by exists i.
    - intros [i Hi]. exists (i, mkSlot p o). split; [done |].
      by apply elem_of_map_to_list. }
  assert (Hnd : NoDup slots).
  { unfold slots. apply NoDup_fmap_2_strong; [| apply NoDup_map_to_list].
    intros [i1 s1] [i2 s2] Hin1 Hin2 Heq. cbn in Heq. subst s2.
    apply elem_of_map_to_list in Hin1, Hin2.
    by rewrite (Hinj i1 i2 s1 Hin1 Hin2). }
  set (d2 := with_modules (fun _ => delete c (_modules d)) d).
  destruct (remove_inputs_loop c slots d2 Hnd)
    as (outputs' & Hloop & Hdom & Hfans).
  { intros [p o] Hs. apply Hslots in Hs as [i Hi].
    destruct (Hfwd c i p o ins Hins Hi) as (outs & fan & Hp & Ho & _).
    exists fan. apply fan_out_Some. by exists outs. }
  cbn [_outputs d2 with_modules] in Hdom, Hfans.
  assert (Hnone : ∀ o, fan_out (_outputs d) c o = None).
  { intros o. unfold fan_out. by rewrite Houts. }
  assert (Hleaf : outputs' !! c = Some ∅).
  { assert (Hin : c ∈ dom outputs')
      by (rewrite Hdom; apply elem_of_dom; by rewrite Houts).
    apply elem_of_dom in Hin as [outs Hc]. rewrite Hc. f_equal.
    apply map_eq. intros o. rewrite lookup_empty.
    specialize (Hfans c o). unfold fan_out at 1 in Hfans.
    rewrite Hc in Hfans. cbn in Hfans. rewrite Hfans, Hnone.
    by case_decide. }
  exists (mk (delete c (_modules d)) (delete c (_inputs d))
             (delete c outputs')).
  split; [| split; [done | split; [done | split]]].
  - unfold remove_module.
    rewrite (bind_Ok _ _ d d m) by reflexivity.
    rewrite (bind_Ok _ _ d d (tt, Mod.with_state Mod.state_zombie m))
      by reflexivity.
    rewrite (bind_Ok get _ d d d) by reflexivity.
    change (Mod.name (Mod.with_state Mod.state_zombie m)) with c.
    rewrite (bind_Ok _ _ d d (delete c (_modules d))).
    2:{ unfold delitem.
        rewrite (bind_Ok _ _ d d m0) by (by apply getitem_Some).
        reflexivity. }
    rewrite (bind_Ok _ _ d d2 tt) by reflexivity.
    set (d3 := with_outputs (fun _ => outputs') d2).
    set (d4 := with_inputs (fun _ => delete c (_inputs d)) d3).
    rewrite (bind_Ok _ _ d2 d4 tt).
    2:{ unfold _remove_module_inputs.
        rewrite (bind_Ok get _ d2 d2 d2) by reflexivity.
        rewrite (bind_Ok _ _ d2 d2 ins) by (by apply getitem_Some).
        rewrite (bind_Ok _ _ d2 d3 tt) by exact Hloop.
        rewrite (bind_Ok get _ d3 d3 d3) by reflexivity.
        unfold delitem.
        rewrite (bind_Ok _ _ d3 d3 (delete c (_inputs d))).
        - reflexivity.
        - rewrite (bind_Ok _ _ d3 d3 ins) by (by apply getitem_Some).
          reflexivity. }
    rewrite (bind_Ok _ _ _ _ tt
               (remove_module_outputs_unbound c d4 Hleaf)).
    reflexivity.
  - cbn. apply lookup_delete_eq.
  - assert (Hleft : ∀ p o fan',
              fan_out (delete c outputs') p o = Some fan' →
              p ≠ c
              ∧ ∃ fan, fan_out (_outputs d) p o = Some fan
                  ∧ ((mkSlot p o ∈ slots ∧ fan' = not_of c fan)
                     ∨ (¬ mkSlot p o ∈ slots ∧ fan' = fan))).
    { intros p o fan' Hfan'. rewrite fan_out_delete_module in Hfan'.
      case_decide as Hp; [done |]. split; [done |].
      rewrite Hfans in Hfan'. case_decide as Hin.
      - destruct (fan_out (_outputs d) p o) as [fan|]; [| done].
        exists fan. split; [done |]. left. split; [done |].
        cbn in Hfan'. unfold unplugged in Hfan'.
        case_bool_decide; [| done]. by injection Hfan' as <-.
      - exists fan'. split; [done |]. by right. }
    split.
    + intros c' i p o ins' Hc' Hi. cbn [_inputs] in Hc'.
      apply lookup_delete_Some in Hc' as [Hne Hc'].
      destruct (Hfwd c' i p o ins' Hc' Hi) as (outs & fan & Hp & Ho & Hin).
      assert (Hpc : p ≠ c).
      { intros ->. rewrite Houts in Hp. injection Hp as <-.
        by rewrite lookup_empty in Ho. }
      assert (Hfan : fan_out (_outputs d) p o = Some fan)
        by (apply fan_out_Some; by exists outs).
      assert (Hkept : mkSlot c' i ∈ not_of c fan).
      { unfold not_of. apply list_elem_of_filter. split; [| done].
        cbn. by intros ->. }
      assert (Hres : ∃ fan', fan_out (delete c outputs') p o = Some fan'
                             ∧ mkSlot c' i ∈ fan').
      { rewrite fan_out_delete_module, decide_False by done.
        rewrite Hfans, Hfan. case_decide.
        - cbn. unfold unplugged. rewrite bool_decide_eq_true_2.
          + by exists (not_of c fan).
          + intros Hnil. rewrite Hnil in Hkept.
            by apply elem_of_nil in Hkept.
        - by exists fan. }
      destruct Hres as (fan' & Hfan' & Hin').
      apply fan_out_Some in Hfan' as (outs' & Hp' & Ho').
      by exists outs', fan'.
    + intros p o c' i outs' fan' Hp' Ho' Hin'. cbn [_outputs] in Hp'.
      assert (Hfan : fan_out (delete c outputs') p o = Some fan')
        by (apply fan_out_Some; by exists outs').
      destruct (Hleft p o fan' Hfan)
        as (Hpc & fan & Hfan0 & [[Hs ->] | [Hs ->]]).
      * apply fan_out_Some in Hfan0 as (outs & Hp & Ho).
        unfold not_of in Hin'. apply list_elem_of_filter in Hin'.
        destruct Hin' as [Hne Hin]. cbn in Hne.
        destruct (Hbwd p o c' i outs fan Hp Ho Hin) as (ins' & Hc' & Hi).
        exists ins'. split; [| done]. cbn [_inputs].
        by rewrite lookup_delete_ne.
      * apply fan_out_Some in Hfan0 as (outs & Hp & Ho).
        destruct (Hbwd p o c' i outs fan Hp Ho Hin') as (ins' & Hc' & Hi).
        assert (Hne : c' ≠ c).
        { intros ->. rewrite Hins in Hc'. injection Hc' as <-.
          apply Hs, Hslots. by exists i. }
        exists ins'. split; [| done]. cbn [_inputs].
        by rewrite lookup_delete_ne.
Qed.

Lemma wired_linked : linked Examples.wired.
Proof.
  set (d1 := result_state (add_module Examples.new_p empty)).
  set (d2 := result_state (add_module Examples.new_c d1)).
  assert (H1 : linked d1).
  { apply (linked_add_module Examples.new_p empty d1 linked_empty);
      reflexivity. }
  assert (H2 : linked d2).
  { apply (linked_add_module Examples.new_c d1 d2 H1);
      vm_compute; reflexivity. }
  assert (H3 : linked Examples.unwired).
  { apply (linked_add_module Examples.new_c2 d2 Examples.unwired H2);
      vm_compute; reflexivity. }
  apply (linked_add_connection Examples.unwired Examples.wired
           Examples.new_p Examples.new_c "o" "i" H3).
  vm_compute. reflexivity.
Qed.

(** X27 at work: the consumer c leaves the dataflow of p, c and c2. *)
Lemma remove_module_leaf_witness :
  ∃ d', remove_module (inr Examples.new_c) Examples.wired
        = Ok (Mod.with_state Mod.state_zombie Examples.new_c) d'
    ∧ _modules d'
      = delete (Mod.name Examples.new_c) (_modules Examples.wired)
    ∧ _inputs d'
      = delete (Mod.name Examples.new_c) (_inputs Examples.wired)
    ∧ _outputs d' !! Mod.name Examples.new_c = None
    ∧ linked d'.
Proof.
  apply (remove_module_leaf Examples.wired Examples.new_c
           {[ "i"%string := mkSlot "p" "o" ]}).
  - apply wired_linked.
  - exists Examples.new_c. vm_compute. reflexivity.
  - vm_compute. reflexivity.
  - vm_compute. reflexivity.
  - intros i1 i2 s H1 H2.
    apply lookup_singleton_Some in H1 as [<- _].
    by apply lookup_singleton_Some in H2 as [<- _].
Defined.
End DataflowRemoveLeaf.

(** ** Registering a module in the dataflow *)
Section DataflowRegister.
Import Dataflow DataflowOps.

(** X28: [add_module] fails its assertions, leaving the dataflow as it is,
    for a module that is not Created or whose name has an entry in the
    input map.  Otherwise the module is stored under its name: it is found
    by [df[name]] and [name in df], the other names are as before, the
    length grows by one unless the name was a module already, and
    [validate_module] accepts the module iff none of its input descriptors
    is required, as no input is bound yet. *)
Theorem dataflow_add_module_registers (m : Mod.t) (df : t) :
  (Mod.is_created m = false ∨ is_Some (_inputs df !! Mod.name m) →
   add_module m df = Raise AssertionError df)
  ∧ (Mod.is_created m = true → _inputs df !! Mod.name m = None →
     ∃ df', add_module m df = Ok tt df'
       ∧ __getitem__ (Mod.name m) df' = inr m
       ∧ __contains__ (Mod.name m) df' = true
       ∧ (∀ n, n ≠ Mod.name m → __getitem__ n df' = __getitem__ n df)
       ∧ __len__ df' = (if __contains__ (Mod.name m) df then __len__ df
                        else S (__len__ df))
       ∧ ∃ b, validate_module m df' = inr b
           ∧ (b = true
              ↔ ∀ n sd, Mod.input_descriptors m !! n = Some sd →
                        required sd = false)).
Proof.
  split.
  - intros Hbad. unfold add_module. unfold_M.
    destruct (Mod.is_created m); [| done].
    destruct Hbad as [? | Hsome]; [done |].
    rewrite bool_decide_eq_false_2; [done |].
    intros Hnone. rewrite Hnone in Hsome. by destruct Hsome.
  - intros Hc Hnone. eexists. split; [by apply add_module_Ok |].
    unfold __getitem__, __contains__, __len__, validate_module. cbn.
    rewrite !lookup_insert_eq. split; [done |].
    split; [by apply bool_decide_eq_true_2 |]. split; [| split].
    + intros n Hne. by rewrite lookup_insert_ne.
    + case_bool_decide as Hin.
      * by apply map_size_insert_Some.
      * apply map_size_insert_None. by apply eq_None_not_Some.
    + cbn. eexists. split; [reflexivity |].
      rewrite required_bound_true. split.
      * intros Hall n sd Hsd. destruct (required sd) eqn:Hreq; [| done].
        destruct (Hall n sd) as [x Hx]; [| done |].
        -- by apply elem_of_map_to_list.
        -- by rewrite lookup_empty in Hx.
      * intros Hall n sd Hin Hreq. apply elem_of_map_to_list in Hin.
        rewrite (Hall n sd Hin) in Hreq. done.
Qed.
End DataflowRegister.

(** ** The end of a run *)
Section CleanupRun.
Import Mod ModOps.

(** X29: [cleanup_run] always returns the run number; it turns a Zombie
    into a Terminated module, which [is_ready] then leaves alone and never
    finds ready, and it leaves a module in any other state as it is. *)
Theorem cleanup_run_buries_zombies (run_number : Z) (m : t) :
  ∃ m', cleanup_run run_number m = Ok run_number m'
    ∧ is_zombie m' = false
    ∧ (is_zombie m = true →
       m' = with_state state_terminated m
       ∧ ∀ heap self, is_ready (<[self := m']> heap) self
                      = Some (false, <[self := m']> heap))
    ∧ (is_zombie m = false → m' = m).
Proof.
  unfold cleanup_run. unfold_M. destruct (is_zombie m) eqn:Hz.
  - rewrite set_state_Ok
      by (unfold state_created, state_terminated, state_invalid; lia).
    eexists. split; [done |]. split; [done |]. split; [| done].
    intros _. split; [done |]. intros heap self.
    apply (is_ready_terminated _ _ (with_state state_terminated m));
      [apply lookup_insert_eq | done].
  - eexists. split; [done |]. split; [done |]. split; [done |]. done.
Qed.
End CleanupRun.

(** ** The timer of the scheduler *)
Section Timer.
Import BaseScheduler.

(** X30: the first reading of the timer is 0 and makes the clock its start;
    a reading of a started timer is the clock less the start and changes
    nothing, so the start is never moved; and the timer does not go back: of
    two readings in a row, the second is not below the first when the clock
    has not gone back between them.  Rounding the differences keeps their
    order, so the last part does not rest on exact arithmetic. *)
Theorem timer_never_goes_back (c1 c2 : Qc) (s : t) :
  ∃ t1 t2 s1,
    timer c1 s = Ok t1 s1 ∧ timer c2 s1 = Ok t2 s1
    ∧ _start s1 = Some (default c1 (_start s))
    ∧ t2 = (c2 - default c1 (_start s))%Qc
    ∧ (_start s = None → t1 = 0%Qc)
    ∧ (∀ start, _start s = Some start → t1 = (c1 - start)%Qc ∧ s1 = s)
    ∧ ((c1 ≤ c2)%Qc → (t1 ≤ t2)%Qc).
Proof.
  unfold timer. unfold_M. destruct (_start s) as [start|] eqn:Hstart.
  - exists (c1 - start)%Qc, (c2 - start)%Qc, s. rewrite Hstart. cbn.
    split; [done |]. split; [done |]. split; [done |]. split; [done |].
    split; [done |]. split.
    + intros start' [= <-]. done.
    + intros Hle. unfold Qcminus. by apply Qcplus_le_compat; [| apply Qcle_refl].
  - exists 0%Qc, (c2 - c1)%Qc, (with_start (Some c1) s). cbn.
    split; [done |]. split; [done |]. split; [done |]. split; [done |].
    split; [done |]. split; [done |].
    intros Hle. apply Qcle_minus_iff in Hle. exact Hle.
Qed.
End Timer.
